(** * Ordered containers of Ch17: plain BST, AVL, red-black tree, binary heap

    A shallow embedding of the C sources
      - solutions/Grimaud_BST/src/simple_bst.c   (module [SimpleBST])
      - solutions/Grimaud_BST/src/avl_bst.c      (module [AVL])
      - exercices/Nom_BST/src/rb_bst.c           (module [RB])
      - solutions/Grimaud_BST/src/heap.c         (module [Heap])
    and the properties stated about them.

    Conventions.
      - A pointer to a node that is exclusively owned by its parent is the
        subtree itself; [Leaf] is the NULL pointer.  Functions that update
        a node in place and return the (possibly different) root become
        functions from trees to trees.
      - C [int] values are integers of [Z].  Keys are only compared, never
        computed with.  Heights and node counts are bounded by the number of
        allocated nodes and heap indices by [2 * HEAP_MAX_SIZE], far below
        [INT_MAX], so the signed arithmetic of the sources never overflows
        and is written with the operations of [Z].
      - [assert] failures and NULL dereferences are results of their own
        ([None], or a constructor of [Heap.outcome]), never a default value. *)

From stdpp Require Import base gmap list.
From Stdlib Require Import ZArith Lia List Bool Sorted Permutation Ascii.
Import ListNotations.
Open Scope Z_scope.

(** ** Nodes shared by the three tree variants

    The three [struct binary_tree] declarations differ only in the balancing
    field: none (plain BST), [int height] (AVL), [enum node_color_e color]
    (red-black).  The type is parameterised by that field. *)

Inductive binary_tree_s (T : Type) : Type :=
| Leaf : binary_tree_s T
| Node (value : Z) (tag : T) (left right : binary_tree_s T) : binary_tree_s T.

Arguments Leaf {T}.
Arguments Node {T} value tag left right.

Section Common.
Context {T : Type}.
Implicit Types tree node : binary_tree_s T.

(** [binary_tree_nodes], identical in the three files. *)
Fixpoint binary_tree_nodes tree : Z :=
  match tree with
  | Leaf => 0
  | Node _ _ l r => binary_tree_nodes l + binary_tree_nodes r + 1
  end.

(** [min_value_node]: [None] is the failure of [assert(node != NULL)]. *)
Fixpoint min_value_node node : option Z :=
  match node with
  | Leaf => None
  | Node v _ l _ =>
      match l with
      | Leaf => Some v
      | Node _ _ _ _ => min_value_node l
      end
  end.

(** [find_node], identical in simple_bst.c and avl_bst.c. *)
Fixpoint find_node (value : Z) tree : bool :=
  match tree with
  | Leaf => false
  | Node tv _ l r =>
      if tv =? value then true
      else if tv <? value then find_node value r
      else find_node value l
  end.

Definition is_null tree : bool :=
  match tree with Leaf => true | Node _ _ _ _ => false end.

(** [dump_tree]: the sequence of values written to the standard output. *)
Fixpoint dump_tree tree (ascending : bool) : list Z :=
  match tree with
  | Leaf => []
  | Node v _ l r =>
      if ascending then
        (if is_null l then [] else dump_tree l ascending) ++ [v] ++
        (if is_null r then [] else dump_tree r ascending)
      else
        (if is_null r then [] else dump_tree r ascending) ++ [v] ++
        (if is_null l then [] else dump_tree l ascending)
  end.

(** *** Specification vocabulary *)

(** [occurs x tree]: some node of [tree] stores [x]. *)
Fixpoint occurs (x : Z) tree : Prop :=
  match tree with
  | Leaf => False
  | Node v _ l r => x = v \/ occurs x l \/ occurs x r
  end.

Fixpoint all_values (P : Z -> Prop) tree : Prop :=
  match tree with
  | Leaf => True
  | Node v _ l r => P v /\ all_values P l /\ all_values P r
  end.

(** The BST invariant: keys on the left are smaller, keys on the right
    are greater, at every node. *)
Fixpoint bst tree : Prop :=
  match tree with
  | Leaf => True
  | Node v _ l r =>
      all_values (fun x => x < v) l /\ all_values (fun x => v < x) r /\
      bst l /\ bst r
  end.

(** Number of nodes as a natural number, the measure of the recursions. *)
Fixpoint size tree : nat :=
  match tree with
  | Leaf => O
  | Node _ _ l r => S (size l + size r)
  end.

End Common.

(** A small error monad for the functions that can stop on an assertion. *)
Definition bind_opt {A B} (m : option A) (k : A -> option B) : option B :=
  match m with
  | Some a => k a
  | None => None
  end.

Notation "'do' x <- m ; k" := (bind_opt m (fun x => k))
  (at level 10, x name, m at level 100, k at level 200).

(** ** simple_bst.c *)

Module SimpleBST.

Definition tree := binary_tree_s unit.

Fixpoint binary_tree_height (t : tree) : Z :=
  match t with
  | Leaf => -1
  | Node _ _ l r =>
      let left := binary_tree_height l in
      let right := binary_tree_height r in
      let max := if left >? right then left else right in
      max + 1
  end.

Fixpoint add_node (value : Z) (t : tree) : tree :=
  match t with
  | Leaf => Node value tt Leaf Leaf
  | Node tv u l r =>
      if tv =? value then t
      else if tv >? value then Node tv u (add_node value l) r
      else Node tv u l (add_node value r)
  end.

Fixpoint remove_node (value : Z) (t : tree) : option tree :=
  match t with
  | Leaf => Some Leaf
  | Node tv u l r =>
      if value <? tv then
        do l' <- remove_node value l; Some (Node tv u l' r)
      else if value >? tv then
        do r' <- remove_node value r; Some (Node tv u l r')
      else
        match l, r with
        | Leaf, _ => Some r
        | _, Leaf => Some l
        | _, _ =>
            do temp_value <- min_value_node r;
            do r' <- remove_node temp_value r;
            Some (Node temp_value u l r')
        end
  end.

End SimpleBST.

(** ** avl_bst.c *)

Module AVL.

Definition tree := binary_tree_s Z.

Definition max (a b : Z) : Z := if a >? b then a else b.

(** The AVL variant reads the height stored in the node. *)
Definition binary_tree_height (t : tree) : Z :=
  match t with
  | Leaf => -1
  | Node _ h _ _ => h
  end.

Definition bst_rotate_left (t : tree) : tree :=
  match t with
  | Leaf => t
  | Node _ _ _ Leaf => t
  | Node v _ tl (Node rv _ rl rr) =>
      let l := binary_tree_height tl in
      let rl_h := binary_tree_height rl in
      let rr_h := binary_tree_height rr in
      let th := 1 + max l rl_h in
      Node rv (1 + max th rr_h) (Node v th tl rl) rr
  end.

Definition bst_rotate_right (t : tree) : tree :=
  match t with
  | Leaf => t
  | Node _ _ Leaf _ => t
  | Node v _ (Node lv _ ll lr) tr =>
      let r := binary_tree_height tr in
      let ll_h := binary_tree_height ll in
      let lr_h := binary_tree_height lr in
      let th := 1 + max lr_h r in
      Node lv (1 + max ll_h th) ll (Node v th lr tr)
  end.

(** Lines 283-303 of [add_node]: the height update and the rotations done
    on the way back, on the non-NULL node [t]. *)
Definition add_rebalance (value : Z) (t : tree) : tree :=
  match t with
  | Leaf => Leaf
  | Node tv _ l r =>
      let left_height := binary_tree_height l in
      let right_height := binary_tree_height r in
      let h := 1 + (if left_height <? right_height
                    then right_height else left_height) in
      if left_height - right_height >? 1 then
        let l' := match l with
                  | Node lv _ _ _ =>
                      if value >? lv then bst_rotate_left l else l
                  | Leaf => l
                  end in
        bst_rotate_right (Node tv h l' r)
      else if right_height - left_height >? 1 then
        let r' := match r with
                  | Node rv _ _ _ =>
                      if value <? rv then bst_rotate_right r else r
                  | Leaf => r
                  end in
        bst_rotate_left (Node tv h l r')
      else Node tv h l r
  end.

Fixpoint add_node (value : Z) (t : tree) : tree :=
  match t with
  | Leaf => add_rebalance value (Node value 0 Leaf Leaf)
  | Node tv th l r =>
      if value <? tv then
        add_rebalance value (Node tv th (add_node value l) r)
      else if value >? tv then
        add_rebalance value (Node tv th l (add_node value r))
      else add_rebalance value t
  end.

(** Lines 347-373 of [remove_node]: step 2, on the pointer [t] left by
    step 1 (which is NULL when a leaf was removed). *)
Definition remove_rebalance (t : tree) : tree :=
  match t with
  | Leaf => Leaf
  | Node tv _ l r =>
      let left_height := binary_tree_height l in
      let right_height := binary_tree_height r in
      let h := 1 + max left_height right_height in
      if left_height - right_height >? 1 then
        match l with
        | Node _ _ ll lr =>
            if binary_tree_height ll >=? binary_tree_height lr then
              bst_rotate_right (Node tv h l r)
            else bst_rotate_right (Node tv h (bst_rotate_left l) r)
        | Leaf => bst_rotate_right (Node tv h (bst_rotate_left l) r)
        end
      else if right_height - left_height >? 1 then
        match r with
        | Node _ _ rl rr =>
            if binary_tree_height rr >=? binary_tree_height rl then
              bst_rotate_left (Node tv h l r)
            else bst_rotate_left (Node tv h l (bst_rotate_right r))
        | Leaf => bst_rotate_left (Node tv h l (bst_rotate_right r))
        end
      else Node tv h l r
  end.

Fixpoint remove_node (value : Z) (t : tree) : option tree :=
  match t with
  | Leaf => Some Leaf
  | Node tv th l r =>
      if value <? tv then
        do l' <- remove_node value l;
        Some (remove_rebalance (Node tv th l' r))
      else if value >? tv then
        do r' <- remove_node value r;
        Some (remove_rebalance (Node tv th l r'))
      else
        match l, r with
        | Leaf, _ => Some (remove_rebalance r)
        | _, Leaf => Some (remove_rebalance l)
        | _, _ =>
            do temp_value <- min_value_node r;
            do r' <- remove_node temp_value r;
            Some (remove_rebalance (Node temp_value th l r'))
        end
  end.

(** The recursive calls of [remove_node]: [remove_call (v', t') (v, t)]
    when the call [remove_node(v, t)] calls [remove_node(v', t')]. *)
Inductive remove_call : Z * tree -> Z * tree -> Prop :=
| call_left value tv th l r :
    value < tv -> remove_call (value, l) (value, Node tv th l r)
| call_right value tv th l r :
    tv < value -> remove_call (value, r) (value, Node tv th l r)
| call_successor tv th l r temp_value :
    l <> Leaf -> r <> Leaf -> min_value_node r = Some temp_value ->
    remove_call (temp_value, r) (tv, Node tv th l r).

(** *** The AVL invariant *)

(** The recursively defined height, -1 for the empty tree. *)
Fixpoint real_height (t : tree) : Z :=
  match t with
  | Leaf => -1
  | Node _ _ l r => 1 + Z.max (real_height l) (real_height r)
  end.

(** Every node is balanced and stores the height of its subtree. *)
Fixpoint avl (t : tree) : Prop :=
  match t with
  | Leaf => True
  | Node _ h l r =>
      avl l /\ avl r /\
      Z.abs (real_height l - real_height r) <= 1 /\
      h = real_height t
  end.

(** [leans value t]: [t] is strictly deeper on the side where [value]
    goes.  This is what the comparison of [value] with the child's key
    relies on when [add_node] chooses between the single and the double
    rotation. *)
Definition leans (value : Z) (t : tree) : Prop :=
  match t with
  | Leaf => False
  | Node x _ a b =>
      (value < x /\ real_height b < real_height a) \/
      (x < value /\ real_height a < real_height b)
  end.

End AVL.

(** ** rb_bst.c *)

Module RB.

Inductive node_color_e : Type := RED | BLACK.

Definition tree := binary_tree_s node_color_e.

(** In rb_bst.c the two rotations are left to be written: their bodies
    are [/* TODO */ return NULL;]. *)
Definition bst_rotate_left (t : tree) : tree := Leaf.
Definition bst_rotate_right (t : tree) : tree := Leaf.

(** [t != NULL && t->color == RED] *)
Definition is_red (t : tree) : bool :=
  match t with
  | Node _ RED _ _ => true
  | _ => false
  end.

(** Field accesses and assignments.  They are applied to pointers that the
    code has tested against NULL. *)
Definition left_of (t : tree) : tree :=
  match t with Node _ _ l _ => l | Leaf => Leaf end.
Definition right_of (t : tree) : tree :=
  match t with Node _ _ _ r => r | Leaf => Leaf end.
Definition color_of (t : tree) : node_color_e :=
  match t with Node _ c _ _ => c | Leaf => BLACK end.
Definition set_color (c : node_color_e) (t : tree) : tree :=
  match t with Node v _ l r => Node v c l r | Leaf => Leaf end.
Definition set_left (l : tree) (t : tree) : tree :=
  match t with Node v c _ r => Node v c l r | Leaf => Leaf end.
Definition set_right (r : tree) (t : tree) : tree :=
  match t with Node v c l _ => Node v c l r | Leaf => Leaf end.

(** The insertion path calls the rotations as functions from a subtree to
    its new root.  It is written over the two rotations it calls, so that
    it can be read both with the rotations of the file and with the
    rotations the documentation describes. *)
Section Insertion.
Variables rotate_left rotate_right : tree -> tree.

(** [fix_red_black(root)], on the non-NULL node [root] with fields
    [v c l r]. *)
Definition fix_red_black_with (v : Z) (c : node_color_e) (l r : tree)
  : tree :=
  if is_red l && is_red (left_of l) then
    rotate_right (Node v c (set_left (set_color BLACK (left_of l)) l) r)
  else if is_red l && is_red (right_of l) then
    rotate_right (Node v c (rotate_left (set_color BLACK l)) r)
  else if is_red r && is_red (right_of r) then
    rotate_left (Node v c l (set_right (set_color BLACK (right_of r)) r))
  else if is_red r && is_red (left_of r) then
    rotate_left (Node v c l (rotate_right (set_color BLACK r)))
  else Node v c l r.

Fixpoint add_node_rec_with (value : Z) (root : tree) : tree :=
  match root with
  | Leaf => Node value RED Leaf Leaf
  | Node rv c l r =>
      if value <? rv then
        fix_red_black_with rv c (add_node_rec_with value l) r
      else if value >? rv then
        fix_red_black_with rv c l (add_node_rec_with value r)
      else root
  end.

(** [add_node]: [None] is the write to [root->color] through a NULL
    [root]. *)
Definition add_node_with (value : Z) (root : tree) : option tree :=
  match add_node_rec_with value root with
  | Leaf => None
  | Node v _ l r => Some (Node v BLACK l r)
  end.
End Insertion.

Definition fix_red_black := fix_red_black_with bst_rotate_left bst_rotate_right.
Definition add_node_rec := add_node_rec_with bst_rotate_left bst_rotate_right.
Definition add_node := add_node_with bst_rotate_left bst_rotate_right.

(** Modelled from the spec: the bodies of [bst_rotate_left] and
    [bst_rotate_right] of the red-black variant, which rb_bst.c leaves as
    TODO.  Section 4.1: the new subtree root is the old [node.right]; the
    old node becomes its new left child; the old [node.right.left]
    becomes the old node's new right child; purely structural, colours
    untouched; a no-op on a node without a right child.  [rotate_right]
    is the mirror. *)
Definition rotate_left_spec (t : tree) : tree :=
  match t with
  | Node v c tl (Node rv rc rl rr) => Node rv rc (Node v c tl rl) rr
  | _ => t
  end.

Definition rotate_right_spec (t : tree) : tree :=
  match t with
  | Node v c (Node lv lc ll lr) tr => Node lv lc ll (Node v c lr tr)
  | _ => t
  end.

(** *** Deletion

    [remove_node] keeps pointers into the subtree it works on ([parent],
    [sibling]) and writes through them.  A pointer to a node of the
    subtree is the path that leads to it from [root]; NULL is [None]. *)

Inductive dir : Type := L | R.
Definition path := list dir.

Definition dir_eqb (a b : dir) : bool :=
  match a, b with L, L | R, R => true | _, _ => false end.

Fixpoint path_eqb (p q : path) : bool :=
  match p, q with
  | [], [] => true
  | a :: p', b :: q' => dir_eqb a b && path_eqb p' q'
  | _, _ => false
  end.

(** Pointer comparison [p == q]. *)
Definition ptr_eqb (p q : option path) : bool :=
  match p, q with
  | None, None => true
  | Some p', Some q' => path_eqb p' q'
  | _, _ => false
  end.

(** The node a path leads to. *)
Fixpoint subtree (p : path) (t : tree) : tree :=
  match p, t with
  | [], _ => t
  | L :: p', Node _ _ l _ => subtree p' l
  | R :: p', Node _ _ _ r => subtree p' r
  | _ :: _, Leaf => Leaf
  end.

(** [p->color = c] *)
Fixpoint set_color_at (p : path) (c : node_color_e) (t : tree) : tree :=
  match p, t with
  | [], _ => set_color c t
  | L :: p', Node v k l r => Node v k (set_color_at p' c l) r
  | R :: p', Node v k l r => Node v k l (set_color_at p' c r)
  | _ :: _, Leaf => Leaf
  end.

(** The value of the pointer field [p->left] or [p->right]. *)
Definition child_ptr (t : tree) (p : path) (d : dir) : option path :=
  if is_null (subtree (p ++ [d]) t) then None else Some (p ++ [d]).

(** [t != NULL && t->value == value] *)
Definition has_value (value : Z) (t : tree) : bool :=
  match t with
  | Node v _ _ _ => v =? value
  | Leaf => false
  end.

Fixpoint find_parent (value : Z) (root : tree) : option path :=
  match root with
  | Leaf => None
  | Node rv _ l r =>
      if is_null l && is_null r then None
      else if has_value value l || has_value value r then Some []
      else if value <? rv then option_map (cons L) (find_parent value l)
      else if value >? rv then option_map (cons R) (find_parent value r)
      else None
  end.

(** Case 3 of [remove_node] once [parent] is not NULL, on the subtree
    [root] (lines 477-524).  [None] is a NULL dereference. *)
Definition remove_case3 (root : tree) (parent : path) : option tree :=
  let sibling :=
    if ptr_eqb (child_ptr root parent L) (Some [])
    then child_ptr root parent R
    else child_ptr root parent L in
  match sibling with
  | None => Some root
  | Some s =>
      if is_red (subtree s root) then
        (* Case 3.1 *)
        let m1 := set_color_at s BLACK root in
        let m2 := set_color_at parent RED m1 in
        if ptr_eqb (child_ptr m2 parent R) (Some s)
        then Some (bst_rotate_left (subtree parent m2))
        else Some (bst_rotate_right (subtree parent m2))
      else if negb (is_red (subtree (s ++ [L]) root)) &&
              negb (is_red (subtree (s ++ [R]) root)) then
        (* Case 3.2: both branches of the test on the parent's colour
           store BLACK *)
        let m1 := set_color_at s RED root in
        Some (set_color_at parent BLACK m1)
      else
        (* Case 3.3 *)
        let '(m1, root1, sibling1) :=
          if is_red (subtree (s ++ [L]) root) then
            let m := set_color_at (s ++ [L]) BLACK root in
            (m, bst_rotate_right (subtree s m), child_ptr m parent R)
          else (root, root, Some s) in
        match sibling1 with
        | None => None
        | Some s1 =>
            if is_red (subtree (s1 ++ [R]) m1) then
              let m2 := set_color_at s1 (color_of (subtree parent m1)) m1 in
              let m3 := set_color_at parent BLACK m2 in
              let m4 := set_color_at (s1 ++ [R]) BLACK m3 in
              Some (bst_rotate_left (subtree parent m4))
            else Some root1
        end
  end.

Fixpoint remove_node (value : Z) (root : tree) : option tree :=
  match root with
  | Leaf => Some Leaf
  | Node rv c l r =>
      if value <? rv then
        do l' <- remove_node value l; Some (Node rv c l' r)
      else if value >? rv then
        do r' <- remove_node value r; Some (Node rv c l r')
      else
        match c with
        | RED =>
            (* Case 1 *)
            if is_null l && is_null r then Some Leaf
            else if is_null l || is_null r then
              Some (if negb (is_null l) then l else r)
            else
              do successor_value <- min_value_node r;
              do r' <- remove_node successor_value r;
              Some (Node successor_value c l r')
        | BLACK =>
            if is_red r && is_null l then
              (* Case 2.1 *)
              Some (set_color BLACK r)
            else if is_red l && is_null r then
              (* Case 2.2 *)
              Some (set_color BLACK l)
            else if is_red l && is_red r then
              (* Case 2.3, first block *)
              do successor_value <- min_value_node r;
              do r' <- remove_node successor_value r;
              Some (Node successor_value c l r')
            else
              (* the second block labelled Case 2.3 repeats the test of
                 the first one, which returns: it is never entered *)
              (* Case 3 *)
              match find_parent value root with
              | Some parent => remove_case3 root parent
              | None =>
                  if negb (is_null r) then
                    do successor_value <- min_value_node r;
                    do r' <- remove_node successor_value r;
                    Some (Node successor_value c l r')
                  else Some Leaf
              end
        end
  end.

(** *** The red-black invariants *)

(** (a) no red node has a red child *)
Fixpoint no_red_red (t : tree) : Prop :=
  match t with
  | Leaf => True
  | Node _ c l r =>
      (c = RED -> is_red l = false /\ is_red r = false) /\
      no_red_red l /\ no_red_red r
  end.

Definition blackness (c : node_color_e) : nat :=
  match c with BLACK => 1%nat | RED => 0%nat end.

(** The number of black nodes crossed by each path from the root of [t]
    to an empty-subtree position, path by path from left to right. *)
Fixpoint path_blacks (t : tree) : list nat :=
  match t with
  | Leaf => [0%nat]
  | Node _ c l r =>
      map (Nat.add (blackness c)) (path_blacks l ++ path_blacks r)
  end.

(** (b) every path crosses the same number of black nodes *)
Definition black_balanced (t : tree) : Prop :=
  forall a b, In a (path_blacks t) -> In b (path_blacks t) -> a = b.

(** (c) the root is black *)
Definition root_black (t : tree) : Prop := is_red t = false.

Definition rb_valid (t : tree) : Prop :=
  no_red_red t /\ black_balanced t /\ root_black t.

(** Vocabulary of the proofs: the number of black nodes along the leftmost
    path, balance stated with it, and trees whose only red-red pair, if
    any, is at the root. *)
Fixpoint bheight (t : tree) : nat :=
  match t with
  | Leaf => 0%nat
  | Node _ c l _ => (blackness c + bheight l)%nat
  end.

Fixpoint balanced (t : tree) : Prop :=
  match t with
  | Leaf => True
  | Node _ _ l r => bheight l = bheight r /\ balanced l /\ balanced r
  end.

Definition nearly (t : tree) : Prop :=
  match t with
  | Leaf => True
  | Node _ _ l r => no_red_red l /\ no_red_red r
  end.

End RB.

(** ** heap.c *)

Module Heap.

Definition HEAP_MAX_SIZE : Z := 1000.

(** How a call ends. *)
Inductive outcome (A : Type) : Type :=
| Ok (a : A)          (* the call returns [a] *)
| AssertFail          (* an [assert] stops the program *)
| OutOfBounds         (* an access outside [array]: undefined behaviour *)
| OutOfFuel.          (* the bound given to a loop was too small *)

Arguments Ok {A} a.
Arguments AssertFail {A}.
Arguments OutOfBounds {A}.
Arguments OutOfFuel {A}.

Definition bind {A B} (m : outcome A) (k : A -> outcome B) : outcome B :=
  match m with
  | Ok a => k a
  | AssertFail => AssertFail
  | OutOfBounds => OutOfBounds
  | OutOfFuel => OutOfFuel
  end.

Notation "'let*' x := m 'in' k" := (bind m (fun x => k))
  (at level 10, x name, m at level 100, k at level 200).

(** [struct heap]: [array] always has [HEAP_MAX_SIZE] slots. *)
Record heap_s : Type := { array : list Z; nb_elements : Z }.

(** [a[i]] and [a[i] = v] *)
Definition read (a : list Z) (i : Z) : outcome Z :=
  if i <? 0 then OutOfBounds
  else match a !! Z.to_nat i with
       | Some x => Ok x
       | None => OutOfBounds
       end.

Definition write (a : list Z) (i : Z) (v : Z) : outcome (list Z) :=
  if (i <? 0) || (Z.of_nat (length a) <=? i) then OutOfBounds
  else Ok (<[Z.to_nat i := v]> a).

(** [swap(&a[i], &a[j])] *)
Definition swap (a : list Z) (i j : Z) : outcome (list Z) :=
  let* tmp := read a i in
  let* y := read a j in
  let* a1 := write a i y in
  write a1 j tmp.

(** [malloc] gives the array unspecified contents; [heap_create_with]
    takes them as an argument, [heap_create] fixes one choice. *)
Definition heap_create_with (contents : list Z) : heap_s :=
  {| array := contents; nb_elements := 0 |}.

Definition heap_create : heap_s :=
  heap_create_with (repeat 0 (Z.to_nat HEAP_MAX_SIZE)).

(** The [while] loop of [heap_add], run for at most [fuel] iterations. *)
Fixpoint sift_up (fuel : nat) (a : list Z) (i : Z) : outcome (list Z) :=
  match fuel with
  | O => OutOfFuel
  | S fuel' =>
      if i >? 0 then
        let* x := read a i in
        let* y := read a ((i - 1) ÷ 2) in
        if x >? y then
          let* a' := swap a i ((i - 1) ÷ 2) in
          sift_up fuel' a' ((i - 1) ÷ 2)
        else Ok a
      else Ok a
  end.

Definition heap_add (value : Z) (heap : heap_s) : outcome heap_s :=
  if nb_elements heap <? HEAP_MAX_SIZE then
    let i := nb_elements heap in
    let* a := write (array heap) i value in
    let* a' := sift_up (S (Z.to_nat i)) a i in
    Ok {| array := a'; nb_elements := nb_elements heap + 1 |}
  else AssertFail.

Definition heap_empty (heap : heap_s) : bool := nb_elements heap =? 0.

Definition heap_peek (heap : heap_s) : outcome Z :=
  if negb (heap_empty heap) then read (array heap) 0 else AssertFail.

(** The [while] loop of [heap_remove]; [n] is [heap->nb_elements]. *)
Fixpoint sift_down (fuel : nat) (a : list Z) (n : Z) (i : Z)
  : outcome (list Z) :=
  match fuel with
  | O => OutOfFuel
  | S fuel' =>
      if i <? n then
        let left_index := i * 2 + 1 in
        let right_index := i * 2 + 2 in
        let largest_index := i in
        let* largest_index :=
          if left_index <? n then
            let* x := read a left_index in
            let* y := read a largest_index in
            Ok (if x >? y then left_index else largest_index)
          else Ok largest_index in
        let* largest_index :=
          if right_index <? n then
            let* x := read a right_index in
            let* y := read a largest_index in
            Ok (if x >? y then right_index else largest_index)
          else Ok largest_index in
        if largest_index =? i then Ok a
        else
          let* a' := swap a i largest_index in
          sift_down fuel' a' n largest_index
      else Ok a
  end.

(** [heap_remove]: the only assertion is [heap != NULL]. *)
Definition heap_remove (heap : heap_s) : outcome heap_s :=
  let* last := read (array heap) (nb_elements heap - 1) in
  let* a := write (array heap) 0 last in
  let n := nb_elements heap - 1 in
  let* a' := sift_down (S (Z.to_nat n)) a n 0 in
  Ok {| array := a'; nb_elements := n |}.

(** *** Sequences of operations and what they should leave in the heap *)

Inductive op : Type := Add (value : Z) | Remove.

Fixpoint run (ops : list op) (heap : heap_s) : outcome heap_s :=
  match ops with
  | [] => Ok heap
  | Add value :: rest => let* h := heap_add value heap in run rest h
  | Remove :: rest => let* h := heap_remove heap in run rest h
  end.

Fixpoint maximum (x : Z) (l : list Z) : Z :=
  match l with
  | [] => x
  | y :: l' => Z.max x (maximum y l')
  end.

Fixpoint remove_one (x : Z) (l : list Z) : list Z :=
  match l with
  | [] => []
  | y :: l' => if y =? x then l' else y :: remove_one x l'
  end.

(** The elements added and not yet removed after [ops], starting from
    [bag]; [None] when the sequence exceeds the capacity or removes from
    an empty heap. *)
Fixpoint pending (ops : list op) (bag : list Z) : option (list Z) :=
  match ops with
  | [] => Some bag
  | Add value :: rest =>
      if Z.of_nat (length bag) <? HEAP_MAX_SIZE
      then pending rest (value :: bag) else None
  | Remove :: rest =>
      match bag with
      | [] => None
      | x :: bag' => pending rest (remove_one (maximum x bag') bag)
      end
  end.

(** *** Vocabulary of the proofs *)

(** The content of slot [i], and the array after [a[i] = v]. *)
Definition sel (a : list Z) (i : Z) : Z := default 0 (a !! Z.to_nat i).
Definition upd (a : list Z) (i v : Z) : list Z := <[Z.to_nat i := v]> a.

(** How many of the slots [0 .. n-1] hold [x]. *)
Fixpoint occ (a : list Z) (n : nat) (x : Z) : Z :=
  match n with
  | O => 0
  | S n' => occ a n' x + (if sel a (Z.of_nat n') =? x then 1 else 0)
  end.

(** The max-heap property on the slots [0 .. n-1]. *)
Definition heap_ordered (a : list Z) (n : Z) : Prop :=
  forall i, 0 < i < n -> sel a i <= sel a ((i - 1) / 2).

(** The heap [h] holds exactly the elements of [bag], in heap order. *)
Record heap_inv (h : heap_s) (bag : list Z) : Prop :=
  { inv_length : Z.of_nat (length (array h)) = HEAP_MAX_SIZE;
    inv_count : nb_elements h = Z.of_nat (length bag);
    inv_bound : nb_elements h <= HEAP_MAX_SIZE;
    inv_order : heap_ordered (array h) (nb_elements h);
    inv_content : forall x,
        occ (array h) (length bag) x
        = Z.of_nat (count_occ Z.eq_dec bag x) }.

(** The heap property during the two loops.  [up_ordered a n i]: it holds
    on [0 .. n-1] except between slot [i] and its parent, and the children
    of [i] are below the parent of [i].  [down_ordered a n i]: it holds
    except between slot [i] and its children, which are below the parent
    of [i]. *)
Definition up_ordered (a : list Z) (n i : Z) : Prop :=
  (forall j, 0 < j < n -> j <> i -> sel a j <= sel a ((j - 1) / 2)) /\
  (forall j, 0 < j < n -> (j - 1) / 2 = i -> 0 < i ->
             sel a j <= sel a ((i - 1) / 2)).

Definition down_ordered (a : list Z) (n i : Z) : Prop :=
  (forall j, 0 < j < n -> (j - 1) / 2 <> i ->
             sel a j <= sel a ((j - 1) / 2)) /\
  (forall j, 0 < j < n -> (j - 1) / 2 = i -> 0 < i ->
             sel a j <= sel a ((i - 1) / 2)).

End Heap.

(** ** Nodes in memory

    [find_node] on the memory it runs in: nodes are cells of a store,
    pointers are locations, and a computation takes the store and gives it
    back with its result. *)

Module Mem.

Definition loc := positive.

Section Store.
Context {T : Type}.

Record cell : Type :=
  { c_value : Z; c_tag : T; c_left : option loc; c_right : option loc }.

Definition M (A : Type) : Type := gmap loc cell -> option (A * gmap loc cell).

Definition ret {A} (a : A) : M A := fun s => Some (a, s).

Definition bindM {A B} (m : M A) (k : A -> M B) : M B :=
  fun s => match m s with
           | Some (a, s') => k a s'
           | None => None
           end.

(** Reading the node a pointer leads to; [None] on a dangling one. *)
Definition load (p : loc) : M cell :=
  fun s => match s !! p with
           | Some c => Some (c, s)
           | None => None
           end.

(** [find_node] with the recursion depth bounded by [fuel]. *)
Fixpoint find_node (fuel : nat) (value : Z) (tree : option loc) : M bool :=
  match fuel with
  | O => fun _ => None
  | S fuel' =>
      match tree with
      | None => ret false
      | Some p =>
          bindM (load p) (fun c =>
          if c_value c =? value then ret true
          else if c_value c <? value
               then find_node fuel' value (c_right c)
               else find_node fuel' value (c_left c))
      end
  end.

(** [repr s p t]: in the store [s] the pointer [p] is the root of the
    tree [t], with its values and its balancing fields. *)
Inductive repr (s : gmap loc cell) : option loc -> binary_tree_s T -> Prop :=
| repr_null : repr s None Leaf
| repr_node p c l r :
    s !! p = Some c ->
    repr s (c_left c) l -> repr s (c_right c) r ->
    repr s (Some p) (Node (c_value c) (c_tag c) l r).
(** [free(p)]: the cell leaves the store; [None] when [p] is not (or no
    longer) allocated. *)
Definition release (p : loc) : M unit :=
  fun s => match s !! p with
           | Some _ => Some (tt, delete p s)
           | None => None
           end.

(** [binary_tree_free] with the recursion depth bounded by [fuel]. *)
Fixpoint binary_tree_free (fuel : nat) (tree : option loc) : M unit :=
  match fuel with
  | O => fun _ => None
  | S fuel' =>
      match tree with
      | None => ret tt
      | Some p =>
          bindM (load p) (fun c =>
          bindM (match c_left c with
                 | Some _ => binary_tree_free fuel' (c_left c)
                 | None => ret tt
                 end) (fun _ =>
          bindM (load p) (fun c' =>
          bindM (match c_right c' with
                 | Some _ => binary_tree_free fuel' (c_right c')
                 | None => ret tt
                 end) (fun _ =>
          release p))))
      end
  end.

(** [owns s p t]: the store [s] consists of the cells of the tree [t]
    rooted at [p], each node in a cell of its own, and of nothing else. *)
Inductive owns : gmap loc cell -> option loc -> binary_tree_s T -> Prop :=
| owns_null : owns ∅ None Leaf
| owns_node p c l r sl sr :
    owns sl (c_left c) l -> owns sr (c_right c) r ->
    sl ##ₘ sr -> sl !! p = None -> sr !! p = None ->
    owns (<[p := c]> (sl ∪ sr)) (Some p) (Node (c_value c) (c_tag c) l r).
End Store.

Arguments cell : clear implicits.

End Mem.

(** ** main_heapsort.c *)

Module Heapsort.
Import Heap.

(** First loop of [my_heapsort]: [for (i = 0; i < n; i++)
    heap_add(array[i], heap)], with [k] iterations left to run from
    index [i]. *)
Fixpoint fill (k : nat) (i : Z) (array : list Z) (heap : heap_s)
  : outcome heap_s :=
  match k with
  | O => Ok heap
  | S k' =>
      let* x := read array i in
      let* h := heap_add x heap in
      fill k' (i + 1) array h
  end.

(** Second loop: [for (i = n - 1; i >= 0; i--) { array[i] =
    heap_peek(heap); heap_remove(heap); }], with [k] iterations left: the
    next index is [k - 1]. *)
Fixpoint drain (k : nat) (array : list Z) (heap : heap_s)
  : outcome (list Z) :=
  match k with
  | O => Ok array
  | S k' =>
      let* x := heap_peek heap in
      let* a := write array (Z.of_nat k') x in
      let* h := heap_remove heap in
      drain k' a h
  end.

(** [my_heapsort(array, n)]; [contents] is what [malloc] left in the array
    of the heap.  The result is the caller's array after the call. *)
Definition my_heapsort (contents : list Z) (array : list Z) (n : Z)
  : outcome (list Z) :=
  let* heap := fill (Z.to_nat n) 0 array (heap_create_with contents) in
  drain (Z.to_nat n) array heap.

End Heapsort.

(** ** priority_queue.c

    The queue calls [add_node], [remove_node], [min_value_node],
    [binary_tree_nodes] and [dump_tree] through bst.h; it is written over
    the tree it is linked with.  [None] is a failed assertion. *)

Module Queue.

Section Linked.
Context {T : Type}.
Variable add_node : Z -> binary_tree_s T -> binary_tree_s T.
Variable remove_node : Z -> binary_tree_s T -> option (binary_tree_s T).

(** [struct queue] *)
Record queue_s : Type := { inner_bst : binary_tree_s T }.

Definition queue_create : queue_s := {| inner_bst := Leaf |}.

Definition queue_enqueue (value : Z) (queue : queue_s) : queue_s :=
  {| inner_bst := add_node value (inner_bst queue) |}.

Definition queue_empty (queue : queue_s) : bool :=
  binary_tree_nodes (inner_bst queue) =? 0.

Definition queue_peek (queue : queue_s) : option Z :=
  if negb (queue_empty queue) then min_value_node (inner_bst queue)
  else None.

Definition queue_dequeue (queue : queue_s) : option queue_s :=
  if negb (queue_empty queue) then
    do head <- queue_peek queue;
    do tree <- remove_node head (inner_bst queue);
    Some {| inner_bst := tree |}
  else None.

(** [queue_print]: the values written, from the head to the last one. *)
Definition queue_print (queue : queue_s) : list Z :=
  dump_tree (inner_bst queue) true.

End Linked.

Arguments queue_s : clear implicits.

End Queue.

(** ** The argument test of the command-line drivers

    A C string is the list of its characters before the terminating NUL. *)

Module Cli.

Definition is_digit (c : ascii) : bool :=
  (N_of_ascii "0" <=? N_of_ascii c)%N && (N_of_ascii c <=? N_of_ascii "9")%N.

Definition is_blank (c : ascii) : bool :=
  Ascii.eqb c " " || Ascii.eqb c "009" || Ascii.eqb c "010".

(** The loop that advances [s] over digits. *)
Fixpoint skip_digits (s : list ascii) : list ascii :=
  match s with
  | c :: s' => if is_digit c then skip_digits s' else s
  | [] => s
  end.

(** The loop that advances [s] over spaces, tabs and newlines. *)
Fixpoint skip_blanks (s : list ascii) : list ascii :=
  match s with
  | c :: s' => if is_blank c then skip_blanks s' else s
  | [] => s
  end.

(** The step over one leading minus sign. *)
Definition skip_minus (s : list ascii) : list ascii :=
  match s with
  | c :: s' => if Ascii.eqb c "-" then s' else s
  | [] => s
  end.

(** [is_number] of main_bst.c *)
Definition is_number_bst (s : list ascii) : bool :=
  let s := skip_minus s in
  let s := skip_digits s in
  match s with [] => true | _ :: _ => false end.

(** [is_number] of main_heap.c and main_priority_queue.c *)
Definition is_number_heap (s : list ascii) : bool :=
  let s := skip_minus s in
  match s with
  | [] => false
  | _ :: _ =>
      let s := skip_digits s in
      let s := skip_blanks s in
      match s with [] => true | _ :: _ => false end
  end.

(** Strings made of digits only, of blanks only. *)
Definition digits (s : list ascii) : Prop :=
  Forall (fun c => is_digit c = true) s.
Definition blanks (s : list ascii) : Prop :=
  Forall (fun c => is_blank c = true) s.

End Cli.

(** ** Trees and heaps of the scenarios *)

(** The tree obtained by inserting 10, 20, 30 in the empty AVL tree. *)
Definition avl_10_20_30 : AVL.tree :=
  Node 20 1 (Node 10 0 Leaf Leaf) (Node 30 0 Leaf Leaf).

(** The plain BST of scenario 1: 5, 3, 8, 1, 4 inserted in this order. *)
Definition simple_5_3_8_1_4 : SimpleBST.tree :=
  Node 5 tt (Node 3 tt (Node 1 tt Leaf Leaf) (Node 4 tt Leaf Leaf))
            (Node 8 tt Leaf Leaf).

(** The AVL tree 20 -> (10, 30) laid out in three cells. *)
Definition avl_10_20_30_store : gmap Mem.loc (Mem.cell Z) :=
  <[1%positive := {| Mem.c_value := 20; Mem.c_tag := 1;
                     Mem.c_left := Some 2%positive;
                     Mem.c_right := Some 3%positive |}]>
  (<[2%positive := {| Mem.c_value := 10; Mem.c_tag := 0;
                      Mem.c_left := None; Mem.c_right := None |}]>
  (<[3%positive := {| Mem.c_value := 30; Mem.c_tag := 0;
                      Mem.c_left := None; Mem.c_right := None |}]> ∅)).

(** The valid red-black tree 10 -> (5, 15 -> (-, 20 red)). *)
Definition rb_10_5_15_20 : RB.tree :=
  Node 10 RB.BLACK (Node 5 RB.BLACK Leaf Leaf)
    (Node 15 RB.BLACK Leaf (Node 20 RB.RED Leaf Leaf)).

(** The valid red-black tree 2 -> (1, 3), all black. *)
Definition rb_2_1_3 : RB.tree :=
  Node 2 RB.BLACK (Node 1 RB.BLACK Leaf Leaf) (Node 3 RB.BLACK Leaf Leaf).

(** A heap that holds [HEAP_MAX_SIZE] elements. *)
Definition full_heap : Heap.heap_s :=
  {| Heap.array := repeat 0 (Z.to_nat Heap.HEAP_MAX_SIZE);
     Heap.nb_elements := Heap.HEAP_MAX_SIZE |}.

(** The search-tree order of the two red-black trees above is stated with
    the trees; a heap holding the single element 5; the array 3, 1, 2; a
    queue holding 4 and 5. *)
Definition heap_with_5 : Heap.heap_s :=
  {| Heap.array := 5 :: repeat 0 999%nat; Heap.nb_elements := 1 |}.

Definition array_3_1_2 : list Z := [3; 1; 2].

Definition queue_4_5 : Queue.queue_s unit :=
  {| Queue.inner_bst := Node 4 tt Leaf (Node 5 tt Leaf Leaf) |}.

Definition avl_queue_4_5 : Queue.queue_s Z :=
  {| Queue.inner_bst := Node 4 1 Leaf (Node 5 0 Leaf Leaf) |}.

(** The cells of the AVL tree 20 -> (10, 30), as the union of the cells of
    its subtrees and of its root, and a cell that belongs to nothing. *)
Definition cell_20 : Mem.cell Z :=
  {| Mem.c_value := 20; Mem.c_tag := 1;
     Mem.c_left := Some 2%positive; Mem.c_right := Some 3%positive |}.
Definition cell_10 : Mem.cell Z :=
  {| Mem.c_value := 10; Mem.c_tag := 0;
     Mem.c_left := None; Mem.c_right := None |}.
Definition cell_30 : Mem.cell Z :=
  {| Mem.c_value := 30; Mem.c_tag := 0;
     Mem.c_left := None; Mem.c_right := None |}.

Definition owned_10_20_30 : gmap Mem.loc (Mem.cell Z) :=
  <[1%positive := cell_20]>
    (<[2%positive := cell_10]> (∅ ∪ ∅) ∪ <[3%positive := cell_30]> (∅ ∪ ∅)).

Definition other_cells : gmap Mem.loc (Mem.cell Z) :=
  {[ 7%positive := cell_10 ]}.

(** * Properties *)

(** ** Facts shared by the tree variants *)

Section CommonFacts.
Context {T : Type}.
Implicit Types t l r : binary_tree_s T.

Lemma bst_node v (c : T) l r :
  bst (Node v c l r) <->
  all_values (fun x => x < v) l /\ all_values (fun x => v < x) r /\
  bst l /\ bst r.
Proof. reflexivity. Qed.

Lemma occurs_node x v (c : T) l r :
  occurs x (Node v c l r) <-> x = v \/ occurs x l \/ occurs x r.
Proof. reflexivity. Qed.

Lemma dump_tree_node v (c : T) l r (ascending : bool) :
  dump_tree (Node v c l r) ascending =
  if ascending then dump_tree l ascending ++ v :: dump_tree r ascending
  else dump_tree r ascending ++ v :: dump_tree l ascending.
Proof.
  cbn [dump_tree]. destruct ascending, l, r; reflexivity.
Qed.

Lemma occurs_dump_tree x t (ascending : bool) :
  In x (dump_tree t ascending) <-> occurs x t.
Proof.
  induction t as [|v c l IHl r IHr]; [reflexivity|].
  rewrite dump_tree_node. cbn [occurs].
  destruct ascending; rewrite in_app_iff; cbn [In];
    rewrite IHl, IHr; intuition congruence.
Qed.

Lemma all_values_occurs (P : Z -> Prop) t :
  all_values P t <-> (forall x, occurs x t -> P x).
Proof.
  induction t as [|v c l IHl r IHr]; cbn [all_values occurs].
  - intuition.
  - rewrite IHl, IHr. split.
    + intros (Hv & Hl & Hr) x [->|[H|H]]; auto.
    + intros H. repeat split; intros; apply H; auto.
Qed.

Lemma all_values_impl (P Q : Z -> Prop) t :
  (forall x, P x -> Q x) -> all_values P t -> all_values Q t.
Proof. rewrite !all_values_occurs. auto. Qed.

(** On a search tree [find_node] decides membership. *)
Lemma find_node_occurs value t :
  bst t -> (find_node value t = true <-> occurs value t).
Proof.
  induction t as [|v c l IHl r IHr]; cbn [bst find_node occurs].
  - intuition discriminate.
  - intros (Hl & Hr & Bl & Br).
    rewrite all_values_occurs in Hl, Hr.
    destruct (Z.eqb_spec v value) as [->|Hne]; [intuition|].
    destruct (Z.ltb_spec v value) as [Hlt|Hge].
    + rewrite (IHr Br). split; [auto|].
      intros [?|[H|?]]; [congruence| |assumption].
      apply Hl in H. lia.
    + rewrite (IHl Bl). split; [auto|].
      intros [?|[?|H]]; [congruence|assumption|].
      apply Hr in H. lia.
Qed.

Lemma find_node_false_not_occurs value t :
  bst t -> (find_node value t = false <-> ~ occurs value t).
Proof.
  intros B. rewrite <- (find_node_occurs value t B).
  destruct (find_node value t); intuition congruence.
Qed.

(** [min_value_node] never fails on a non-NULL tree, and returns a stored
    value; on a search tree it is the smallest one. *)
Lemma min_value_node_some v (c : T) l r :
  exists m, min_value_node (Node v c l r) = Some m /\
            occurs m (Node v c l r).
Proof.
  revert v c r. induction l as [|lv lc ll IHll lr _]; intros v c r.
  - exists v. cbn. auto.
  - destruct (IHll lv lc lr) as (m & Hm & Ho).
    exists m. split; [exact Hm|]. cbn [occurs]. auto.
Qed.

Lemma min_value_node_least t m :
  bst t -> min_value_node t = Some m -> all_values (fun x => m <= x) t.
Proof.
  induction t as [|v c l IHl r _]; [discriminate|].
  cbn [bst]. intros (Hl & Hr & Bl & Br) Hm.
  destruct l as [|lv lc ll lr].
  - injection Hm as <-. cbn [all_values]. repeat split; [lia|].
    eapply all_values_impl; [|exact Hr]. cbn. lia.
  - change (min_value_node (Node lv lc ll lr) = Some m) in Hm.
    specialize (IHl Bl Hm).
    assert (Hmv : m < v).
    { destruct (min_value_node_some lv lc ll lr) as (m' & Hm' & Ho).
      rewrite Hm in Hm'. injection Hm' as <-.
      rewrite all_values_occurs in Hl. apply Hl, Ho. }
    cbn [all_values] in *. repeat split; try tauto; try lia.
    eapply all_values_impl; [|exact Hr]. cbn. lia.
Qed.

Lemma binary_tree_nodes_size t : binary_tree_nodes t = Z.of_nat (size t).
Proof. induction t; cbn [binary_tree_nodes size]; lia. Qed.

(** *** Traversals *)

Lemma dump_tree_descending t : dump_tree t false = rev (dump_tree t true).
Proof.
  induction t as [|v c l IHl r IHr]; [reflexivity|].
  rewrite !dump_tree_node, IHl, IHr, rev_app_distr. cbn [rev].
  rewrite <- app_assoc. reflexivity.
Qed.

Lemma dump_tree_length t (ascending : bool) :
  Z.of_nat (length (dump_tree t ascending)) = binary_tree_nodes t.
Proof.
  induction t as [|v c l IHl r IHr]; [reflexivity|].
  rewrite dump_tree_node. cbn [binary_tree_nodes].
  destruct ascending; rewrite length_app; cbn [length]; lia.
Qed.

Lemma strongly_sorted_app (R : Z -> Z -> Prop) xs ys :
  StronglySorted R xs -> StronglySorted R ys ->
  (forall a b, In a xs -> In b ys -> R a b) ->
  StronglySorted R (xs ++ ys).
Proof.
  induction xs as [|a xs IH]; intros S1 S2 H; [exact S2|].
  apply StronglySorted_inv in S1. destruct S1 as (S1 & F1).
  cbn [app]. constructor.
  - apply IH; [assumption|assumption|]. intros x y Hx Hy.
    apply H; [right; exact Hx|exact Hy].
  - apply Forall_forall. intros x Hx. apply in_app_or in Hx.
    destruct Hx as [Hx|Hx].
    + rewrite Forall_forall in F1. apply F1, Hx.
    + apply H; [left; reflexivity|exact Hx].
Qed.

Lemma dump_tree_ascending_sorted t :
  bst t -> StronglySorted Z.lt (dump_tree t true).
Proof.
  induction t as [|v c l IHl r IHr]; [constructor|].
  rewrite bst_node, !all_values_occurs, dump_tree_node.
  intros (Hl & Hr & Bl & Br).
  apply strongly_sorted_app; [auto| |].
  - constructor; [auto|]. apply Forall_forall. intros x Hx.
    apply Hr, (occurs_dump_tree x r true), Hx.
  - intros a b Ha [<-|Hb].
    + apply Hl, (occurs_dump_tree a l true), Ha.
    + apply (occurs_dump_tree a l true), Hl in Ha.
      apply (occurs_dump_tree b r true), Hr in Hb. lia.
Qed.

Lemma dump_tree_descending_sorted t :
  bst t -> StronglySorted Z.gt (dump_tree t false).
Proof.
  induction t as [|v c l IHl r IHr]; [constructor|].
  rewrite bst_node, !all_values_occurs, dump_tree_node.
  intros (Hl & Hr & Bl & Br).
  apply strongly_sorted_app; [auto| |].
  - constructor; [auto|]. apply Forall_forall. intros x Hx.
    apply (occurs_dump_tree x l false), Hl in Hx. lia.
  - intros a b Ha [<-|Hb].
    + apply (occurs_dump_tree a r false), Hr in Ha. lia.
    + apply (occurs_dump_tree a r false), Hr in Ha.
      apply (occurs_dump_tree b l false), Hl in Hb. lia.
Qed.

(** [min_value_node] returns the first value of the ascending traversal,
    and fails exactly on the empty tree. *)
Lemma min_value_node_head t :
  min_value_node t = head (dump_tree t true).
Proof.
  induction t as [|v c l IHl r _]; [reflexivity|].
  rewrite dump_tree_node. cbn [min_value_node].
  destruct l as [|lv lc ll lr]; [reflexivity|].
  rewrite IHl, dump_tree_node.
  destruct (dump_tree ll true); reflexivity.
Qed.

End CommonFacts.

(** ** Plain BST *)

Section SimpleFacts.
Import SimpleBST.
Implicit Types t l r : tree.

(** [add_node] and [find_node] follow the same path: when the search
    succeeds the insertion returns the tree it was given. *)
Lemma simple_add_node_found value t :
  find_node value t = true -> add_node value t = t.
Proof.
  induction t as [|tv u l IHl r IHr]; cbn [find_node add_node].
  - discriminate.
  - destruct (Z.eqb_spec tv value); [reflexivity|].
    destruct (Z.ltb_spec tv value) as [?|?],
      (Z.gtb_spec tv value) as [?|?];
      try lia; intros Hf; f_equal; auto.
Qed.

(** ... and when the search fails the deletion returns it too. *)
Lemma simple_remove_node_absent value t :
  find_node value t = false -> remove_node value t = Some t.
Proof.
  induction t as [|tv u l IHl r IHr]; cbn [find_node remove_node].
  - reflexivity.
  - destruct (Z.eqb_spec tv value); [discriminate|].
    destruct (Z.ltb_spec tv value) as [?|?],
      (Z.ltb_spec value tv) as [?|?],
      (Z.gtb_spec value tv) as [?|?]; try lia; intros Hf.
    + rewrite (IHr Hf). reflexivity.
    + rewrite (IHl Hf). reflexivity.
Qed.

Lemma simple_find_add_node value t :
  find_node value (add_node value t) = true.
Proof.
  induction t as [|tv u l IHl r IHr]; cbn [add_node].
  - cbn [find_node]. rewrite Z.eqb_refl. reflexivity.
  - destruct (Z.eqb_spec tv value) as [E|N].
    + cbn [find_node]. rewrite (proj2 (Z.eqb_eq _ _) E). reflexivity.
    + destruct (Z.gtb_spec tv value) as [?|?]; cbn [find_node];
        destruct (Z.eqb_spec tv value) as [?|?]; try lia;
        destruct (Z.ltb_spec tv value) as [?|?]; try lia; assumption.
Qed.

(** Deletion on a search tree: it does not abort, the result is a search
    tree, and it stores the other values, and only them. *)
Lemma simple_remove_node_spec t : forall value,
  bst t ->
  exists t', remove_node value t = Some t' /\ bst t' /\
             forall x, occurs x t' <-> (occurs x t /\ x <> value).
Proof.
  induction t as [|tv u l IHl r IHr]; intros value B.
  - exists Leaf. cbn. intuition.
  - cbn [bst] in B. destruct B as (Hl & Hr & Bl & Br).
    pose proof Hl as Hl'. pose proof Hr as Hr'.
    rewrite all_values_occurs in Hl', Hr'.
    cbn [remove_node].
    destruct (Z.ltb_spec value tv) as [Hlt|Hge].
    { destruct (IHl value Bl) as (l' & -> & Bl' & Ol').
      exists (Node tv u l' r). cbn [bind_opt bst occurs].
      split; [reflexivity|]. split.
      - repeat split; auto. rewrite all_values_occurs.
        intros x Hx. apply Ol' in Hx. apply Hl'. tauto.
      - intros x. rewrite Ol'. split.
        + intros [->|[[? ?]|H]]; [split; [auto|lia]|tauto|].
          split; [auto|]. apply Hr' in H. lia.
        + tauto. }
    destruct (Z.gtb_spec value tv) as [Hgt|Hle].
    { destruct (IHr value Br) as (r' & -> & Br' & Or').
      exists (Node tv u l r'). cbn [bind_opt bst occurs].
      split; [reflexivity|]. split.
      - repeat split; auto. rewrite all_values_occurs.
        intros x Hx. apply Or' in Hx. apply Hr'. tauto.
      - intros x. rewrite Or'. split.
        + intros [->|[H|[? ?]]]; [split; [auto|lia]| |tauto].
          split; [auto|]. apply Hl' in H. lia.
        + tauto. }
    assert (value = tv) as -> by lia. clear Hge Hle.
    destruct l as [|lv lu ll lr].
    { exists r. split; [reflexivity|]. split; [assumption|].
      intros x. cbn [occurs]. split.
      - intros H. split; [auto|]. apply Hr' in H. lia.
      - tauto. }
    destruct r as [|rv ru rl rr].
    { exists (Node lv lu ll lr). split; [reflexivity|].
      split; [assumption|].
      intros x. cbn [occurs] in *. split.
      - intros H. split; [tauto|]. apply Hl' in H. lia.
      - tauto. }
    destruct (min_value_node_some rv ru rl rr) as (m & Hm & Om).
    pose proof (min_value_node_least _ _ Br Hm) as Least.
    rewrite all_values_occurs in Least.
    destruct (IHr m Br) as (r' & Hr'' & Br' & Or').
    exists (Node m u (Node lv lu ll lr) r').
    rewrite Hm. cbn [bind_opt]. rewrite Hr''. cbn [bind_opt].
    split; [reflexivity|].
    pose proof (Hr' m Om) as Hm_gt.
    split.
    + rewrite bst_node. split; [|split; [|split; assumption]].
      * rewrite all_values_occurs. intros x Hx. apply Hl' in Hx. lia.
      * rewrite all_values_occurs. intros x Hx. apply Or' in Hx.
        destruct Hx as [Hx Hne]. apply Least in Hx. lia.
    + intros x. rewrite !(occurs_node x _ u), Or'. split.
      * intros [->|[H|[H ?]]].
        -- split; [auto|lia].
        -- split; [auto|]. apply Hl' in H. lia.
        -- split; [auto|]. apply Hr' in H. lia.
      * intros [[?|[H|H]] Hne]; [contradiction|auto|].
        destruct (Z.eq_dec x m); auto.
Qed.

(** Insertion on a search tree adds the key and nothing else. *)
Lemma simple_add_node_spec t : forall value,
  bst t ->
  bst (add_node value t) /\
  forall x, occurs x (add_node value t) <-> (x = value \/ occurs x t).
Proof.
  induction t as [|tv u l IHl r IHr]; intros value B; cbn [add_node].
  - split; [rewrite bst_node; cbn; tauto|].
    intros x. rewrite occurs_node. cbn. tauto.
  - pose proof B as B'. rewrite bst_node, !all_values_occurs in B'.
    destruct B' as (Hl & Hr & Bl & Br).
    destruct (Z.eqb_spec tv value) as [->|Hne].
    { split; [exact B|]. intros x. rewrite occurs_node. tauto. }
    destruct (Z.gtb_spec tv value) as [Hgt|Hle].
    + destruct (IHl value Bl) as (Bl' & Ol'). split.
      * rewrite bst_node, !all_values_occurs. repeat split; auto.
        intros x Hx. apply Ol' in Hx. destruct Hx as [->|Hx]; [lia|auto].
      * intros x. rewrite !occurs_node, Ol'. tauto.
    + destruct (IHr value Br) as (Br' & Or'). split.
      * rewrite bst_node, !all_values_occurs. repeat split; auto.
        intros x Hx. apply Or' in Hx. destruct Hx as [->|Hx]; [lia|auto].
      * intros x. rewrite !occurs_node, Or'. tauto.
Qed.

Lemma simple_add_node_size value t :
  find_node value t = false -> size (add_node value t) = S (size t).
Proof.
  induction t as [|tv u l IHl r IHr]; cbn [find_node add_node].
  - reflexivity.
  - destruct (Z.eqb_spec tv value) as [?|?]; [discriminate|].
    destruct (Z.ltb_spec tv value) as [?|?],
      (Z.gtb_spec tv value) as [?|?]; try lia; intros Hf; cbn [size].
    + rewrite (IHr Hf). lia.
    + rewrite (IHl Hf). lia.
Qed.

Lemma simple_remove_node_size t : forall value t',
  bst t -> occurs value t -> remove_node value t = Some t' ->
  size t = S (size t').
Proof.
  induction t as [|tv u l IHl r IHr]; intros value t' B O E; [destruct O|].
  pose proof B as B'. rewrite bst_node, !all_values_occurs in B'.
  destruct B' as (Hl & Hr & Bl & Br).
  cbn [remove_node] in E. rewrite occurs_node in O.
  destruct (Z.ltb_spec value tv) as [Hlt|Hge].
  { destruct (remove_node value l) as [l'|] eqn:El; [|discriminate].
    injection E as <-. cbn [size].
    assert (Ol : occurs value l)
      by (destruct O as [?|[?|Hx]]; [lia|assumption|apply Hr in Hx; lia]).
    rewrite (IHl value l' Bl Ol El). reflexivity. }
  destruct (Z.gtb_spec value tv) as [Hgt|Hle].
  { destruct (remove_node value r) as [r'|] eqn:Er; [|discriminate].
    injection E as <-. cbn [size].
    assert (Or : occurs value r)
      by (destruct O as [?|[Hx|?]]; [lia|apply Hl in Hx; lia|assumption]).
    rewrite (IHr value r' Br Or Er). lia. }
  destruct l as [|lv lu ll lr]; [injection E as <-; reflexivity|].
  destruct r as [|rv ru rl rr]; [injection E as <-; cbn [size]; lia|].
  destruct (min_value_node_some rv ru rl rr) as (m & Hm & Om).
  rewrite Hm in E. cbn [bind_opt] in E.
  destruct (remove_node m (Node rv ru rl rr)) as [r'|] eqn:Er;
    [|discriminate].
  injection E as <-.
  pose proof (IHr m r' Br Om Er) as Hs.
  change (size (Node tv u (Node lv lu ll lr) (Node rv ru rl rr)))
    with (S (size (Node lv lu ll lr) + size (Node rv ru rl rr))).
  change (size (Node m u (Node lv lu ll lr) r'))
    with (S (size (Node lv lu ll lr) + size r')).
  lia.
Qed.

(** *** The height computed by the plain BST *)

Lemma simple_height_node v u l r :
  binary_tree_height (Node v u l r) =
  Z.max (binary_tree_height l) (binary_tree_height r) + 1.
Proof.
  cbn [binary_tree_height].
  destruct (Z.gtb_spec (binary_tree_height l) (binary_tree_height r)); lia.
Qed.

Lemma simple_height_bounds t :
  -1 <= binary_tree_height t /\
  binary_tree_height t + 1 <= binary_tree_nodes t /\
  binary_tree_nodes t + 1 <= 2 ^ (binary_tree_height t + 1).
Proof.
  induction t as [|v u l (Ll & Ml & Ul) r (Lr & Mr & Ur)].
  - cbn. lia.
  - rewrite simple_height_node. cbn [binary_tree_nodes].
    pose proof (binary_tree_nodes_size l). pose proof (binary_tree_nodes_size r).
    split; [lia|]. split; [lia|].
    set (hl := binary_tree_height l) in *.
    set (hr := binary_tree_height r) in *.
    assert (P1 : 2 ^ (hl + 1) <= 2 ^ (Z.max hl hr + 1))
      by (apply Z.pow_le_mono_r; lia).
    assert (P2 : 2 ^ (hr + 1) <= 2 ^ (Z.max hl hr + 1))
      by (apply Z.pow_le_mono_r; lia).
    replace (Z.max hl hr + 1 + 1) with (Z.succ (Z.max hl hr + 1)) by lia.
    rewrite Z.pow_succ_r by lia. lia.
Qed.

Lemma simple_add_node_height value t :
  binary_tree_height t <= binary_tree_height (add_node value t)
    <= binary_tree_height t + 1.
Proof.
  induction t as [|tv u l IHl r IHr]; cbn [add_node].
  - cbn. lia.
  - destruct (tv =? value); [lia|].
    destruct (tv >? value); rewrite !simple_height_node; lia.
Qed.

End SimpleFacts.

(** ** AVL tree *)

Section AVLFacts.
Import AVL.
Implicit Types t l r : tree.

Lemma max_spec a b : max a b = Z.max a b.
Proof. unfold max. destruct (Z.gtb_spec a b); lia. Qed.

Lemma real_height_lower t : -1 <= real_height t.
Proof. induction t; cbn [real_height]; lia. Qed.

(** On a valid tree the stored height is the real one. *)
Lemma height_real t : avl t -> binary_tree_height t = real_height t.
Proof. destruct t; cbn [avl binary_tree_height]; [reflexivity|tauto]. Qed.

Lemma avl_node v h l r :
  avl (Node v h l r) <->
  avl l /\ avl r /\ Z.abs (real_height l - real_height r) <= 1 /\
  h = 1 + Z.max (real_height l) (real_height r).
Proof. reflexivity. Qed.

Lemma real_height_node v h l r :
  real_height (Node v h l r) = 1 + Z.max (real_height l) (real_height r).
Proof. reflexivity. Qed.

Ltac heights :=
  repeat match goal with
    | H : avl (Node _ _ _ _) |- _ =>
        rewrite avl_node in H; destruct H as (? & ? & ? & ?)
    end;
  subst;
  rewrite ?max_spec, ?real_height_node in *;
  repeat match goal with
    | H : avl ?t |- context [binary_tree_height ?t] =>
        rewrite (height_real t H)
    end;
  rewrite ?max_spec, ?real_height_node in *.

Ltac avl_goal :=
  repeat (rewrite avl_node || rewrite real_height_node || rewrite max_spec);
  repeat match goal with
    | |- _ /\ _ => split
    end;
  try assumption; try lia.

Lemma add_rebalance_avl value tv th l r :
  avl l -> avl r ->
  -2 <= real_height l - real_height r <= 2 ->
  (real_height l - real_height r = 2 -> leans value l) ->
  (real_height r - real_height l = 2 -> leans value r) ->
  avl (add_rebalance value (Node tv th l r)) /\
  (Z.abs (real_height l - real_height r) <= 1 ->
   add_rebalance value (Node tv th l r) =
   Node tv (1 + Z.max (real_height l) (real_height r)) l r) /\
  (Z.abs (real_height l - real_height r) = 2 ->
   real_height (add_rebalance value (Node tv th l r)) =
   Z.max (real_height l) (real_height r)).
Proof.
  intros Al Ar Hd Ll Lr. unfold add_rebalance.
  rewrite (height_real l Al), (height_real r Ar).
  pose proof (real_height_lower l). pose proof (real_height_lower r).
  replace (if real_height l <? real_height r
           then real_height r else real_height l)
    with (Z.max (real_height l) (real_height r))
    by (destruct (Z.ltb_spec (real_height l) (real_height r)); lia).
  destruct (Z.gtb_spec (real_height l - real_height r) 1) as [Hl|Hl].
  { (* left-heavy *)
    specialize (Ll ltac:(lia)). clear Lr.
    destruct l as [|lv lh ll lr]; [contradiction|].
    cbn [leans] in Ll.
    destruct (Z.gtb_spec value lv) as [Hv|Hv].
    - (* left-right: double rotation *)
      destruct Ll as [[? ?]|[_ Hlean]]; [lia|].
      pose proof (real_height_lower ll).
      destruct lr as [|xv xh xl xr];
        [cbn [real_height] in Hlean; lia|].
      cbn [bst_rotate_left bst_rotate_right binary_tree_height].
      heights.
      pose proof (real_height_lower xl). pose proof (real_height_lower xr).
      split; [avl_goal|]. split; [lia|]. intros _. avl_goal.
    - (* left-left: single rotation *)
      destruct Ll as [[_ Hlean]|[? ?]]; [|lia].
      cbn [bst_rotate_right binary_tree_height].
      heights.
      split; [avl_goal|]. split; [lia|]. intros _. avl_goal. }
  destruct (Z.gtb_spec (real_height r - real_height l) 1) as [Hr|Hr].
  { (* right-heavy *)
    specialize (Lr ltac:(lia)). clear Ll.
    destruct r as [|rv rh rl rr]; [contradiction|].
    cbn [leans] in Lr.
    destruct (Z.ltb_spec value rv) as [Hv|Hv].
    - (* right-left: double rotation *)
      destruct Lr as [[_ Hlean]|[? ?]]; [|lia].
      pose proof (real_height_lower rr).
      destruct rl as [|xv xh xl xr];
        [cbn [real_height] in Hlean; lia|].
      cbn [bst_rotate_left bst_rotate_right binary_tree_height].
      heights.
      pose proof (real_height_lower xl). pose proof (real_height_lower xr).
      split; [avl_goal|]. split; [lia|]. intros _. avl_goal.
    - (* right-right: single rotation *)
      destruct Lr as [[? ?]|[_ Hlean]]; [lia|].
      cbn [bst_rotate_left binary_tree_height].
      heights.
      split; [avl_goal|]. split; [lia|]. intros _. avl_goal. }
  split; [avl_goal|]. split; [reflexivity|lia].
Qed.

(** What one insertion does to a valid tree: the result is valid, and
    either the height is unchanged or it grew by one, in which case the
    result is a single node or leans towards the inserted value. *)
Lemma add_node_avl t : forall value,
  avl t ->
  avl (add_node value t) /\
  (real_height (add_node value t) = real_height t \/
   (real_height (add_node value t) = real_height t + 1 /\
    (real_height (add_node value t) = 0 \/ leans value (add_node value t)))).
Proof.
  induction t as [|tv th l IHl r IHr]; intros value A.
  - assert (E : add_node value Leaf = Node value 0 Leaf Leaf)
      by reflexivity.
    rewrite E, avl_node, real_height_node. cbn [real_height avl].
    split; [repeat split; lia|]. right. split; [lia|]. left. lia.
  - pose proof A as A'. rewrite avl_node in A'.
    destruct A' as (Al & Ar & Hbal & Hh).
    pose proof (real_height_lower l). pose proof (real_height_lower r).
    cbn [add_node].
    destruct (Z.ltb_spec value tv) as [Hlt|Hge].
    { destruct (IHl value Al) as (Al' & Hgrow).
      set (l' := add_node value l) in *.
      assert (Hd : -2 <= real_height l' - real_height r <= 2) by lia.
      assert (Hlean : real_height l' - real_height r = 2 -> leans value l').
      { intros E. destruct Hgrow as [?|(? & [?|?])]; [lia|lia|assumption]. }
      destruct (add_rebalance_avl value tv th l' r Al' Ar Hd Hlean
                  ltac:(lia)) as (Av & Hsame & Hrot).
      split; [exact Av|].
      destruct (Z.le_gt_cases (Z.abs (real_height l' - real_height r)) 1)
        as [Hin|Hout].
      - rewrite (Hsame Hin), !real_height_node.
        destruct Hgrow as [E|(E & _)]; [left; lia|].
        destruct (Z.le_gt_cases (real_height l') (real_height r));
          [left; lia|].
        right. split; [lia|]. right. cbn [leans]. left. lia.
      - rewrite (Hrot ltac:(lia)), real_height_node. left. lia. }
    destruct (Z.gtb_spec value tv) as [Hgt|Hle].
    { destruct (IHr value Ar) as (Ar' & Hgrow).
      set (r' := add_node value r) in *.
      assert (Hd : -2 <= real_height l - real_height r' <= 2) by lia.
      assert (Hlean : real_height r' - real_height l = 2 -> leans value r').
      { intros E. destruct Hgrow as [?|(? & [?|?])]; [lia|lia|assumption]. }
      destruct (add_rebalance_avl value tv th l r' Al Ar' Hd
                  ltac:(lia) Hlean) as (Av & Hsame & Hrot).
      split; [exact Av|].
      destruct (Z.le_gt_cases (Z.abs (real_height l - real_height r')) 1)
        as [Hin|Hout].
      - rewrite (Hsame Hin), !real_height_node.
        destruct Hgrow as [E|(E & _)]; [left; lia|].
        destruct (Z.le_gt_cases (real_height r') (real_height l));
          [left; lia|].
        right. split; [lia|]. right. cbn [leans]. right. lia.
      - rewrite (Hrot ltac:(lia)), real_height_node. left. lia. }
    destruct (add_rebalance_avl value tv th l r Al Ar ltac:(lia)
                ltac:(lia) ltac:(lia)) as (Av & Hsame & _).
    split; [exact Av|]. left. rewrite (Hsame Hbal). reflexivity.
Qed.

(** Step 2 of [remove_node] on a node whose subtrees are valid and differ
    in height by at most two. *)
Lemma remove_rebalance_avl tv th l r :
  avl l -> avl r ->
  -2 <= real_height l - real_height r <= 2 ->
  avl (remove_rebalance (Node tv th l r)) /\
  Z.max (real_height l) (real_height r)
    <= real_height (remove_rebalance (Node tv th l r))
    <= 1 + Z.max (real_height l) (real_height r) /\
  (Z.abs (real_height l - real_height r) <= 1 ->
   real_height (remove_rebalance (Node tv th l r)) =
   1 + Z.max (real_height l) (real_height r)).
Proof.
  intros Al Ar Hd. unfold remove_rebalance.
  rewrite (height_real l Al), (height_real r Ar), max_spec.
  pose proof (real_height_lower l). pose proof (real_height_lower r).
  destruct (Z.gtb_spec (real_height l - real_height r) 1) as [Hl|Hl].
  { destruct l as [|lv lh ll lr]; [cbn [real_height] in Hl; lia|].
    pose proof Al as Al'. rewrite avl_node in Al'.
    destruct Al' as (All & Alr & _ & _).
    rewrite (height_real ll All), (height_real lr Alr).
    pose proof (real_height_lower ll).
    destruct (Z.geb_spec (real_height ll) (real_height lr)) as [Hc|Hc].
    - cbn [bst_rotate_right binary_tree_height]. heights.
      split; [avl_goal|]. split; [avl_goal|lia].
    - destruct lr as [|xv xh xl xr]; [cbn [real_height] in Hc; lia|].
      cbn [bst_rotate_left bst_rotate_right binary_tree_height]. heights.
      pose proof (real_height_lower xl). pose proof (real_height_lower xr).
      split; [avl_goal|]. split; [avl_goal|lia]. }
  destruct (Z.gtb_spec (real_height r - real_height l) 1) as [Hr|Hr].
  { destruct r as [|rv rh rl rr]; [cbn [real_height] in Hr; lia|].
    pose proof Ar as Ar'. rewrite avl_node in Ar'.
    destruct Ar' as (Arl & Arr & _ & _).
    rewrite (height_real rl Arl), (height_real rr Arr).
    pose proof (real_height_lower rr).
    destruct (Z.geb_spec (real_height rr) (real_height rl)) as [Hc|Hc].
    - cbn [bst_rotate_left binary_tree_height]. heights.
      split; [avl_goal|]. split; [avl_goal|lia].
    - destruct rl as [|xv xh xl xr]; [cbn [real_height] in Hc; lia|].
      cbn [bst_rotate_left bst_rotate_right binary_tree_height]. heights.
      pose proof (real_height_lower xl). pose proof (real_height_lower xr).
      split; [avl_goal|]. split; [avl_goal|lia]. }
  split; [avl_goal|]. split; [avl_goal|]. intros _. avl_goal.
Qed.

(** Step 2 leaves a valid tree as it is (the splice cases). *)
Lemma remove_rebalance_valid t : avl t -> remove_rebalance t = t.
Proof.
  destruct t as [|tv th l r]; [reflexivity|].
  intros A. pose proof A as A'. rewrite avl_node in A'.
  destruct A' as (Al & Ar & Hbal & Hh).
  unfold remove_rebalance.
  rewrite (height_real l Al), (height_real r Ar), max_spec.
  destruct (Z.gtb_spec (real_height l - real_height r) 1); [lia|].
  destruct (Z.gtb_spec (real_height r - real_height l) 1); [lia|].
  congruence.
Qed.

(** One deletion on a valid tree: it does not abort, the result is valid
    and the height decreases by at most one. *)
Lemma remove_node_avl t : forall value,
  avl t ->
  exists t', remove_node value t = Some t' /\ avl t' /\
             real_height t - 1 <= real_height t' <= real_height t.
Proof.
  induction t as [|tv th l IHl r IHr]; intros value A.
  - exists Leaf. cbn. repeat split; lia.
  - pose proof A as A'. rewrite avl_node in A'.
    destruct A' as (Al & Ar & Hbal & Hh).
    pose proof (real_height_lower l). pose proof (real_height_lower r).
    cbn [remove_node]. rewrite real_height_node.
    destruct (Z.ltb_spec value tv) as [Hlt|Hge].
    { destruct (IHl value Al) as (l' & -> & Al' & Hl').
      cbn [bind_opt]. eexists. split; [reflexivity|].
      destruct (remove_rebalance_avl tv th l' r Al' Ar ltac:(lia))
        as (Av & Hrange & Hin).
      split; [exact Av|].
      destruct (Z.le_gt_cases (Z.abs (real_height l' - real_height r)) 1);
        [rewrite Hin by assumption|]; lia. }
    destruct (Z.gtb_spec value tv) as [Hgt|Hle].
    { destruct (IHr value Ar) as (r' & -> & Ar' & Hr').
      cbn [bind_opt]. eexists. split; [reflexivity|].
      destruct (remove_rebalance_avl tv th l r' Al Ar' ltac:(lia))
        as (Av & Hrange & Hin).
      split; [exact Av|].
      destruct (Z.le_gt_cases (Z.abs (real_height l - real_height r')) 1);
        [rewrite Hin by assumption|]; lia. }
    destruct l as [|lv lh ll lr].
    { exists r. rewrite (remove_rebalance_valid r Ar).
      split; [reflexivity|]. split; [assumption|].
      change (real_height (@Leaf Z)) with (-1) in *. lia. }
    destruct r as [|rv rh rl rr].
    { exists (Node lv lh ll lr).
      rewrite (remove_rebalance_valid _ Al).
      split; [reflexivity|]. split; [assumption|].
      change (real_height (@Leaf Z)) with (-1) in *. lia. }
    destruct (min_value_node_some rv rh rl rr) as (m & Hm & _).
    rewrite Hm. cbn [bind_opt].
    destruct (IHr m Ar) as (r' & -> & Ar' & Hr').
    cbn [bind_opt]. eexists. split; [reflexivity|].
    destruct (remove_rebalance_avl m th _ r' Al Ar' ltac:(lia))
      as (Av & Hrange & Hin).
    split; [exact Av|].
    destruct (Z.le_gt_cases
                (Z.abs (real_height (Node lv lh ll lr) - real_height r')) 1);
      [rewrite Hin by assumption|]; lia.
Qed.

(** *** Rotations and rebalancing keep the keys and their order *)

Ltac occ_saturate :=
  repeat match goal with
    | F : forall y, occurs y ?t -> _, H : occurs ?x ?t |- _ =>
        let P := type of (F x H) in
        lazymatch goal with
        | _ : P |- _ => fail
        | _ => pose proof (F x H)
        end
    end; cbv beta in *.

Ltac bst_open :=
  repeat match goal with
    | H : bst (Node _ _ _ _) |- _ =>
        rewrite bst_node in H; destruct H as (? & ? & ? & ?)
    | H : all_values _ _ |- _ => rewrite all_values_occurs in H
    end;
  repeat match goal with
    | H : context [occurs _ (Node _ _ _ _)] |- _ =>
        setoid_rewrite occurs_node in H
    end.

Ltac bst_close :=
  repeat (rewrite bst_node || rewrite all_values_occurs
          || setoid_rewrite occurs_node);
  repeat match goal with
    | |- _ /\ _ => split
    end;
  try assumption;
  try (intros ? ?;
       repeat match goal with
         | H : _ \/ _ |- _ => destruct H
         end; subst; occ_saturate;
       first [lia | match goal with
                    | F : forall y, _ -> _ |- _ => apply F; auto; fail
                    end]).

Lemma bst_rotate_left_occurs x t :
  occurs x (bst_rotate_left t) <-> occurs x t.
Proof.
  destruct t as [|v h tl [|rv rh rl rr]]; cbn [bst_rotate_left];
    try reflexivity.
  rewrite !occurs_node. tauto.
Qed.

Lemma bst_rotate_right_occurs x t :
  occurs x (bst_rotate_right t) <-> occurs x t.
Proof.
  destruct t as [|v h [|lv lh ll lr] tr]; cbn [bst_rotate_right];
    try reflexivity.
  rewrite !occurs_node. tauto.
Qed.

Lemma bst_rotate_left_bst t : bst t -> bst (bst_rotate_left t).
Proof.
  destruct t as [|v h tl [|rv rh rl rr]]; cbn [bst_rotate_left]; auto.
  intros B. bst_open.
  assert (Hv : v < rv) by (match goal with
                           | F : forall y, _ -> v < y |- _ => apply F; auto
                           end).
  bst_close.
Qed.

Lemma bst_rotate_right_bst t : bst t -> bst (bst_rotate_right t).
Proof.
  destruct t as [|v h [|lv lh ll lr] tr]; cbn [bst_rotate_right]; auto.
  intros B. bst_open.
  assert (Hv : lv < v) by (match goal with
                           | F : forall y, _ -> y < v |- _ => apply F; auto
                           end).
  bst_close.
Qed.

(** Replacing the children by trees with the same keys, and any change
    of the height field, keeps a search tree. *)
Lemma bst_replace v h h' l l2 r r2 :
  (forall x, occurs x l2 <-> occurs x l) ->
  (forall x, occurs x r2 <-> occurs x r) ->
  bst l2 -> bst r2 ->
  bst (Node v h l r) -> bst (Node v h' l2 r2).
Proof.
  intros Ol Or Bl Br. rewrite !bst_node, !all_values_occurs.
  intros (Hl & Hr & _ & _). repeat split; try assumption.
  - intros x Hx. apply Hl, Ol, Hx.
  - intros x Hx. apply Hr, Or, Hx.
Qed.

Lemma occurs_replace x v h h' l l2 r r2 :
  (forall y, occurs y l2 <-> occurs y l) ->
  (forall y, occurs y r2 <-> occurs y r) ->
  occurs x (Node v h' l2 r2) <-> occurs x (Node v h l r).
Proof. intros Ol Or. rewrite !occurs_node, Ol, Or. reflexivity. Qed.

Lemma add_rebalance_occurs value t x :
  occurs x (add_rebalance value t) <-> occurs x t.
Proof.
  destruct t as [|tv th l r]; [reflexivity|]. unfold add_rebalance.
  repeat match goal with
    | |- context [if ?c then _ else _] => destruct c
    | |- context [match ?t with Leaf => _ | Node _ _ _ _ => _ end] =>
        is_var t; destruct t
    end;
    rewrite ?bst_rotate_right_occurs, ?bst_rotate_left_occurs;
    try reflexivity;
    apply occurs_replace; intros;
    rewrite ?bst_rotate_right_occurs, ?bst_rotate_left_occurs;
    reflexivity.
Qed.

Lemma add_rebalance_bst value t : bst t -> bst (add_rebalance value t).
Proof.
  destruct t as [|tv th l r]; [auto|]. intros B.
  assert (Bl : bst l) by (rewrite bst_node in B; tauto).
  assert (Br : bst r) by (rewrite bst_node in B; tauto).
  unfold add_rebalance.
  repeat match goal with
    | |- context [if ?c then _ else _] => destruct c
    | |- bst (bst_rotate_right _) => apply bst_rotate_right_bst
    | |- bst (bst_rotate_left _) => apply bst_rotate_left_bst
    | |- context [match ?t with Leaf => _ | Node _ _ _ _ => _ end] =>
        is_var t; destruct t
    end;
    (eapply bst_replace; [| | | |exact B]);
    intros; rewrite ?bst_rotate_right_occurs, ?bst_rotate_left_occurs;
    try reflexivity;
    auto using bst_rotate_right_bst, bst_rotate_left_bst.
Qed.

Lemma remove_rebalance_occurs t x :
  occurs x (remove_rebalance t) <-> occurs x t.
Proof.
  destruct t as [|tv th l r]; [reflexivity|]. unfold remove_rebalance.
  repeat match goal with
    | |- context [if ?c then _ else _] => destruct c
    | |- context [match ?t with Leaf => _ | Node _ _ _ _ => _ end] =>
        is_var t; destruct t
    end;
    rewrite ?bst_rotate_right_occurs, ?bst_rotate_left_occurs;
    try reflexivity;
    apply occurs_replace; intros;
    rewrite ?bst_rotate_right_occurs, ?bst_rotate_left_occurs;
    reflexivity.
Qed.

Lemma remove_rebalance_bst t : bst t -> bst (remove_rebalance t).
Proof.
  destruct t as [|tv th l r]; [auto|]. intros B.
  assert (Bl : bst l) by (rewrite bst_node in B; tauto).
  assert (Br : bst r) by (rewrite bst_node in B; tauto).
  unfold remove_rebalance.
  repeat match goal with
    | |- context [if ?c then _ else _] => destruct c
    | |- bst (bst_rotate_right _) => apply bst_rotate_right_bst
    | |- bst (bst_rotate_left _) => apply bst_rotate_left_bst
    | |- context [match ?t with Leaf => _ | Node _ _ _ _ => _ end] =>
        is_var t; destruct t
    end;
    (eapply bst_replace; [| | | |exact B]);
    intros; rewrite ?bst_rotate_right_occurs, ?bst_rotate_left_occurs;
    try reflexivity;
    auto using bst_rotate_right_bst, bst_rotate_left_bst.
Qed.

(** Insertion on a search tree adds the key and nothing else. *)
Lemma avl_add_node_spec t : forall value,
  bst t ->
  bst (add_node value t) /\
  forall x, occurs x (add_node value t) <-> (x = value \/ occurs x t).
Proof.
  induction t as [|tv th l IHl r IHr]; intros value B; cbn [add_node].
  - split.
    + apply add_rebalance_bst. rewrite bst_node. cbn. tauto.
    + intros x. rewrite add_rebalance_occurs, occurs_node. cbn. tauto.
  - pose proof B as B'. rewrite bst_node, !all_values_occurs in B'.
    destruct B' as (Hl & Hr & Bl & Br).
    destruct (Z.ltb_spec value tv) as [Hlt|Hge].
    { destruct (IHl value Bl) as (Bl' & Ol'). split.
      - apply add_rebalance_bst.
        rewrite bst_node, !all_values_occurs. repeat split; auto.
        intros x Hx. apply Ol' in Hx. destruct Hx as [->|Hx]; auto.
      - intros x.
        rewrite add_rebalance_occurs, !occurs_node, Ol'. tauto. }
    destruct (Z.gtb_spec value tv) as [Hgt|Hle].
    { destruct (IHr value Br) as (Br' & Or'). split.
      - apply add_rebalance_bst.
        rewrite bst_node, !all_values_occurs. repeat split; auto.
        intros x Hx. apply Or' in Hx. destruct Hx as [->|Hx]; auto.
      - intros x.
        rewrite add_rebalance_occurs, !occurs_node, Or'. tauto. }
    assert (value = tv) as -> by lia. split.
    + apply add_rebalance_bst, B.
    + intros x. rewrite add_rebalance_occurs, occurs_node. tauto.
Qed.

(** Deletion on a search tree: it does not abort, the result is a search
    tree, and it stores the other keys, and only them. *)
Lemma avl_remove_node_spec t : forall value,
  bst t ->
  exists t', remove_node value t = Some t' /\ bst t' /\
             forall x, occurs x t' <-> (occurs x t /\ x <> value).
Proof.
  induction t as [|tv th l IHl r IHr]; intros value B.
  - exists Leaf. cbn. intuition.
  - pose proof B as B'. rewrite bst_node in B'.
    destruct B' as (Hl & Hr & Bl & Br).
    pose proof Hl as Hl'. pose proof Hr as Hr'.
    rewrite all_values_occurs in Hl', Hr'.
    cbn [remove_node].
    destruct (Z.ltb_spec value tv) as [Hlt|Hge].
    { destruct (IHl value Bl) as (l' & -> & Bl' & Ol').
      cbn [bind_opt]. eexists. split; [reflexivity|]. split.
      - apply remove_rebalance_bst.
        rewrite bst_node, !all_values_occurs. repeat split; auto.
        intros x Hx. apply Ol' in Hx. apply Hl'. tauto.
      - intros x. rewrite remove_rebalance_occurs, !occurs_node, Ol'.
        split.
        + intros [->|[[? ?]|Hx]]; [split; [auto|lia]|tauto|].
          split; [auto|]. apply Hr' in Hx. lia.
        + tauto. }
    destruct (Z.gtb_spec value tv) as [Hgt|Hle].
    { destruct (IHr value Br) as (r' & -> & Br' & Or').
      cbn [bind_opt]. eexists. split; [reflexivity|]. split.
      - apply remove_rebalance_bst.
        rewrite bst_node, !all_values_occurs. repeat split; auto.
        intros x Hx. apply Or' in Hx. apply Hr'. tauto.
      - intros x. rewrite remove_rebalance_occurs, !occurs_node, Or'.
        split.
        + intros [->|[Hx|[? ?]]]; [split; [auto|lia]| |tauto].
          split; [auto|]. apply Hl' in Hx. lia.
        + tauto. }
    assert (value = tv) as -> by lia. clear Hge Hle.
    destruct l as [|lv lh ll lr].
    { eexists. split; [reflexivity|]. split.
      - apply remove_rebalance_bst, Br.
      - intros x. rewrite remove_rebalance_occurs, occurs_node.
        cbn [occurs]. split.
        + intros Hx. split; [auto|]. apply Hr' in Hx. lia.
        + tauto. }
    destruct r as [|rv rh rl rr].
    { eexists. split; [reflexivity|]. split.
      - apply remove_rebalance_bst, Bl.
      - intros x.
        rewrite remove_rebalance_occurs, (occurs_node x tv).
        cbn [occurs] in *. split.
        + intros Hx. split; [tauto|]. apply Hl' in Hx. lia.
        + tauto. }
    destruct (min_value_node_some rv rh rl rr) as (m & Hm & Om).
    pose proof (min_value_node_least _ _ Br Hm) as Least.
    rewrite all_values_occurs in Least.
    destruct (IHr m Br) as (r' & Hr'' & Br' & Or').
    rewrite Hm. cbn [bind_opt]. rewrite Hr''. cbn [bind_opt].
    eexists. split; [reflexivity|].
    pose proof (Hr' m Om) as Hm_gt.
    split.
    + apply remove_rebalance_bst.
      rewrite bst_node. split; [|split; [|split; assumption]].
      * rewrite all_values_occurs. intros x Hx. apply Hl' in Hx. lia.
      * rewrite all_values_occurs. intros x Hx. apply Or' in Hx.
        destruct Hx as [Hx Hne]. apply Least in Hx. lia.
    + intros x.
      rewrite remove_rebalance_occurs, !(occurs_node x _ th), Or'. split.
      * intros [->|[Hx|[Hx ?]]].
        -- split; [auto|lia].
        -- split; [auto|]. apply Hl' in Hx. lia.
        -- split; [auto|]. apply Hr' in Hx. lia.
      * intros [[?|[Hx|Hx]] Hne]; [contradiction|auto|].
        destruct (Z.eq_dec x m); auto.
Qed.

(** *** Termination of [remove_node] *)

Lemma remove_call_smaller c c' :
  remove_call c' c -> (size (snd c') < size (snd c))%nat.
Proof. destruct 1; cbn [snd size]; lia. Qed.

Lemma remove_call_wf : well_founded remove_call.
Proof.
  apply (well_founded_lt_compat _ (fun c => size (snd c))).
  intros c' c H. apply remove_call_smaller, H.
Qed.

Lemma avl_remove_node_total t : forall value,
  exists t', remove_node value t = Some t'.
Proof.
  induction t as [|tv th l IHl r IHr]; intros value; cbn [remove_node].
  - eauto.
  - destruct (value <? tv).
    { destruct (IHl value) as (l' & ->). cbn [bind_opt]. eauto. }
    destruct (value >? tv).
    { destruct (IHr value) as (r' & ->). cbn [bind_opt]. eauto. }
    destruct l as [|lv lh ll lr]; [eauto|].
    destruct r as [|rv rh rl rr]; [eauto|].
    destruct (min_value_node_some rv rh rl rr) as (m & -> & _).
    cbn [bind_opt]. destruct (IHr m) as (r' & ->). cbn [bind_opt]. eauto.
Qed.

(** *** Rotations and rebalancing keep the traversal and the node count *)

Lemma bst_rotate_left_dump t (ascending : bool) :
  dump_tree (bst_rotate_left t) ascending = dump_tree t ascending.
Proof.
  destruct t as [|v h tl [|rv rh rl rr]]; cbn [bst_rotate_left];
    try reflexivity.
  rewrite !dump_tree_node. destruct ascending;
    rewrite <- ?app_assoc; cbn [app]; reflexivity.
Qed.

Lemma bst_rotate_right_dump t (ascending : bool) :
  dump_tree (bst_rotate_right t) ascending = dump_tree t ascending.
Proof.
  destruct t as [|v h [|lv lh ll lr] tr]; cbn [bst_rotate_right];
    try reflexivity.
  rewrite !dump_tree_node. destruct ascending;
    rewrite <- ?app_assoc; cbn [app]; reflexivity.
Qed.







(** *** Node counts *)



(** *** Keys already present, keys absent *)

Lemma add_rebalance_valid value t : avl t -> add_rebalance value t = t.
Proof.
  destruct t as [|tv th l r]; [reflexivity|].
  intros A. pose proof A as A'. rewrite avl_node in A'.
  destruct A' as (Al & Ar & Hbal & Hh).
  unfold add_rebalance.
  rewrite (height_real l Al), (height_real r Ar).
  destruct (Z.gtb_spec (real_height l - real_height r) 1); [lia|].
  destruct (Z.gtb_spec (real_height r - real_height l) 1); [lia|].
  f_equal. destruct (Z.ltb_spec (real_height l) (real_height r)); lia.
Qed.

Lemma avl_add_node_found t : forall value,
  avl t -> find_node value t = true -> add_node value t = t.
Proof.
  induction t as [|tv th l IHl r IHr]; intros value A; [discriminate|].
  pose proof A as A'. rewrite avl_node in A'.
  destruct A' as (Al & Ar & _ & _).
  cbn [find_node add_node].
  destruct (Z.eqb_spec tv value) as [?|?],
    (Z.ltb_spec value tv) as [?|?],
    (Z.gtb_spec value tv) as [?|?],
    (Z.ltb_spec tv value) as [?|?]; try lia; intros Hf.
  - apply add_rebalance_valid, A.
  - rewrite (IHl value Al Hf). apply add_rebalance_valid, A.
  - rewrite (IHr value Ar Hf). apply add_rebalance_valid, A.
Qed.

Lemma avl_remove_node_absent t : forall value,
  avl t -> find_node value t = false -> remove_node value t = Some t.
Proof.
  induction t as [|tv th l IHl r IHr]; intros value A; [reflexivity|].
  pose proof A as A'. rewrite avl_node in A'.
  destruct A' as (Al & Ar & _ & _).
  cbn [find_node remove_node].
  destruct (Z.eqb_spec tv value) as [?|?],
    (Z.ltb_spec value tv) as [?|?],
    (Z.gtb_spec value tv) as [?|?],
    (Z.ltb_spec tv value) as [?|?]; try lia; intros Hf; try discriminate.
  - rewrite (IHl value Al Hf). cbn [bind_opt].
    rewrite (remove_rebalance_valid _ A). reflexivity.
  - rewrite (IHr value Ar Hf). cbn [bind_opt].
    rewrite (remove_rebalance_valid _ A). reflexivity.
Qed.

(** *** The height of a valid tree is logarithmic in its size *)

Lemma avl_size_lower_bound t :
  avl t -> 2 ^ ((real_height t + 1) / 2) <= binary_tree_nodes t + 1.
Proof.
  induction t as [|v h l IHl r IHr]; intros A.
  - vm_compute. discriminate.
  - rewrite avl_node in A. destruct A as (Al & Ar & Hbal & _).
    specialize (IHl Al). specialize (IHr Ar).
    rewrite real_height_node. cbn [binary_tree_nodes].
    pose proof (real_height_lower l). pose proof (real_height_lower r).
    set (a := real_height l) in *. set (b := real_height r) in *.
    assert (Hexp : forall x y, -1 <= x -> x <= y ->
                               2 ^ ((x + 1) / 2) <= 2 ^ ((y + 1) / 2)).
    { intros x y Hx Hxy. apply Z.pow_le_mono_r; [lia|].
      apply Z.div_le_mono; lia. }
    destruct (Z.le_gt_cases (Z.max a b) (-1)) as [Hsmall|Hbig].
    + replace ((1 + Z.max a b + 1) / 2) with 0
        by (replace (1 + Z.max a b + 1) with 1 by lia; reflexivity).
      pose proof (binary_tree_nodes_size l).
      pose proof (binary_tree_nodes_size r).
      change (2 ^ 0) with 1. lia.
    + assert (Hm : -1 <= Z.max a b - 1) by lia.
      pose proof (Hexp (Z.max a b - 1) a Hm ltac:(lia)) as Pa.
      pose proof (Hexp (Z.max a b - 1) b Hm ltac:(lia)) as Pb.
      replace ((1 + Z.max a b + 1) / 2)
        with (Z.succ ((Z.max a b - 1 + 1) / 2))
        by (Z.div_mod_to_equations; lia).
      rewrite Z.pow_succ_r by (Z.div_mod_to_equations; lia).
      lia.
Qed.

End AVLFacts.

(** ** Statements about the plain BST and the AVL tree *)

Lemma avl_10_20_30_built :
  AVL.add_node 30 (AVL.add_node 20 (AVL.add_node 10 Leaf)) = avl_10_20_30.
Proof. reflexivity. Qed.

Lemma avl_10_20_30_valid : AVL.avl avl_10_20_30.
Proof. cbn [avl_10_20_30 AVL.avl AVL.real_height]. repeat split; lia. Defined.

Lemma avl_10_20_30_bst : bst avl_10_20_30.
Proof. cbn [avl_10_20_30 bst all_values]. repeat split; lia. Defined.

(** Scenario 2: inserting 1..7 in increasing order gives height 2 and 7
    nodes.  Scenario 5: deleting 10 from the tree above leaves root 20 with
    the right child 30 and height 1. *)
Example avl_scenarios :
  (let t := fold_left (fun t v => AVL.add_node v t) [1; 2; 3; 4; 5; 6; 7] Leaf
   in AVL.binary_tree_height t = 2 /\ binary_tree_nodes t = 7) /\
  AVL.remove_node 10 avl_10_20_30 = Some (Node 20 1 Leaf (Node 30 0 Leaf Leaf)).
Proof. repeat split; reflexivity. Qed.

(** C1.  On a valid AVL tree (every node balanced within 1, every stored
    height equal to the recursively defined height, -1 for the empty tree;
    the empty tree is valid), [add_node] returns a valid tree, and
    [remove_node] returns, without stopping on an assertion, a valid tree. *)
Theorem avl_invariant_kept_by_add_and_remove (t : AVL.tree) (value : Z) :
  AVL.avl t ->
  AVL.avl (AVL.add_node value t) /\
  exists t', AVL.remove_node value t = Some t' /\ AVL.avl t'.
Proof.
  intros A. split.
  - apply add_node_avl, A.
  - destruct (remove_node_avl t value A) as (t' & E & A' & _). eauto.
Qed.

Lemma avl_invariant_kept_by_add_and_remove_witness :
  AVL.avl avl_10_20_30 /\
  (AVL.avl (AVL.add_node 10 avl_10_20_30) /\
   exists t', AVL.remove_node 10 avl_10_20_30 = Some t' /\ AVL.avl t').
Proof.
  split; [exact avl_10_20_30_valid|].
  exact (avl_invariant_kept_by_add_and_remove avl_10_20_30 10
           avl_10_20_30_valid).
Defined.

(** The AVL rotations of avl_bst.c are no-ops on the empty tree and on a
    node that lacks the child to rotate up. *)
Lemma avl_rotations_degrade_gracefully :
  AVL.bst_rotate_left Leaf = Leaf /\
  AVL.bst_rotate_right Leaf = Leaf /\
  (forall v h l, AVL.bst_rotate_left (Node v h l Leaf) = Node v h l Leaf) /\
  (forall v h r, AVL.bst_rotate_right (Node v h Leaf r) = Node v h Leaf r).
Proof. repeat split. Qed.

(** C5.  [remove_node] of avl_bst.c returns on every tree and every value;
    on a node with two children it stores the minimum [m] of the right
    subtree in the node and deletes [m] from the right subtree, which has
    fewer nodes than the tree; and the relation "calls" between its calls is
    well founded. *)
Theorem avl_remove_node_terminates :
  (forall value t, exists t', AVL.remove_node value t = Some t') /\
  (forall value th lv lh ll lr rv rh rl rr,
      let l := Node lv lh ll lr in
      let r := Node rv rh rl rr in
      exists m r',
        min_value_node r = Some m /\
        AVL.remove_call (m, r) (value, Node value th l r) /\
        AVL.remove_node m r = Some r' /\
        AVL.remove_node value (Node value th l r) =
          Some (AVL.remove_rebalance (Node m th l r')) /\
        (size r < size (Node value th l r))%nat) /\
  well_founded AVL.remove_call.
Proof.
  split; [|split].
  - intros value t. apply avl_remove_node_total.
  - intros value th lv lh ll lr rv rh rl rr l r.
    destruct (min_value_node_some rv rh rl rr) as (m & Hm & _).
    destruct (avl_remove_node_total r m) as (r' & Hr').
    exists m, r'. split; [exact Hm|]. split.
    { apply AVL.call_successor; [discriminate|discriminate|exact Hm]. }
    split; [exact Hr'|]. split.
    + cbn [AVL.remove_node]. rewrite Z.gtb_ltb, Z.ltb_irrefl.
      subst l r. rewrite Hm. cbn [bind_opt]. rewrite Hr'. reflexivity.
    + subst l r. cbn [size]. lia.
  - apply remove_call_wf.
Qed.

(** C6.  On a search tree, plain or AVL: after [add_node] of a value,
    [find_node] of that value is true; [remove_node] of a value returns,
    and [find_node] of that value on its result is false. *)
Theorem insert_find_delete_round_trip
  (ts : SimpleBST.tree) (ta : AVL.tree) (value : Z) :
  bst ts -> bst ta ->
  find_node value (SimpleBST.add_node value ts) = true /\
  (exists ts', SimpleBST.remove_node value ts = Some ts' /\
               find_node value ts' = false) /\
  find_node value (AVL.add_node value ta) = true /\
  (exists ta', AVL.remove_node value ta = Some ta' /\
               find_node value ta' = false).
Proof.
  intros Bs Ba. split; [apply simple_find_add_node|]. split.
  { destruct (simple_remove_node_spec ts value Bs) as (ts' & E & B' & O).
    exists ts'. split; [exact E|].
    apply (find_node_false_not_occurs value ts' B').
    rewrite O. tauto. }
  split.
  { destruct (avl_add_node_spec ta value Ba) as (B' & O).
    apply (find_node_occurs value _ B'), O. auto. }
  destruct (avl_remove_node_spec ta value Ba) as (ta' & E & B' & O).
  exists ta'. split; [exact E|].
  apply (find_node_false_not_occurs value ta' B').
  rewrite O. tauto.
Qed.

Example simple_scenario :
  fold_left (fun t v => SimpleBST.add_node v t) [5; 3; 8; 1; 4] Leaf
    = simple_5_3_8_1_4 /\
  dump_tree simple_5_3_8_1_4 true = [1; 3; 4; 5; 8] /\
  SimpleBST.binary_tree_height simple_5_3_8_1_4 = 2 /\
  binary_tree_nodes simple_5_3_8_1_4 = 5.
Proof. repeat split; reflexivity. Qed.

Lemma simple_5_3_8_1_4_bst : bst simple_5_3_8_1_4.
Proof. cbn [simple_5_3_8_1_4 bst all_values]. repeat split; lia. Defined.

Lemma insert_find_delete_round_trip_witness :
  bst simple_5_3_8_1_4 /\ bst avl_10_20_30 /\
  (find_node 3 (SimpleBST.add_node 3 simple_5_3_8_1_4) = true /\
   (exists ts', SimpleBST.remove_node 3 simple_5_3_8_1_4 = Some ts' /\
                find_node 3 ts' = false) /\
   find_node 3 (AVL.add_node 3 avl_10_20_30) = true /\
   (exists ta', AVL.remove_node 3 avl_10_20_30 = Some ta' /\
                find_node 3 ta' = false)).
Proof.
  split; [exact simple_5_3_8_1_4_bst|].
  split; [exact avl_10_20_30_bst|].
  exact (insert_find_delete_round_trip simple_5_3_8_1_4 avl_10_20_30 3
           simple_5_3_8_1_4_bst avl_10_20_30_bst).
Defined.

(** C9.  On a plain search tree, [add_node] of a value the traversal
    already lists and [remove_node] of a value it does not list return the
    tree they were given: same handle, same node count, same traversal in
    both directions. *)
Theorem simple_bst_logical_no_ops (t : SimpleBST.tree) (value : Z) :
  bst t ->
  (In value (dump_tree t true) ->
   SimpleBST.add_node value t = t /\
   binary_tree_nodes (SimpleBST.add_node value t) = binary_tree_nodes t /\
   forall ascending,
     dump_tree (SimpleBST.add_node value t) ascending = dump_tree t ascending)
  /\
  (~ In value (dump_tree t true) ->
   exists t', SimpleBST.remove_node value t = Some t' /\ t' = t /\
              binary_tree_nodes t' = binary_tree_nodes t /\
              forall ascending, dump_tree t' ascending = dump_tree t ascending).
Proof.
  intros B. rewrite occurs_dump_tree. split.
  - intros O. apply (find_node_occurs value t B) in O.
    rewrite (simple_add_node_found value t O). auto.
  - intros O. apply (find_node_false_not_occurs value t B) in O.
    exists t. rewrite (simple_remove_node_absent value t O). auto.
Qed.

Lemma simple_bst_logical_no_ops_witness :
  bst simple_5_3_8_1_4 /\
  ((In 4 (dump_tree simple_5_3_8_1_4 true) ->
    SimpleBST.add_node 4 simple_5_3_8_1_4 = simple_5_3_8_1_4 /\
    binary_tree_nodes (SimpleBST.add_node 4 simple_5_3_8_1_4)
      = binary_tree_nodes simple_5_3_8_1_4 /\
    forall ascending,
      dump_tree (SimpleBST.add_node 4 simple_5_3_8_1_4) ascending
        = dump_tree simple_5_3_8_1_4 ascending)
   /\
   (~ In 4 (dump_tree simple_5_3_8_1_4 true) ->
    exists t', SimpleBST.remove_node 4 simple_5_3_8_1_4 = Some t' /\
               t' = simple_5_3_8_1_4 /\
               binary_tree_nodes t' = binary_tree_nodes simple_5_3_8_1_4 /\
               forall ascending,
                 dump_tree t' ascending = dump_tree simple_5_3_8_1_4 ascending)).
Proof.
  split; [exact simple_5_3_8_1_4_bst|].
  exact (simple_bst_logical_no_ops simple_5_3_8_1_4 4 simple_5_3_8_1_4_bst).
Defined.

(** ** [find_node] and the memory *)

Section MemFacts.
Context {T : Type}.
Implicit Types s : gmap Mem.loc (Mem.cell T).

(** Whatever the store and the pointer, a search that returns hands the
    store back as it received it. *)
Lemma mem_find_node_frame fuel : forall value p s b s',
  Mem.find_node fuel value p s = Some (b, s') -> s' = s.
Proof.
  induction fuel as [|fuel IH]; intros value p s b s'; cbn [Mem.find_node].
  - discriminate.
  - destruct p as [p|]; [|unfold Mem.ret; congruence].
    unfold Mem.bindM, Mem.load.
    destruct (s !! p) as [c|]; [|discriminate].
    destruct (Mem.c_value c =? value); [unfold Mem.ret; congruence|].
    destruct (Mem.c_value c <? value); apply IH.
Qed.

(** On a store that holds a tree, the search returns, with the answer of
    [find_node] on that tree, as soon as the depth bound exceeds the
    number of nodes. *)
Lemma mem_find_node_runs s p (t : binary_tree_s T) :
  Mem.repr s p t ->
  forall fuel value, (size t < fuel)%nat ->
    Mem.find_node fuel value p s = Some (find_node value t, s).
Proof.
  induction 1 as [|p c l r Hp Hl IHl Hr IHr]; intros fuel value Hf;
    (destruct fuel as [|fuel]; [lia|]); cbn [Mem.find_node find_node].
  - reflexivity.
  - cbn [size] in Hf. unfold Mem.bindM, Mem.load. rewrite Hp.
    destruct (Mem.c_value c =? value); [reflexivity|].
    destruct (Mem.c_value c <? value); [apply IHr|apply IHl]; lia.
Qed.

End MemFacts.

(** C10.  [find_node] is read-only.  Run on the memory that holds the tree
    (plain BST: no balancing field; AVL: the balancing field is the stored
    height), it returns the answer of the search and leaves every cell --
    links, values, height fields -- as it was.  More generally a search that
    returns never changes the store it ran on. *)
Theorem find_node_is_read_only
  {T : Type} (s : gmap Mem.loc (Mem.cell T)) (p : option Mem.loc)
  (t : binary_tree_s T) (value : Z) :
  Mem.repr s p t ->
  Mem.find_node (S (size t)) value p s = Some (find_node value t, s) /\
  forall fuel q b s', Mem.find_node fuel value q s = Some (b, s') -> s' = s.
Proof.
  intros Hrepr. split.
  - apply (mem_find_node_runs s p t Hrepr). lia.
  - intros fuel q b s'. apply mem_find_node_frame.
Qed.

Lemma avl_10_20_30_store_repr :
  Mem.repr avl_10_20_30_store (Some 1%positive) avl_10_20_30.
Proof.
  unfold avl_10_20_30.
  eapply (Mem.repr_node _ 1%positive
            {| Mem.c_value := 20; Mem.c_tag := 1;
               Mem.c_left := Some 2%positive;
               Mem.c_right := Some 3%positive |}); [reflexivity| |].
  - eapply (Mem.repr_node _ 2%positive
              {| Mem.c_value := 10; Mem.c_tag := 0;
                 Mem.c_left := None; Mem.c_right := None |});
      [reflexivity|constructor|constructor].
  - eapply (Mem.repr_node _ 3%positive
              {| Mem.c_value := 30; Mem.c_tag := 0;
                 Mem.c_left := None; Mem.c_right := None |});
      [reflexivity|constructor|constructor].
Defined.

Lemma find_node_is_read_only_witness :
  Mem.repr avl_10_20_30_store (Some 1%positive) avl_10_20_30 /\
  (Mem.find_node (S (size avl_10_20_30)) 30 (Some 1%positive)
     avl_10_20_30_store
   = Some (find_node 30 avl_10_20_30, avl_10_20_30_store) /\
   forall fuel q b s',
     Mem.find_node fuel 30 q avl_10_20_30_store = Some (b, s') ->
     s' = avl_10_20_30_store).
Proof.
  split; [exact avl_10_20_30_store_repr|].
  exact (find_node_is_read_only avl_10_20_30_store (Some 1%positive)
           avl_10_20_30 30 avl_10_20_30_store_repr).
Defined.

(** ** Red-black tree *)

Section RBFacts.
Import RB.
Implicit Types t l r : tree.

Local Abbreviation fix_spec :=
  (fix_red_black_with rotate_left_spec rotate_right_spec).
Local Abbreviation ins_spec :=
  (add_node_rec_with rotate_left_spec rotate_right_spec).

(** *** Balance, path by path and along the leftmost path *)

Lemma bheight_in_path_blacks t : In (bheight t) (path_blacks t).
Proof.
  induction t as [|v c l IHl r _]; cbn [bheight path_blacks].
  - left. reflexivity.
  - apply in_map, in_or_app. left. exact IHl.
Qed.

Lemma balanced_path_blacks t :
  balanced t -> forall a, In a (path_blacks t) -> a = bheight t.
Proof.
  induction t as [|v c l IHl r IHr]; cbn [balanced path_blacks bheight].
  - intros _ a [<-|[]]. reflexivity.
  - intros (E & Bl & Br) a Ha. apply in_map_iff in Ha.
    destruct Ha as (a' & <- & Ha'). apply in_app_or in Ha'.
    destruct Ha' as [Ha'|Ha'].
    + rewrite (IHl Bl a' Ha'). reflexivity.
    + rewrite (IHr Br a' Ha'), E. reflexivity.
Qed.

Lemma black_balanced_iff t : black_balanced t <-> balanced t.
Proof.
  split.
  - induction t as [|v c l IHl r IHr]; intros H; cbn [balanced]; [exact I|].
    unfold black_balanced in H. cbn [path_blacks] in H.
    assert (Hin : forall a b,
               In a (path_blacks l ++ path_blacks r) ->
               In b (path_blacks l ++ path_blacks r) -> a = b).
    { intros a b Ha Hb.
      apply (in_map (Nat.add (blackness c))) in Ha, Hb.
      specialize (H _ _ Ha Hb). lia. }
    split; [|split].
    + apply Hin; apply in_or_app;
        [left|right]; apply bheight_in_path_blacks.
    + apply IHl. intros a b Ha Hb. apply Hin; apply in_or_app; auto.
    + apply IHr. intros a b Ha Hb. apply Hin; apply in_or_app; auto.
  - intros B a b Ha Hb.
    rewrite (balanced_path_blacks t B a Ha), (balanced_path_blacks t B b Hb).
    reflexivity.
Qed.

(** *** The repair step with the documented rotations *)

Lemma red_red_left_inv l :
  is_red l && is_red (left_of l) = true ->
  exists lv llv a b lr, l = Node lv RED (Node llv RED a b) lr.
Proof.
  destruct l as [|lv [] [|llv [] a b] lr]; cbn; try discriminate.
  intros _. eauto 6.
Qed.

Lemma red_red_right_inv l :
  is_red l && is_red (right_of l) = true ->
  exists lv ll x a b, l = Node lv RED ll (Node x RED a b).
Proof.
  destruct l as [|lv [] ll [|x [] a b]]; cbn; try discriminate.
  intros _. eauto 6.
Qed.

Lemma no_red_red_no_pattern l :
  no_red_red l ->
  is_red l && is_red (left_of l) = false /\
  is_red l && is_red (right_of l) = false.
Proof.
  destruct l as [|lv [] ll lr]; cbn [no_red_red is_red left_of right_of andb];
    auto.
  intros ((Hl & Hr) & _); [reflexivity|]. rewrite Hl, Hr. auto.
Qed.

Lemma nearly_no_pattern l :
  nearly l ->
  is_red l && is_red (left_of l) = false ->
  is_red l && is_red (right_of l) = false ->
  no_red_red l.
Proof.
  destruct l as [|lv [] ll lr];
    cbn [nearly no_red_red is_red left_of right_of andb]; auto.
  intros (Nl & Nr) _ _. split; [discriminate|auto].
Qed.

Lemma no_red_red_nearly t : no_red_red t -> nearly t.
Proof. destruct t; cbn [no_red_red nearly]; tauto. Qed.

Lemma no_red_red_node v c l r :
  no_red_red (Node v c l r) <->
  (c = RED -> is_red l = false /\ is_red r = false) /\
  no_red_red l /\ no_red_red r.
Proof. reflexivity. Qed.

(** [fix_red_black] on a node whose subtrees have equal black heights,
    are valid below their roots, one of them being valid at its root
    too, both of them when the node is red. *)
Lemma fix_spec_inv v c l r :
  balanced (Node v c l r) ->
  nearly l -> nearly r ->
  (no_red_red l \/ no_red_red r) ->
  (c = RED -> no_red_red l /\ no_red_red r) ->
  balanced (fix_spec v c l r) /\
  bheight (fix_spec v c l r) = bheight (Node v c l r) /\
  nearly (fix_spec v c l r) /\
  (c = BLACK -> no_red_red (fix_spec v c l r)) /\
  is_null (fix_spec v c l r) = false.
Proof.
  intros B Nl Nr Hor Hred. unfold fix_red_black_with.
  destruct (is_red l && is_red (left_of l)) eqn:E1.
  { destruct (red_red_left_inv l E1) as (lv & llv & a & b & lr & ->).
    assert (c = BLACK) as ->.
    { destruct c; [|reflexivity]. destruct (Hred eq_refl) as (H & _).
      apply no_red_red_no_pattern in H. destruct H as (H & _).
      rewrite E1 in H. discriminate. }
    assert (Rr : no_red_red r).
    { destruct Hor as [H|H]; [|exact H].
      apply no_red_red_no_pattern in H. destruct H as (H & _).
      rewrite E1 in H. discriminate. }
    cbn [left_of set_color set_left rotate_right_spec].
    cbn [balanced bheight blackness nearly no_red_red is_red is_null] in *.
    repeat split; try tauto; try lia; try discriminate. }
  destruct (is_red l && is_red (right_of l)) eqn:E2.
  { destruct (red_red_right_inv l E2) as (lv & ll & x & a & b & ->).
    assert (c = BLACK) as ->.
    { destruct c; [|reflexivity]. destruct (Hred eq_refl) as (H & _).
      apply no_red_red_no_pattern in H. destruct H as (_ & H).
      rewrite E2 in H. discriminate. }
    assert (Rr : no_red_red r).
    { destruct Hor as [H|H]; [|exact H].
      apply no_red_red_no_pattern in H. destruct H as (_ & H).
      rewrite E2 in H. discriminate. }
    cbn [set_color rotate_left_spec rotate_right_spec].
    cbn [balanced bheight blackness nearly no_red_red is_red is_null] in *.
    repeat split; try tauto; try lia; try discriminate. }
  pose proof (nearly_no_pattern l Nl E1 E2) as Rl.
  destruct (is_red r && is_red (right_of r)) eqn:E3.
  { destruct (red_red_right_inv r E3) as (rv & rl & x & a & b & ->).
    assert (c = BLACK) as ->.
    { destruct c; [|reflexivity]. destruct (Hred eq_refl) as (_ & H).
      apply no_red_red_no_pattern in H. destruct H as (_ & H).
      rewrite E3 in H. discriminate. }
    cbn [right_of set_color set_right rotate_left_spec].
    cbn [balanced bheight blackness nearly no_red_red is_red is_null] in *.
    repeat split; try tauto; try lia; try discriminate. }
  destruct (is_red r && is_red (left_of r)) eqn:E4.
  { destruct (red_red_left_inv r E4) as (rv & x & a & b & rr & ->).
    assert (c = BLACK) as ->.
    { destruct c; [|reflexivity]. destruct (Hred eq_refl) as (_ & H).
      apply no_red_red_no_pattern in H. destruct H as (H & _).
      rewrite E4 in H. discriminate. }
    cbn [set_color rotate_left_spec rotate_right_spec].
    cbn [balanced bheight blackness nearly no_red_red is_red is_null] in *.
    repeat split; try tauto; try lia; try discriminate. }
  pose proof (nearly_no_pattern r Nr E4 E3) as Rr.
  split; [exact B|]. split; [reflexivity|].
  split; [cbn [nearly]; auto|]. split; [|reflexivity].
  intros ->. rewrite no_red_red_node. split; [discriminate|auto].
Qed.

(** The recursive insertion with the documented rotations keeps the black
    height, leaves at most a red-red pair at the root, and none when the
    root was black. *)
Lemma ins_spec_inv value t :
  no_red_red t -> balanced t ->
  balanced (ins_spec value t) /\
  bheight (ins_spec value t) = bheight t /\
  nearly (ins_spec value t) /\
  (is_red t = false -> no_red_red (ins_spec value t)) /\
  is_null (ins_spec value t) = false.
Proof.
  induction t as [|z c l IHl r IHr]; intros N B.
  - cbn. repeat split; auto; discriminate.
  - cbn [add_node_rec_with].
    pose proof N as N'. rewrite no_red_red_node in N'.
    destruct N' as (Hc & Rl & Rr).
    pose proof B as B'. cbn [balanced] in B'. destruct B' as (E & Bl & Br).
    assert (Hroot : is_red (Node z c l r) = false -> c = BLACK)
      by (destruct c; [discriminate|reflexivity]).
    destruct (value <? z).
    { destruct (IHl Rl Bl) as (Bl' & El' & Nl' & Hl' & _).
      destruct (fix_spec_inv z c (ins_spec value l) r)
        as (Bf & Ef & Nf & Hf & Zf).
      - cbn [balanced]. split; [congruence|auto].
      - exact Nl'.
      - apply no_red_red_nearly, Rr.
      - right. exact Rr.
      - intros ->. destruct (Hc eq_refl) as (Hl & _). auto.
      - split; [exact Bf|]. split.
        { rewrite Ef. cbn [bheight]. rewrite El'. reflexivity. }
        split; [exact Nf|]. split; [|exact Zf]. intros H. auto. }
    destruct (value >? z).
    { destruct (IHr Rr Br) as (Br' & Er' & Nr' & Hr' & _).
      destruct (fix_spec_inv z c l (ins_spec value r))
        as (Bf & Ef & Nf & Hf & Zf).
      - cbn [balanced]. split; [congruence|auto].
      - apply no_red_red_nearly, Rl.
      - exact Nr'.
      - left. exact Rl.
      - intros ->. destruct (Hc eq_refl) as (_ & Hr). auto.
      - split; [exact Bf|]. split; [exact Ef|].
        split; [exact Nf|]. split; [|exact Zf]. intros H. auto. }
    split; [exact B|]. split; [reflexivity|].
    split; [apply no_red_red_nearly, N|]. split; [auto|reflexivity].
Qed.

(** With the rotations written as the documentation describes them,
    [add_node] keeps the three red-black invariants. *)
Lemma add_node_with_documented_rotations value t :
  rb_valid t ->
  exists t', add_node_with rotate_left_spec rotate_right_spec value t
               = Some t' /\ rb_valid t'.
Proof.
  intros (N & B & Hroot). apply black_balanced_iff in B.
  destruct (ins_spec_inv value t N B) as (B' & _ & _ & N' & Z').
  specialize (N' Hroot). unfold add_node_with.
  destruct (ins_spec value t) as [|v c l r]; [discriminate|].
  eexists. split; [reflexivity|].
  rewrite no_red_red_node in N'. cbn [balanced] in B'.
  split; [|split].
  - rewrite no_red_red_node. split; [discriminate|tauto].
  - apply black_balanced_iff. exact B'.
  - reflexivity.
Qed.

(** *** [find_parent] called on the node that holds the value *)

(** In a search tree no child repeats the key of its parent, so the
    search for the parent of [value] that starts at the node holding
    [value] finds nothing. *)
Lemma find_parent_from_the_node v c l r :
  bst (Node v c l r) -> find_parent v (Node v c l r) = None.
Proof.
  rewrite bst_node, !all_values_occurs. intros (Hl & Hr & _ & _).
  cbn [find_parent].
  destruct (is_null l && is_null r); [reflexivity|].
  assert (has_value v l = false) as ->.
  { destruct l as [|lv lc ll lr]; [reflexivity|]. cbn [has_value].
    apply Z.eqb_neq. specialize (Hl lv). cbn [occurs] in Hl. lia. }
  assert (has_value v r = false) as ->.
  { destruct r as [|rv rc rl rr]; [reflexivity|]. cbn [has_value].
    apply Z.eqb_neq. specialize (Hr rv). cbn [occurs] in Hr. lia. }
  cbn [orb]. rewrite Z.gtb_ltb, Z.ltb_irrefl. reflexivity.
Qed.

(** *** Insertion of a key already present *)

(** On subtrees without red-red pairs no pattern of [fix_red_black]
    matches, whatever the rotations are: the node is returned as it is. *)
Lemma fix_red_black_no_pattern rotate_left rotate_right v c l r :
  no_red_red l -> no_red_red r ->
  fix_red_black_with rotate_left rotate_right v c l r = Node v c l r.
Proof.
  intros Nl Nr. unfold fix_red_black_with.
  destruct (no_red_red_no_pattern l Nl) as (-> & ->).
  destruct (no_red_red_no_pattern r Nr) as (-> & ->).
  reflexivity.
Qed.

Lemma rb_add_node_rec_found rotate_left rotate_right t : forall value,
  no_red_red t -> find_node value t = true ->
  add_node_rec_with rotate_left rotate_right value t = t.
Proof.
  induction t as [|z c l IHl r IHr]; intros value N; [discriminate|].
  pose proof N as N'. rewrite no_red_red_node in N'.
  destruct N' as (_ & Nl & Nr).
  cbn [find_node add_node_rec_with].
  destruct (Z.eqb_spec z value) as [?|?],
    (Z.ltb_spec value z) as [?|?],
    (Z.gtb_spec value z) as [?|?],
    (Z.ltb_spec z value) as [?|?]; try lia; intros Hf.
  - reflexivity.
  - rewrite (IHl value Nl Hf). apply fix_red_black_no_pattern; assumption.
  - rewrite (IHr value Nr Hf). apply fix_red_black_no_pattern; assumption.
Qed.

(** *** Deletion as an operation on the set of keys *)

Lemma rb_remove_node_absent t : forall value,
  find_node value t = false -> remove_node value t = Some t.
Proof.
  induction t as [|z c l IHl r IHr]; intros value; [reflexivity|].
  cbn [find_node remove_node].
  destruct (Z.eqb_spec z value) as [?|?],
    (Z.ltb_spec value z) as [?|?],
    (Z.gtb_spec value z) as [?|?],
    (Z.ltb_spec z value) as [?|?]; try lia; intros Hf; try discriminate.
  - rewrite (IHl value Hf). reflexivity.
  - rewrite (IHr value Hf). reflexivity.
Qed.






(** *** [find_parent] *)

(** A pointer returned by [find_parent] leads to a node of the tree one of
    whose children holds the value. *)
Lemma find_parent_sound t : forall value p,
  find_parent value t = Some p ->
  exists pv pc pl pr,
    subtree p t = Node pv pc pl pr /\
    has_value value pl || has_value value pr = true.
Proof.
  induction t as [|z c l IHl r IHr]; intros value p; [discriminate|].
  cbn [find_parent].
  destruct (is_null l && is_null r); [discriminate|].
  destruct (has_value value l || has_value value r) eqn:Hv.
  { intros E. injection E as <-. cbn [subtree]. eauto 6. }
  destruct (value <? z).
  { destruct (find_parent value l) as [q|] eqn:Eq; [|discriminate].
    intros E. injection E as <-. cbn [subtree]. apply IHl, Eq. }
  destruct (value >? z); [|discriminate].
  destruct (find_parent value r) as [q|] eqn:Eq; [|discriminate].
  intros E. injection E as <-. cbn [subtree]. apply IHr, Eq.
Qed.

End RBFacts.

Lemma rb_10_5_15_20_valid : RB.rb_valid rb_10_5_15_20.
Proof.
  split; [|split].
  - cbn. repeat split; discriminate.
  - apply black_balanced_iff. cbn. repeat split.
  - reflexivity.
Defined.

(** C2, evaluated on the file as it is.  [add_node] of rb_bst.c calls
    rotations that return NULL.  Inserting 25 in the valid tree above
    matches the third pattern of [fix_red_black] at node 15; the NULL
    rotation result replaces the right subtree of the root, and the tree
    returned has paths with 2 and with 1 black nodes.  Inserting 3 in
    1 -> (-, 2 red) matches the same pattern at the root, and [add_node]
    writes the colour through the NULL pointer it got back. *)
Theorem rb_add_node_with_null_rotations :
  RB.rb_valid rb_10_5_15_20 /\
  RB.add_node 25 rb_10_5_15_20 =
    Some (Node 10 RB.BLACK (Node 5 RB.BLACK Leaf Leaf) Leaf) /\
  RB.path_blacks (Node 10 RB.BLACK (Node 5 RB.BLACK Leaf Leaf) Leaf) =
    [2%nat; 2%nat; 1%nat] /\
  ~ RB.rb_valid (Node 10 RB.BLACK (Node 5 RB.BLACK Leaf Leaf) Leaf) /\
  RB.add_node 3 (Node 1 RB.BLACK Leaf (Node 2 RB.RED Leaf Leaf)) = None.
Proof.
  split; [exact rb_10_5_15_20_valid|].
  split; [reflexivity|]. split; [reflexivity|]. split; [|reflexivity].
  intros (_ & B & _). apply black_balanced_iff in B.
  cbn in B. destruct B as (B & _). discriminate.
Qed.

(** C4, evaluated on the files as they are.  The rotations of avl_bst.c
    return their argument when it is NULL or lacks the child to rotate up.
    The rotations of rb_bst.c return NULL whatever they are given: on a
    node without that child the result is not the node. *)
Theorem rb_rotations_return_null :
  (AVL.bst_rotate_left Leaf = Leaf /\
   AVL.bst_rotate_right Leaf = Leaf /\
   (forall v h l, AVL.bst_rotate_left (Node v h l Leaf) = Node v h l Leaf) /\
   (forall v h r, AVL.bst_rotate_right (Node v h Leaf r) = Node v h Leaf r)) /\
  RB.bst_rotate_left Leaf = Leaf /\
  RB.bst_rotate_right Leaf = Leaf /\
  RB.bst_rotate_left (Node 1 RB.BLACK Leaf Leaf) = Leaf /\
  RB.bst_rotate_right (Node 1 RB.BLACK Leaf Leaf) = Leaf /\
  RB.bst_rotate_left (Node 1 RB.BLACK Leaf Leaf) <> Node 1 RB.BLACK Leaf Leaf /\
  RB.bst_rotate_right (Node 1 RB.BLACK Leaf Leaf) <> Node 1 RB.BLACK Leaf Leaf.
Proof.
  split; [exact avl_rotations_degrade_gracefully|].
  repeat split; discriminate.
Qed.

(** C3, evaluated on the file as it is.  Deleting the black leaf 1, whose
    parent 2 and sibling 3 are black and whose sibling has no children:
    [find_parent] is started at node 1 itself and returns NULL, the branch
    for a NULL parent empties the subtree, and the sibling 3 is still
    BLACK in the result. *)
Theorem rb_remove_black_leaf_keeps_sibling_black :
  RB.rb_valid rb_2_1_3 /\
  RB.find_parent 1 (Node 1 RB.BLACK Leaf Leaf) = None /\
  RB.remove_node 1 rb_2_1_3 =
    Some (Node 2 RB.BLACK Leaf (Node 3 RB.BLACK Leaf Leaf)).
Proof.
  split; [|split; reflexivity].
  split; [|split].
  - cbn. repeat split; discriminate.
  - apply black_balanced_iff. cbn. repeat split.
  - reflexivity.
Qed.

(** ** Binary heap *)

Section HeapFacts.
Import Heap.
Implicit Types a : list Z.

Ltac zcases :=
  repeat match goal with
    | |- context [?x <? ?y] => destruct (Z.ltb_spec x y)
    | |- context [?x =? ?y] => destruct (Z.eqb_spec x y)
    | |- context [?x >? ?y] => destruct (Z.gtb_spec x y)
    | |- context [?x <=? ?y] => destruct (Z.leb_spec x y)
    end; try lia.

(** *** Array accesses *)

Lemma read_in_bounds a i :
  0 <= i < Z.of_nat (length a) -> read a i = Ok (sel a i).
Proof.
  intros Hi. unfold read, sel.
  destruct (Z.ltb_spec i 0); [lia|].
  destruct (a !! Z.to_nat i) eqn:E; [reflexivity|].
  apply lookup_ge_None in E. lia.
Qed.

Lemma write_in_bounds a i v :
  0 <= i < Z.of_nat (length a) -> write a i v = Ok (upd a i v).
Proof.
  intros Hi. unfold write, upd.
  destruct (Z.ltb_spec i 0); [lia|].
  destruct (Z.leb_spec (Z.of_nat (length a)) i); [lia|]. reflexivity.
Qed.

Lemma length_upd a i v : length (upd a i v) = length a.
Proof. apply length_insert. Qed.

Lemma sel_upd a i v j :
  0 <= i < Z.of_nat (length a) -> 0 <= j ->
  sel (upd a i v) j = if j =? i then v else sel a j.
Proof.
  intros Hi Hj. unfold sel, upd.
  destruct (Z.eqb_spec j i) as [->|Hne].
  - rewrite list_lookup_insert_eq by lia. reflexivity.
  - rewrite list_lookup_insert_ne by lia. reflexivity.
Qed.

Lemma swap_in_bounds a i j :
  0 <= i < Z.of_nat (length a) -> 0 <= j < Z.of_nat (length a) ->
  swap a i j = Ok (upd (upd a i (sel a j)) j (sel a i)).
Proof.
  intros Hi Hj. unfold swap.
  rewrite (read_in_bounds a i Hi), (read_in_bounds a j Hj). cbn [bind].
  rewrite (write_in_bounds a i _ Hi). cbn [bind].
  apply write_in_bounds. rewrite length_upd. exact Hj.
Qed.

(** *** Counting the content *)

Lemma occ_upd a i v x : forall n,
  0 <= i < Z.of_nat (length a) ->
  occ (upd a i v) n x =
  occ a n x +
  (if i <? Z.of_nat n
   then (if v =? x then 1 else 0) - (if sel a i =? x then 1 else 0)
   else 0).
Proof.
  intros n Hi. induction n as [|n IH]; cbn [occ].
  - destruct (Z.ltb_spec i (Z.of_nat 0)); lia.
  - rewrite IH, sel_upd by lia.
    destruct (Z.eqb_spec (Z.of_nat n) i) as [E|E]; [subst i|]; zcases.
Qed.

Lemma occ_swap a i j x n :
  0 <= i < Z.of_nat n -> 0 <= j < Z.of_nat n ->
  (n <= length a)%nat ->
  occ (upd (upd a i (sel a j)) j (sel a i)) n x = occ a n x.
Proof.
  intros Hi Hj Hn.
  rewrite occ_upd by (rewrite length_upd; lia).
  rewrite occ_upd by lia.
  rewrite sel_upd by lia.
  destruct (Z.ltb_spec i (Z.of_nat n)); [|lia].
  destruct (Z.ltb_spec j (Z.of_nat n)); [|lia].
  destruct (Z.eqb_spec j i) as [->|_]; lia.
Qed.

Lemma occ_nonneg a n x : 0 <= occ a n x.
Proof.
  induction n as [|n IH]; cbn [occ]; [lia|].
  destruct (sel a (Z.of_nat n) =? x); lia.
Qed.

Lemma occ_positive a n x :
  0 < occ a n x <-> exists i, 0 <= i < Z.of_nat n /\ sel a i = x.
Proof.
  induction n as [|n IH]; cbn [occ].
  - split; [lia|]. intros (i & Hi & _). lia.
  - pose proof (occ_nonneg a n x).
    destruct (Z.eqb_spec (sel a (Z.of_nat n)) x) as [E|E].
    + split; [|lia]. intros _. exists (Z.of_nat n). split; [lia|exact E].
    + rewrite Z.add_0_r, IH. split.
      * intros (i & Hi & Ei). exists i. split; [lia|exact Ei].
      * intros (i & Hi & Ei). exists i. split; [|exact Ei].
        assert (i <> Z.of_nat n) by congruence. lia.
Qed.

Lemma sel_swap a i j k :
  0 <= i < Z.of_nat (length a) -> 0 <= j < Z.of_nat (length a) -> 0 <= k ->
  sel (upd (upd a i (sel a j)) j (sel a i)) k =
  if k =? j then sel a i else if k =? i then sel a j else sel a k.
Proof.
  intros Hi Hj Hk.
  rewrite sel_upd by (rewrite ?length_upd; lia).
  rewrite sel_upd by lia. reflexivity.
Qed.

(** *** The loop of [heap_add] *)

Lemma sift_up_correct fuel : forall a i n,
  0 <= i < n -> n <= Z.of_nat (length a) ->
  (Z.to_nat i < fuel)%nat ->
  up_ordered a n i ->
  exists a', sift_up fuel a i = Ok a' /\
             length a' = length a /\
             heap_ordered a' n /\
             forall x, occ a' (Z.to_nat n) x = occ a (Z.to_nat n) x.
Proof.
  induction fuel as [|fuel IH]; intros a i n Hi Hn Hfuel (U1 & U2); [lia|].
  cbn [sift_up].
  destruct (Z.gtb_spec i 0) as [Hpos|Hzero].
  2:{ exists a. repeat split; auto.
      intros j Hj. apply U1; lia. }
  rewrite Z.quot_div_nonneg by lia.
  remember ((i - 1) / 2) as p eqn:Hp.
  assert (Hpi : 0 <= p < i) by (Z.div_mod_to_equations; lia).
  rewrite (read_in_bounds a i), (read_in_bounds a p) by lia. cbn [bind].
  destruct (Z.gtb_spec (sel a i) (sel a p)) as [Hgt|Hle].
  2:{ exists a. repeat split; auto.
      intros j Hj. destruct (Z.eq_dec j i) as [->|Hne].
      - rewrite <- Hp. exact Hle.
      - apply U1; assumption. }
  rewrite (swap_in_bounds a i p) by lia. cbn [bind].
  set (a' := upd (upd a i (sel a p)) p (sel a i)).
  assert (Hlen : length a' = length a)
    by (unfold a'; rewrite !length_upd; reflexivity).
  destruct (IH a' p n) as (a'' & E & Hlen'' & Ho & Hocc).
  - lia.
  - lia.
  - lia.
  - split.
    + intros j Hj Hjp.
      assert (Hq : 0 <= (j - 1) / 2 < j) by (Z.div_mod_to_equations; lia).
      unfold a'. rewrite !sel_swap by lia.
      pose proof (U1 j Hj) as A1. pose proof (U2 j Hj) as A2.
      destruct (Z.eq_dec j i) as [->|Hji].
      * rewrite <- Hp. zcases.
      * specialize (A1 Hji).
        destruct (Z.eq_dec ((j - 1) / 2) i) as [Ei|Ei].
        { specialize (A2 Ei Hpos). rewrite Ei. zcases. }
        destruct (Z.eq_dec ((j - 1) / 2) p) as [Ep|Ep].
        { rewrite Ep in *. zcases. }
        zcases.
    + intros j Hj Ejp Hp0.
      assert (Hq : 0 <= (p - 1) / 2 < p) by (Z.div_mod_to_equations; lia).
      assert (Hjp : p < j) by (Z.div_mod_to_equations; lia).
      unfold a'. rewrite !sel_swap by lia.
      pose proof (U1 p ltac:(lia) ltac:(lia)) as A1.
      destruct (Z.eq_dec j i) as [->|Hji].
      * zcases.
      * pose proof (U1 j Hj Hji) as A3. rewrite Ejp in A3. zcases.
  - exists a''. split; [exact E|]. split; [congruence|].
    split; [exact Ho|]. intros x. rewrite Hocc. unfold a'.
    apply occ_swap; lia.
Qed.

(** *** The loop of [heap_remove] *)

Lemma down_stop a n i :
  down_ordered a n i ->
  (forall j, 0 < j < n -> (j - 1) / 2 = i -> sel a j <= sel a i) ->
  heap_ordered a n.
Proof.
  intros (D1 & D2) H j Hj.
  destruct (Z.eq_dec ((j - 1) / 2) i) as [E|E].
  - rewrite E. apply H; assumption.
  - apply D1; assumption.
Qed.

Lemma down_step a n i c :
  0 <= i -> c < n -> n <= Z.of_nat (length a) ->
  (c - 1) / 2 = i -> 0 < c ->
  down_ordered a n i ->
  sel a i < sel a c ->
  (forall j, 0 < j < n -> (j - 1) / 2 = i -> sel a j <= sel a c) ->
  down_ordered (upd (upd a i (sel a c)) c (sel a i)) n c.
Proof.
  intros Hi Hc Hn Ec Hc0 (D1 & D2) Hlt Hmax.
  assert (Hic : i < c) by (Z.div_mod_to_equations; lia).
  split.
  - intros j Hj Hjc.
    assert (Hq : 0 <= (j - 1) / 2 < j) by (Z.div_mod_to_equations; lia).
    rewrite !sel_swap by lia.
    destruct (Z.eq_dec j c) as [->|Hne].
    { rewrite Ec. zcases. }
    destruct (Z.eq_dec j i) as [->|Hne'].
    { assert (0 < i) by lia.
      pose proof (D2 c ltac:(lia) Ec ltac:(lia)). zcases. }
    destruct (Z.eq_dec ((j - 1) / 2) i) as [Ei|Ei].
    { pose proof (Hmax j Hj Ei). rewrite Ei. zcases. }
    pose proof (D1 j Hj Ei). zcases.
  - intros j Hj Ejc _.
    assert (Hjc : c < j) by (Z.div_mod_to_equations; lia).
    rewrite Ec, !sel_swap by lia.
    pose proof (D1 j Hj ltac:(lia)) as A. rewrite Ejc in A. zcases.
Qed.

Lemma sift_down_correct fuel : forall a i n,
  0 <= i -> n <= Z.of_nat (length a) ->
  (Z.to_nat (n - i) < fuel)%nat ->
  down_ordered a n i ->
  exists a', sift_down fuel a n i = Ok a' /\
             length a' = length a /\
             heap_ordered a' n /\
             forall x, occ a' (Z.to_nat n) x = occ a (Z.to_nat n) x.
Proof.
  induction fuel as [|fuel IH]; intros a i n Hi Hn Hfuel D; [lia|].
  cbn [sift_down].
  destruct (Z.ltb_spec i n) as [Hin|Hout].
  2:{ exists a. repeat split; auto. destruct D as (D1 & _).
      intros j Hj. apply D1; [assumption|].
      Z.div_mod_to_equations. lia. }
  assert (Hchildren : forall j, 0 < j -> (j - 1) / 2 = i ->
                                j = i * 2 + 1 \/ j = i * 2 + 2)
    by (intros j ? ?; Z.div_mod_to_equations; lia).
  assert (El : (i * 2 + 1 - 1) / 2 = i) by (Z.div_mod_to_equations; lia).
  assert (Er : (i * 2 + 2 - 1) / 2 = i) by (Z.div_mod_to_equations; lia).
  (* the recursive call after a swap with the child [c] *)
  assert (Step : forall c,
             c < n -> (c - 1) / 2 = i -> 0 < c -> sel a i < sel a c ->
             (forall j, 0 < j < n -> (j - 1) / 2 = i ->
                        sel a j <= sel a c) ->
             exists a',
               (let* a' := swap a i c in sift_down fuel a' n c) = Ok a' /\
               length a' = length a /\ heap_ordered a' n /\
               forall x, occ a' (Z.to_nat n) x = occ a (Z.to_nat n) x).
  { intros c Hc Ec Hc0 Hlt Hmax.
    assert (Hic : i < c) by (Z.div_mod_to_equations; lia).
    rewrite (swap_in_bounds a i c) by lia. cbn [bind].
    destruct (IH (upd (upd a i (sel a c)) c (sel a i)) c n)
      as (a'' & E & Hlen & Ho & Hocc).
    - lia.
    - rewrite !length_upd. lia.
    - lia.
    - apply (down_step a n i c); auto.
    - exists a''. split; [exact E|]. rewrite !length_upd in Hlen.
      split; [exact Hlen|]. split; [exact Ho|].
      intros x. rewrite Hocc. apply occ_swap; lia. }
  (* the loop stops when no child is larger *)
  assert (Stop : (forall j, 0 < j < n -> (j - 1) / 2 = i ->
                            sel a j <= sel a i) ->
                 exists a',
                   Ok a = Ok a' /\ length a' = length a /\
                   heap_ordered a' n /\
                   forall x, occ a' (Z.to_nat n) x = occ a (Z.to_nat n) x).
  { intros H. exists a. repeat split; auto. apply (down_stop a n i D H). }
  destruct (Z.ltb_spec (i * 2 + 1) n) as [Hl|Hl].
  - rewrite (read_in_bounds a (i * 2 + 1)), (read_in_bounds a i) by lia.
    cbn [bind].
    destruct (Z.gtb_spec (sel a (i * 2 + 1)) (sel a i)) as [Gl|Gl].
    + destruct (Z.ltb_spec (i * 2 + 2) n) as [Hr|Hr].
      * rewrite (read_in_bounds a (i * 2 + 2)),
          (read_in_bounds a (i * 2 + 1)) by lia.
        cbn [bind].
        destruct (Z.gtb_spec (sel a (i * 2 + 2)) (sel a (i * 2 + 1)))
          as [Gr|Gr].
        -- destruct (Z.eqb_spec (i * 2 + 2) i); [lia|].
           apply Step; try lia.
           intros j Hj Ej.
           destruct (Hchildren j ltac:(lia) Ej) as [->| ->]; lia.
        -- destruct (Z.eqb_spec (i * 2 + 1) i); [lia|].
           apply Step; try lia.
           intros j Hj Ej.
           destruct (Hchildren j ltac:(lia) Ej) as [->| ->]; lia.
      * cbn [bind].
        destruct (Z.eqb_spec (i * 2 + 1) i); [lia|].
        apply Step; try lia.
        intros j Hj Ej.
        destruct (Hchildren j ltac:(lia) Ej) as [->| ->]; lia.
    + destruct (Z.ltb_spec (i * 2 + 2) n) as [Hr|Hr].
      * rewrite (read_in_bounds a (i * 2 + 2)), (read_in_bounds a i)
          by lia.
        cbn [bind].
        destruct (Z.gtb_spec (sel a (i * 2 + 2)) (sel a i)) as [Gr|Gr].
        -- destruct (Z.eqb_spec (i * 2 + 2) i); [lia|].
           apply Step; try lia.
           intros j Hj Ej.
           destruct (Hchildren j ltac:(lia) Ej) as [->| ->]; lia.
        -- rewrite Z.eqb_refl. apply Stop.
           intros j Hj Ej.
           destruct (Hchildren j ltac:(lia) Ej) as [->| ->]; lia.
      * cbn [bind]. rewrite Z.eqb_refl. apply Stop.
        intros j Hj Ej.
        destruct (Hchildren j ltac:(lia) Ej) as [->| ->]; lia.
  - destruct (Z.ltb_spec (i * 2 + 2) n) as [Hr|Hr]; [lia|].
    cbn [bind]. rewrite Z.eqb_refl. apply Stop.
    intros j Hj Ej.
    destruct (Hchildren j ltac:(lia) Ej) as [->| ->]; lia.
Qed.

(** *** The bag of pending elements *)

Lemma maximum_spec l : forall x,
  In (maximum x l) (x :: l) /\ forall y, In y (x :: l) -> y <= maximum x l.
Proof.
  induction l as [|z l IH]; intros x; cbn [maximum].
  - split; [left; reflexivity|]. intros y [->|[]]. lia.
  - destruct (IH z) as (Hin & Hmax). split.
    + destruct (Z.max_spec x (maximum z l)) as [[_ ->]|[_ ->]].
      * right. exact Hin.
      * left. reflexivity.
    + intros y [->|Hy]; [lia|]. specialize (Hmax y Hy). lia.
Qed.

Lemma count_occ_remove_one m l x :
  In m l ->
  Z.of_nat (count_occ Z.eq_dec (remove_one m l) x) =
  Z.of_nat (count_occ Z.eq_dec l x) - (if m =? x then 1 else 0).
Proof.
  induction l as [|y l IH]; [intros []|].
  intros Hin. cbn [remove_one].
  destruct (Z.eqb_spec y m) as [->|Hne].
  - cbn [count_occ]. destruct (Z.eq_dec m x), (Z.eqb_spec m x); lia.
  - destruct Hin as [E|Hin]; [congruence|]. specialize (IH Hin).
    cbn [count_occ]. destruct (Z.eq_dec y x); lia.
Qed.

Lemma length_remove_one m l :
  In m l -> S (length (remove_one m l)) = length l.
Proof.
  induction l as [|y l IH]; [intros []|].
  intros Hin. cbn [remove_one].
  destruct (Z.eqb_spec y m) as [->|Hne]; [reflexivity|].
  destruct Hin as [E|Hin]; [congruence|].
  cbn [length]. rewrite (IH Hin). reflexivity.
Qed.

(** *** The root of an ordered heap *)

Lemma heap_ordered_root a n :
  heap_ordered a n -> forall i, 0 <= i < n -> sel a i <= sel a 0.
Proof.
  intros Ho i Hi. destruct Hi as [Hi0 Hin]. revert Hin.
  pattern i. apply (Zlt_0_ind); [|exact Hi0].
  clear i Hi0. intros i IH Hi0 Hin.
  destruct (Z.eq_dec i 0) as [->|Hne]; [lia|].
  assert (Hq : 0 <= (i - 1) / 2 < i) by (Z.div_mod_to_equations; lia).
  pose proof (Ho i ltac:(lia)).
  pose proof (IH ((i - 1) / 2) Hq ltac:(lia)). lia.
Qed.

Lemma heap_inv_top h x bag :
  heap_inv h (x :: bag) -> sel (array h) 0 = maximum x bag.
Proof.
  intros [Hlen Hcount Hbound Horder Hcontent].
  cbn [length] in Hcount.
  destruct (maximum_spec bag x) as (Hin & Hmax).
  assert (Hbag : forall y, In y (x :: bag) <->
                           exists i, 0 <= i < nb_elements h /\
                                     sel (array h) i = y).
  { intros y. rewrite (count_occ_In Z.eq_dec), Hcount.
    rewrite <- (occ_positive (array h) (length (x :: bag)) y), Hcontent.
    cbn [length]. lia. }
  apply Z.le_antisymm.
  - apply Hmax, Hbag. exists 0. split; [lia|reflexivity].
  - apply Hbag in Hin. destruct Hin as (i & Hi & <-).
    apply (heap_ordered_root _ _ Horder). exact Hi.
Qed.

(** *** The three operations *)

Lemma heap_create_inv contents :
  Z.of_nat (length contents) = HEAP_MAX_SIZE ->
  heap_inv (heap_create_with contents) [].
Proof.
  intros Hlen. split; cbn; try assumption; try reflexivity.
  - unfold HEAP_MAX_SIZE. lia.
  - intros i Hi. lia.
Qed.

Lemma heap_add_correct h bag value :
  heap_inv h bag -> nb_elements h < HEAP_MAX_SIZE ->
  exists h', heap_add value h = Ok h' /\ heap_inv h' (value :: bag).
Proof.
  intros [Hlen Hcount Hbound Horder Hcontent] Hroom.
  unfold heap_add.
  destruct (Z.ltb_spec (nb_elements h) HEAP_MAX_SIZE) as [_|]; [|lia].
  set (n := nb_elements h) in *.
  assert (Hn0 : 0 <= n) by lia.
  rewrite (write_in_bounds (array h) n value) by lia. cbn [bind].
  destruct (sift_up_correct (S (Z.to_nat n)) (upd (array h) n value)
              n (n + 1)) as (a' & E & Hlen' & Ho & Hocc).
  - lia.
  - rewrite length_upd. lia.
  - lia.
  - split.
    + intros j Hj Hne.
      assert (Hq : 0 <= (j - 1) / 2 < j) by (Z.div_mod_to_equations; lia).
      rewrite !sel_upd by lia.
      pose proof (Horder j ltac:(lia)). zcases.
    + intros j Hj Ej _. exfalso. Z.div_mod_to_equations. lia.
  - rewrite E. cbn [bind]. eexists. split; [reflexivity|].
    rewrite length_upd in Hlen'.
    split; cbn [array nb_elements length].
    + rewrite Hlen'. exact Hlen.
    + lia.
    + lia.
    + exact Ho.
    + intros x.
      replace (S (length bag)) with (Z.to_nat (n + 1)) by lia.
      rewrite Hocc.
      replace (Z.to_nat (n + 1)) with (S (length bag)) by lia.
      cbn [occ]. rewrite occ_upd by lia.
      rewrite sel_upd by lia. rewrite Hcontent.
      replace (Z.of_nat (length bag)) with n by lia.
      rewrite Z.ltb_irrefl, Z.eqb_refl.
      cbn [count_occ]. destruct (Z.eq_dec value x), (Z.eqb_spec value x);
        lia.
Qed.

Lemma heap_remove_correct h bag :
  heap_inv h bag -> 0 < nb_elements h ->
  exists h', heap_remove h = Ok h' /\
             heap_inv h' (remove_one (sel (array h) 0) bag).
Proof.
  intros [Hlen Hcount Hbound Horder Hcontent] Hpos.
  unfold heap_remove.
  set (n := nb_elements h) in *.
  rewrite (read_in_bounds (array h) (n - 1)) by lia. cbn [bind].
  rewrite (write_in_bounds (array h) 0) by lia. cbn [bind].
  set (last := sel (array h) (n - 1)).
  assert (Hin : In (sel (array h) 0) bag).
  { apply (count_occ_In Z.eq_dec).
    assert (0 < Z.of_nat (count_occ Z.eq_dec bag (sel (array h) 0)));
      [|lia].
    rewrite <- Hcontent.
    apply occ_positive. exists 0. split; [lia|reflexivity]. }
  pose proof (length_remove_one _ _ Hin) as Hlen1.
  destruct (sift_down_correct (S (Z.to_nat (n - 1)))
              (upd (array h) 0 last) 0 (n - 1))
    as (a' & E & Hlen' & Ho & Hocc).
  - lia.
  - rewrite length_upd. lia.
  - lia.
  - split.
    + intros j Hj Hne.
      assert (Hq : 0 <= (j - 1) / 2 < j) by (Z.div_mod_to_equations; lia).
      rewrite !sel_upd by lia.
      pose proof (Horder j ltac:(lia)). zcases.
    + intros j Hj Ej Hfalse. lia.
  - rewrite E. cbn [bind]. eexists. split; [reflexivity|].
    rewrite length_upd in Hlen'.
    split; cbn [array nb_elements].
    + rewrite Hlen'. exact Hlen.
    + lia.
    + lia.
    + exact Ho.
    + intros x. rewrite (count_occ_remove_one _ _ x Hin).
      replace (length (remove_one (sel (array h) 0) bag))
        with (Z.to_nat (n - 1)) by lia.
      rewrite Hocc, occ_upd by lia.
      specialize (Hcontent x).
      replace (length bag) with (S (Z.to_nat (n - 1))) in Hcontent by lia.
      cbn [occ] in Hcontent.
      replace (Z.of_nat (Z.to_nat (n - 1))) with (n - 1) in * by lia.
      fold last in Hcontent.
      destruct (Z.ltb_spec 0 (n - 1)) as [Hbig|Hsmall].
      * lia.
      * assert (n = 1) by lia. subst last.
        replace (n - 1) with 0 in * by lia.
        replace (Z.to_nat 0) with O in * by reflexivity.
        cbn [occ] in *. lia.
Qed.

Lemma heap_peek_correct h x bag :
  heap_inv h (x :: bag) -> heap_peek h = Ok (maximum x bag).
Proof.
  intros Hinv. rewrite <- (heap_inv_top h x bag Hinv).
  destruct Hinv as [Hlen Hcount Hbound _ _]. cbn [length] in Hcount.
  unfold heap_peek, heap_empty.
  destruct (Z.eqb_spec (nb_elements h) 0); [lia|]. cbn [negb].
  apply read_in_bounds. unfold HEAP_MAX_SIZE in *. lia.
Qed.

(** A sequence of operations that respects the preconditions runs to
    its end, and the heap then holds the pending elements. *)
Lemma run_correct ops : forall h bag bag',
  heap_inv h bag -> pending ops bag = Some bag' ->
  exists h', run ops h = Ok h' /\ heap_inv h' bag'.
Proof.
  induction ops as [|[value|] ops IH]; intros h bag bag' Hinv Hp;
    cbn [pending run] in *.
  - injection Hp as <-. eauto.
  - destruct (Z.ltb_spec (Z.of_nat (length bag)) HEAP_MAX_SIZE)
      as [Hroom|]; [|discriminate].
    destruct (heap_add_correct h bag value Hinv) as (h1 & -> & Hinv1).
    { rewrite (inv_count _ _ Hinv). exact Hroom. }
    cbn [bind]. eapply IH; eassumption.
  - destruct bag as [|x bag]; [discriminate|].
    destruct (heap_remove_correct h (x :: bag) Hinv) as (h1 & -> & Hinv1).
    { rewrite (inv_count _ _ Hinv). cbn [length]. lia. }
    cbn [bind]. rewrite (heap_inv_top h x bag Hinv) in Hinv1.
    eapply IH; eassumption.
Qed.

(** [heap_remove] contains no assertion on the number of elements: no
    call of it ends on a failed assertion. *)
Lemma read_never_asserts a i : read a i <> AssertFail.
Proof.
  unfold read. destruct (i <? 0); [discriminate|].
  destruct (a !! Z.to_nat i); discriminate.
Qed.

Lemma write_never_asserts a i v : write a i v <> AssertFail.
Proof.
  unfold write. destruct ((i <? 0) || (Z.of_nat (length a) <=? i));
    discriminate.
Qed.

Lemma swap_never_asserts a i j : swap a i j <> AssertFail.
Proof.
  unfold swap.
  pose proof (read_never_asserts a i). destruct (read a i); try easy.
  cbn [bind].
  pose proof (read_never_asserts a j). destruct (read a j); try easy.
  cbn [bind].
  pose proof (write_never_asserts a i a1).
  destruct (write a i a1); try easy.
  cbn [bind]. apply write_never_asserts.
Qed.

Lemma sift_down_never_asserts fuel : forall a n i,
  sift_down fuel a n i <> AssertFail.
Proof.
  induction fuel as [|fuel IH]; intros a n i; cbn [sift_down];
    [discriminate|].
  destruct (i <? n); [|discriminate].
  assert (Hpick : forall c k,
             (if c <? n
              then let* x := read a c in
                   let* y := read a k in
                   Ok (if x >? y then c else k)
              else Ok k) <> AssertFail).
  { intros c k. destruct (c <? n); [|discriminate].
    pose proof (read_never_asserts a c). destruct (read a c); try easy.
    cbn [bind].
    pose proof (read_never_asserts a k). destruct (read a k); try easy. }
  pose proof (Hpick (i * 2 + 1) i) as H1.
  destruct (if i * 2 + 1 <? n then _ else _) as [k1| | |]; try easy.
  cbn [bind].
  pose proof (Hpick (i * 2 + 2) k1) as H2.
  destruct (if i * 2 + 2 <? n then _ else _) as [k2| | |]; try easy.
  cbn [bind].
  destruct (k2 =? i); [discriminate|].
  pose proof (swap_never_asserts a i k2).
  destruct (swap a i k2); try easy. cbn [bind]. apply IH.
Qed.

Lemma heap_remove_never_asserts h : heap_remove h <> AssertFail.
Proof.
  unfold heap_remove.
  pose proof (read_never_asserts (array h) (nb_elements h - 1)).
  destruct (read (array h) (nb_elements h - 1)); try easy. cbn [bind].
  pose proof (write_never_asserts (array h) 0 a).
  destruct (write (array h) 0 a) as [a1| | |]; try easy. cbn [bind].
  pose proof (sift_down_never_asserts
                (S (Z.to_nat (nb_elements h - 1))) a1
                (nb_elements h - 1) 0).
  destruct (sift_down _ a1 _ 0); try easy.
Qed.

(** *** Heapsort *)

Lemma occ_ext a b n x :
  (forall i, 0 <= i < Z.of_nat n -> sel a i = sel b i) ->
  occ a n x = occ b n x.
Proof.
  induction n as [|n IH]; intros H; cbn [occ]; [reflexivity|].
  rewrite IH by (intros i Hi; apply H; lia).
  rewrite (H (Z.of_nat n)) by lia. reflexivity.
Qed.

Lemma sel_app_l a b i :
  0 <= i < Z.of_nat (length a) -> sel (a ++ b) i = sel a i.
Proof. intros Hi. unfold sel. rewrite lookup_app_l by lia. reflexivity. Qed.

Lemma sel_middle a y b : sel (a ++ y :: b) (Z.of_nat (length a)) = y.
Proof.
  unfold sel. rewrite Nat2Z.id, (list_lookup_middle a b y) by reflexivity.
  reflexivity.
Qed.

Lemma sel_cons y a i : 0 <= i -> sel (y :: a) (i + 1) = sel a i.
Proof.
  intros Hi. unfold sel.
  replace (Z.to_nat (i + 1)) with (S (Z.to_nat i)) by lia. reflexivity.
Qed.

(** Counting over the whole array is counting in the list. *)
Lemma occ_count_occ a x :
  occ a (length a) x = Z.of_nat (count_occ Z.eq_dec a x).
Proof.
  induction a as [|y a IH] using rev_ind; [reflexivity|].
  rewrite length_app, Nat.add_1_r. cbn [occ length].
  rewrite sel_middle, count_occ_app.
  rewrite (occ_ext (a ++ [y]) a) by (intros i Hi; apply sel_app_l; lia).
  rewrite IH. cbn [count_occ].
  destruct (Z.eq_dec y x), (Z.eqb_spec y x); lia.
Qed.

Lemma sorted_from_sel a :
  (forall i j, 0 <= i <= j -> j < Z.of_nat (length a) ->
               sel a i <= sel a j) ->
  StronglySorted Z.le a.
Proof.
  induction a as [|y a IH]; intros H; [constructor|].
  constructor.
  - apply IH. intros i j Hij Hj.
    rewrite <- (sel_cons y a i), <- (sel_cons y a j) by lia.
    apply H; cbn [length]; lia.
  - apply Forall_forall. intros z Hz.
    apply list_elem_of_In, list_elem_of_lookup in Hz.
    destruct Hz as (k & Hk).
    pose proof (lookup_lt_Some _ _ _ Hk) as Hlt.
    specialize (H 0 (Z.of_nat k + 1) ltac:(lia)
                  ltac:(cbn [length]; lia)).
    rewrite sel_cons in H by lia.
    unfold sel in H. rewrite Nat2Z.id, Hk in H. exact H.
Qed.

Import Heapsort.

(** The first loop adds the elements of the array one by one. *)
Lemma fill_correct suffix : forall prefix h bag,
  heap_inv h bag ->
  Z.of_nat (length bag) + Z.of_nat (length suffix) <= HEAP_MAX_SIZE ->
  exists h',
    fill (length suffix) (Z.of_nat (length prefix)) (prefix ++ suffix) h
      = Ok h' /\
    heap_inv h' (rev suffix ++ bag).
Proof.
  induction suffix as [|x suffix IH]; intros prefix h bag Hinv Hroom.
  - exists h. split; [reflexivity|exact Hinv].
  - cbn [length fill] in *.
    rewrite read_in_bounds by (rewrite length_app; cbn [length]; lia).
    rewrite sel_middle. cbn [bind].
    destruct (heap_add_correct h bag x Hinv) as (h1 & -> & Hinv1).
    { rewrite (inv_count _ _ Hinv). lia. }
    cbn [bind].
    destruct (IH (prefix ++ [x]) h1 (x :: bag) Hinv1) as (h' & E & Hinv').
    { cbn [length]. lia. }
    exists h'. split.
    + rewrite <- E, length_app, <- app_assoc. cbn [length app].
      f_equal. lia.
    + cbn [rev]. rewrite <- app_assoc. exact Hinv'.
Qed.

(** The second loop writes the maxima from the last slot down: the slots
    it has not reached yet are untouched, the slots it wrote are in
    ascending order and hold the elements the heap held. *)
Lemma drain_correct k : forall h bag a,
  heap_inv h bag -> length bag = k -> (k <= length a)%nat ->
  exists a',
    drain k a h = Ok a' /\
    length a' = length a /\
    (forall j, Z.of_nat k <= j -> sel a' j = sel a j) /\
    (forall i j, 0 <= i <= j -> j < Z.of_nat k -> sel a' i <= sel a' j) /\
    forall x, occ a' k x = Z.of_nat (count_occ Z.eq_dec bag x).
Proof.
  induction k as [|k IH]; intros h bag a Hinv Hlen Hk.
  - exists a. split; [reflexivity|]. split; [reflexivity|].
    split; [reflexivity|]. split; [intros; lia|].
    intros x. destruct bag; [reflexivity|discriminate].
  - destruct bag as [|y bag]; [discriminate|].
    cbn [drain].
    rewrite (heap_peek_correct h y bag Hinv). cbn [bind].
    set (m := maximum y bag).
    rewrite write_in_bounds by lia. cbn [bind].
    destruct (heap_remove_correct h (y :: bag) Hinv) as (h1 & -> & Hinv1).
    { rewrite (inv_count _ _ Hinv). cbn [length]. lia. }
    cbn [bind]. rewrite (heap_inv_top h y bag Hinv) in Hinv1. fold m in Hinv1.
    destruct (maximum_spec bag y) as (Hin & Hmax). fold m in Hin, Hmax.
    pose proof (length_remove_one _ _ Hin) as Hlen1.
    destruct (IH h1 (remove_one m (y :: bag)) (upd a (Z.of_nat k) m) Hinv1)
      as (a' & E & Hlen' & Hkeep & Hsorted & Hocc).
    { lia. }
    { rewrite length_upd. lia. }
    rewrite length_upd in Hlen'.
    assert (Hlast : sel a' (Z.of_nat k) = m).
    { rewrite Hkeep by lia. rewrite sel_upd by lia.
      rewrite Z.eqb_refl. reflexivity. }
    exists a'. split; [exact E|]. split; [exact Hlen'|]. split; [|split].
    + intros j Hj. rewrite Hkeep by lia. rewrite sel_upd by lia.
      destruct (Z.eqb_spec j (Z.of_nat k)); [lia|reflexivity].
    + intros i j Hij Hj.
      destruct (Z.eq_dec j (Z.of_nat k)) as [->|Hne].
      * rewrite Hlast.
        destruct (Z.eq_dec i (Z.of_nat k)) as [->|Hne']; [lia|].
        apply Hmax.
        assert (Hin' : In (sel a' i) (remove_one m (y :: bag))).
        { apply (count_occ_In Z.eq_dec).
          assert (0 < Z.of_nat (count_occ Z.eq_dec
                                  (remove_one m (y :: bag)) (sel a' i)));
            [|lia].
          rewrite <- Hocc. apply occ_positive. exists i.
          split; [lia|reflexivity]. }
        apply (count_occ_In Z.eq_dec) in Hin'.
        apply (count_occ_In Z.eq_dec).
        pose proof (count_occ_remove_one m (y :: bag) (sel a' i) Hin).
        destruct (m =? sel a' i); lia.
      * apply Hsorted; lia.
    + intros x. cbn [occ]. rewrite Hlast, Hocc.
      rewrite (count_occ_remove_one m (y :: bag) x Hin). lia.
Qed.

Lemma my_heapsort_correct contents array :
  Z.of_nat (length contents) = HEAP_MAX_SIZE ->
  Z.of_nat (length array) <= HEAP_MAX_SIZE ->
  exists sorted,
    my_heapsort contents array (Z.of_nat (length array)) = Ok sorted /\
    StronglySorted Z.le sorted /\ Permutation sorted array.
Proof.
  intros Hc Hn. unfold my_heapsort. rewrite Nat2Z.id.
  destruct (fill_correct array [] (heap_create_with contents) []
              (heap_create_inv contents Hc)) as (h & E & Hinv).
  { cbn [length]. lia. }
  cbn [length app] in E. change (Z.of_nat 0) with 0 in E.
  rewrite E. cbn [bind].
  rewrite app_nil_r in Hinv.
  destruct (drain_correct (length array) h (rev array) array Hinv)
    as (a' & E' & Hlen & _ & Hsorted & Hocc).
  { apply length_rev. }
  { lia. }
  exists a'. split; [exact E'|]. split.
  - apply sorted_from_sel. intros i j Hij Hj. apply Hsorted; lia.
  - apply (Permutation_count_occ Z.eq_dec). intros x.
    apply Nat2Z.inj. rewrite <- occ_count_occ, Hlen, Hocc, count_occ_rev.
    reflexivity.
Qed.

End HeapFacts.

(** C7.  Whatever the initial contents of the array, a sequence of
    [heap_add] and [heap_remove] that stays within the capacity and never
    removes from an empty heap runs to its end, and [heap_peek] on the
    resulting heap, when elements are pending, returns the maximum of the
    elements added and not yet removed.  In particular after adding 4, 5,
    6, 6, 7, peek returns 7, and after one remove, peek returns 6. *)
Theorem heap_peek_returns_the_maximum
  (contents : list Z) (ops : list Heap.op) (x : Z) (bag : list Z) :
  Z.of_nat (length contents) = Heap.HEAP_MAX_SIZE ->
  Heap.pending ops [] = Some (x :: bag) ->
  (exists h,
      Heap.run ops (Heap.heap_create_with contents) = Heap.Ok h /\
      Heap.heap_peek h = Heap.Ok (Heap.maximum x bag) /\
      In (Heap.maximum x bag) (x :: bag) /\
      forall y, In y (x :: bag) -> y <= Heap.maximum x bag) /\
  (let adds := [Heap.Add 4; Heap.Add 5; Heap.Add 6; Heap.Add 6; Heap.Add 7] in
   Heap.bind (Heap.run adds Heap.heap_create) Heap.heap_peek = Heap.Ok 7 /\
   Heap.bind (Heap.run (adds ++ [Heap.Remove]) Heap.heap_create)
     Heap.heap_peek = Heap.Ok 6).
Proof.
  intros Hlen Hp. split.
  - destruct (run_correct ops (Heap.heap_create_with contents) [] (x :: bag)
                (heap_create_inv contents Hlen) Hp) as (h & Hrun & Hinv).
    exists h. split; [exact Hrun|].
    split; [apply heap_peek_correct, Hinv|]. apply maximum_spec.
  - split; vm_compute; reflexivity.
Qed.

Lemma heap_peek_returns_the_maximum_witness :
  Z.of_nat (length (repeat 0 1000%nat)) = Heap.HEAP_MAX_SIZE /\
  Heap.pending
    [Heap.Add 4; Heap.Add 5; Heap.Add 6; Heap.Add 6; Heap.Add 7; Heap.Remove]
    [] = Some [6; 6; 5; 4] /\
  ((exists h,
       Heap.run
         [Heap.Add 4; Heap.Add 5; Heap.Add 6; Heap.Add 6; Heap.Add 7;
          Heap.Remove]
         (Heap.heap_create_with (repeat 0 1000%nat)) = Heap.Ok h /\
       Heap.heap_peek h = Heap.Ok (Heap.maximum 6 [6; 5; 4]) /\
       In (Heap.maximum 6 [6; 5; 4]) [6; 6; 5; 4] /\
       forall y, In y [6; 6; 5; 4] -> y <= Heap.maximum 6 [6; 5; 4]) /\
   (let adds :=
      [Heap.Add 4; Heap.Add 5; Heap.Add 6; Heap.Add 6; Heap.Add 7] in
    Heap.bind (Heap.run adds Heap.heap_create) Heap.heap_peek = Heap.Ok 7 /\
    Heap.bind (Heap.run (adds ++ [Heap.Remove]) Heap.heap_create)
      Heap.heap_peek = Heap.Ok 6)).
Proof.
  split; [vm_compute; reflexivity|].
  split; [vm_compute; reflexivity|].
  apply (heap_peek_returns_the_maximum (repeat 0 1000%nat)
           [Heap.Add 4; Heap.Add 5; Heap.Add 6; Heap.Add 6; Heap.Add 7;
            Heap.Remove] 6 [6; 5; 4]);
    vm_compute; reflexivity.
Defined.

(** C8, evaluated on the file as it is.  [heap_peek] on an empty heap and
    [heap_add] on a full heap stop on their assertion.  [heap_remove]
    asserts only that the heap pointer is not NULL: on the empty heap it
    reads the slot of index -1, outside the array, and no call of it ever
    ends on a failed assertion. *)
Theorem heap_remove_on_empty_heap_does_not_assert :
  Heap.heap_peek Heap.heap_create = Heap.AssertFail /\
  Heap.heap_add 1 full_heap = Heap.AssertFail /\
  Heap.heap_remove Heap.heap_create = Heap.OutOfBounds /\
  (forall h, Heap.heap_remove h <> Heap.AssertFail).
Proof.
  split; [reflexivity|]. split; [reflexivity|]. split; [reflexivity|].
  apply heap_remove_never_asserts.
Qed.

(** ** [binary_tree_free] and the memory *)

Section FreeFacts.
Context {T : Type}.
Implicit Types s f : gmap Mem.loc (Mem.cell T).

Lemma owns_null_inv s (t : binary_tree_s T) :
  Mem.owns s None t -> s = ∅ /\ t = Leaf.
Proof. inversion 1. auto. Qed.

(** Freeing a tree that owns its cells, in a store that holds other cells
    too: the call returns, and what is left is exactly the other cells. *)
Lemma binary_tree_free_owned s p (t : binary_tree_s T) :
  Mem.owns s p t ->
  forall fuel f, (size t < fuel)%nat -> s ##ₘ f ->
    Mem.binary_tree_free fuel p (s ∪ f) = Some (tt, f).
Proof.
  induction 1 as [|p c l r sl sr Hl IHl Hr IHr Hdisj Hpl Hpr];
    intros fuel f Hfuel Hf;
    (destruct fuel as [|fuel]; [lia|]); cbn [Mem.binary_tree_free].
  - rewrite (left_id_L ∅ (∪)). reflexivity.
  - cbn [size] in Hfuel.
    assert (Hpf : f !! p = None).
    { eapply map_disjoint_Some_l; [exact Hf|]. apply lookup_insert_eq. }
    assert (Hlf : sl ##ₘ f).
    { eapply map_disjoint_weaken_l; [exact Hf|].
      etrans; [apply map_union_subseteq_l|]. apply insert_subseteq.
      apply lookup_union_None. auto. }
    assert (Hrf : sr ##ₘ f).
    { eapply map_disjoint_weaken_l; [exact Hf|].
      etrans; [apply (map_union_subseteq_r _ _ Hdisj)|]. apply insert_subseteq.
      apply lookup_union_None. auto. }
    (* the store, with the cells of the left subtree in front *)
    assert (E1 : <[p:=c]> (sl ∪ sr) ∪ f = sl ∪ (<[p:=c]> sr ∪ f)).
    { rewrite (insert_union_r sl sr p c Hpl). rewrite (assoc_L (∪)).
      reflexivity. }
    assert (D1 : sl ##ₘ <[p:=c]> sr ∪ f).
    { apply map_disjoint_union_r. split; [|exact Hlf].
      apply map_disjoint_insert_r. auto. }
    (* and after the left subtree is gone, those of the right subtree *)
    assert (E2 : <[p:=c]> sr ∪ f = sr ∪ (<[p:=c]> f)).
    { rewrite <- (insert_union_l sr f p c).
      rewrite (insert_union_r sr f p c Hpr). reflexivity. }
    assert (D2 : sr ##ₘ <[p:=c]> f).
    { apply map_disjoint_insert_r. auto. }
    unfold Mem.bindM at 1. unfold Mem.load at 1.
    rewrite (lookup_union_Some_l _ f p c) by apply lookup_insert_eq.
    (* left subtree *)
    assert (Left : (match Mem.c_left c with
                    | Some _ => Mem.binary_tree_free fuel (Mem.c_left c)
                    | None => Mem.ret tt
                    end) (<[p:=c]> (sl ∪ sr) ∪ f)
                   = Some (tt, <[p:=c]> sr ∪ f)).
    { rewrite E1. destruct (Mem.c_left c) as [q|] eqn:Eq.
      - apply IHl; [lia|exact D1].
      - destruct (owns_null_inv _ _ Hl) as (-> & _).
        rewrite (left_id_L ∅ (∪)). reflexivity. }
    unfold Mem.bindM at 1. rewrite Left.
    unfold Mem.bindM at 1. unfold Mem.load at 1.
    rewrite (lookup_union_Some_l _ f p c) by apply lookup_insert_eq.
    (* right subtree *)
    assert (Right : (match Mem.c_right c with
                     | Some _ => Mem.binary_tree_free fuel (Mem.c_right c)
                     | None => Mem.ret tt
                     end) (<[p:=c]> sr ∪ f)
                    = Some (tt, <[p:=c]> f)).
    { rewrite E2. destruct (Mem.c_right c) as [q|] eqn:Eq.
      - apply IHr; [lia|exact D2].
      - destruct (owns_null_inv _ _ Hr) as (-> & _).
        rewrite (left_id_L ∅ (∪)). reflexivity. }
    unfold Mem.bindM at 1. rewrite Right.
    unfold Mem.release. rewrite lookup_insert_eq.
    rewrite delete_insert_id by exact Hpf. reflexivity.
Qed.

End FreeFacts.

(** ** Priority queue *)

Lemma sorted_lists_equal (xs : list Z) : forall ys,
  StronglySorted Z.lt xs -> StronglySorted Z.lt ys ->
  (forall x, In x xs <-> In x ys) -> xs = ys.
Proof.
  induction xs as [|a xs IH]; intros ys Sx Sy H.
  - destruct ys as [|b ys]; [reflexivity|].
    destruct (proj2 (H b) (or_introl eq_refl)).
  - destruct ys as [|b ys].
    { destruct (proj1 (H a) (or_introl eq_refl)). }
    apply StronglySorted_inv in Sx. destruct Sx as (Sx & Fx).
    apply StronglySorted_inv in Sy. destruct Sy as (Sy & Fy).
    rewrite Forall_forall in Fx, Fy.
    assert (a = b) as ->.
    { destruct (proj1 (H a) (or_introl eq_refl)) as [E|Ha]; [auto|].
      destruct (proj2 (H b) (or_introl eq_refl)) as [E|Hb]; [auto|].
      apply Fy in Ha. apply Fx in Hb. lia. }
    f_equal. apply IH; [assumption|assumption|].
    intros x. split; intros Hx.
    + destruct (proj1 (H x) (or_intror Hx)) as [E|Hx']; [|exact Hx'].
      apply Fx in Hx. lia.
    + destruct (proj2 (H x) (or_intror Hx)) as [E|Hx']; [|exact Hx'].
      apply Fy in Hx. lia.
Qed.

Section QueueFacts.
Context {T : Type}.
Variable add_node : Z -> binary_tree_s T -> binary_tree_s T.
Variable remove_node : Z -> binary_tree_s T -> option (binary_tree_s T).

Hypothesis add_node_spec : forall t value,
  bst t ->
  bst (add_node value t) /\
  forall x, occurs x (add_node value t) <-> (x = value \/ occurs x t).

Hypothesis remove_node_spec : forall t value,
  bst t ->
  exists t', remove_node value t = Some t' /\ bst t' /\
             forall x, occurs x t' <-> (occurs x t /\ x <> value).

Implicit Types q : Queue.queue_s T.

Lemma queue_empty_iff q :
  Queue.queue_empty q = true <-> Queue.inner_bst q = Leaf.
Proof.
  unfold Queue.queue_empty. rewrite Z.eqb_eq.
  destruct (Queue.inner_bst q) as [|v c l r]; [tauto|].
  rewrite binary_tree_nodes_size. cbn [size]. split; [lia|discriminate].
Qed.

Lemma queue_enqueue_spec q value :
  bst (Queue.inner_bst q) ->
  bst (Queue.inner_bst (Queue.queue_enqueue add_node value q)) /\
  StronglySorted Z.lt
    (Queue.queue_print (Queue.queue_enqueue add_node value q)) /\
  (forall x, In x (Queue.queue_print (Queue.queue_enqueue add_node value q))
             <-> x = value \/ In x (Queue.queue_print q)) /\
  (In value (Queue.queue_print q) ->
   Queue.queue_print (Queue.queue_enqueue add_node value q)
   = Queue.queue_print q).
Proof.
  intros B. unfold Queue.queue_print, Queue.queue_enqueue.
  cbn [Queue.inner_bst].
  destruct (add_node_spec (Queue.inner_bst q) value B) as (B' & O).
  assert (Hin : forall x,
             In x (dump_tree (add_node value (Queue.inner_bst q)) true)
             <-> x = value \/ In x (dump_tree (Queue.inner_bst q) true)).
  { intros x. rewrite !occurs_dump_tree. apply O. }
  split; [exact B'|]. split; [apply dump_tree_ascending_sorted, B'|].
  split; [exact Hin|].
  intros Hv. apply sorted_lists_equal;
    try (apply dump_tree_ascending_sorted; assumption).
  intros x. rewrite Hin. split; [intros [->|?]; assumption|auto].
Qed.

Lemma queue_dequeue_spec q :
  bst (Queue.inner_bst q) -> Queue.queue_empty q = false ->
  exists head rest q',
    Queue.queue_print q = head :: rest /\
    Queue.queue_peek q = Some head /\
    Queue.queue_dequeue remove_node q = Some q' /\
    bst (Queue.inner_bst q') /\
    Queue.queue_print q' = rest.
Proof.
  intros B Hne. unfold Queue.queue_dequeue, Queue.queue_peek.
  rewrite Hne. cbn [negb]. unfold Queue.queue_print.
  destruct (Queue.inner_bst q) as [|v c l r] eqn:Et.
  { assert (Queue.queue_empty q = true) by (apply queue_empty_iff, Et).
    congruence. }
  destruct (min_value_node_some v c l r) as (m & Hm & Om).
  pose proof (min_value_node_head (Node v c l r)) as Hhead.
  rewrite Hm in Hhead.
  destruct (dump_tree (Node v c l r) true) as [|m' rest] eqn:Ed;
    [discriminate|].
  cbn in Hhead. injection Hhead as <-.
  destruct (remove_node_spec (Node v c l r) m B) as (t' & Er & B' & O').
  exists m, rest, {| Queue.inner_bst := t' |}.
  rewrite Hm. cbn [bind_opt]. rewrite Er. cbn [bind_opt Queue.inner_bst].
  split; [reflexivity|]. split; [reflexivity|]. split; [reflexivity|].
  split; [exact B'|].
  pose proof (dump_tree_ascending_sorted _ B) as S. rewrite Ed in S.
  apply StronglySorted_inv in S. destruct S as (S & F).
  rewrite Forall_forall in F.
  apply sorted_lists_equal;
    [apply dump_tree_ascending_sorted, B'|exact S|].
  intros x. rewrite occurs_dump_tree, O', <- (occurs_dump_tree x _ true), Ed.
  cbn [In]. split.
  - intros [[E|Hx] Hne']; [congruence|exact Hx].
  - intros Hx. split; [auto|]. apply F in Hx. lia.
Qed.

End QueueFacts.

(** ** The argument test of the drivers *)

Section CliFacts.
Import Cli.

Lemma skip_digits_nil s : skip_digits s = [] <-> digits s.
Proof.
  unfold digits. induction s as [|c s IH]; cbn [skip_digits].
  - split; [constructor|reflexivity].
  - destruct (is_digit c) eqn:Ec.
    + rewrite IH. split; [intros H; constructor; assumption|].
      intros H. apply Forall_inv_tail in H. exact H.
    + split; [discriminate|]. intros H. apply Forall_inv in H. congruence.
Qed.

Lemma skip_blanks_nil s : skip_blanks s = [] <-> blanks s.
Proof.
  unfold blanks. induction s as [|c s IH]; cbn [skip_blanks].
  - split; [constructor|reflexivity].
  - destruct (is_blank c) eqn:Ec.
    + rewrite IH. split; [intros H; constructor; assumption|].
      intros H. apply Forall_inv_tail in H. exact H.
    + split; [discriminate|]. intros H. apply Forall_inv in H. congruence.
Qed.

Lemma digit_not_minus c : is_digit c = true -> Ascii.eqb c "-" = false.
Proof.
  intros H. destruct (Ascii.eqb_spec c "-") as [->|]; [|reflexivity].
  vm_compute in H. discriminate.
Qed.

Lemma blank_not_minus c : is_blank c = true -> Ascii.eqb c "-" = false.
Proof.
  intros H. destruct (Ascii.eqb_spec c "-") as [->|]; [|reflexivity].
  vm_compute in H. discriminate.
Qed.

Lemma blank_not_digit c : is_blank c = true -> is_digit c = false.
Proof.
  unfold is_blank. intros H.
  apply orb_prop in H. destruct H as [H|H];
    [apply orb_prop in H; destruct H as [H|H]|];
    apply Ascii.eqb_eq in H; subst c; reflexivity.
Qed.

Lemma skip_digits_blanks_nil s :
  skip_blanks (skip_digits s) = [] <->
  exists ds bs, s = ds ++ bs /\ digits ds /\ blanks bs.
Proof.
  split.
  - induction s as [|c s IH]; intros H.
    + exists [], []. repeat split; constructor.
    + cbn [skip_digits] in H. destruct (is_digit c) eqn:Ec.
      * destruct (IH H) as (ds & bs & -> & Hd & Hb).
        exists (c :: ds), bs. repeat split; [constructor|]; assumption.
      * exists [], (c :: s). split; [reflexivity|].
        split; [constructor|]. apply skip_blanks_nil, H.
  - intros (ds & bs & -> & Hd & Hb). induction Hd as [|c ds Hc Hd IH].
    + cbn [app]. destruct Hb as [|b bs Hb0 Hb]; [reflexivity|].
      cbn [skip_digits]. rewrite (blank_not_digit b Hb0).
      apply skip_blanks_nil. constructor; assumption.
    + cbn [app skip_digits]. rewrite Hc. exact IH.
Qed.

End CliFacts.

(** * Further properties of the code *)

(** ** Traversal, search and minimum (simple_bst.c, avl_bst.c) *)

(** X1.  The descending traversal of [dump_tree] writes the values of the
    ascending one in the reverse order, on every tree. *)
Theorem dump_tree_descending_is_reverse
  {T : Type} (t : binary_tree_s T) :
  dump_tree t false = rev (dump_tree t true).
Proof. apply dump_tree_descending. Qed.

(** X2.  On a search tree [dump_tree] writes a strictly increasing sequence
    in ascending mode and a strictly decreasing one in descending mode. *)
Theorem dump_tree_of_search_tree_is_sorted
  {T : Type} (t : binary_tree_s T) :
  bst t ->
  StronglySorted Z.lt (dump_tree t true) /\
  StronglySorted Z.gt (dump_tree t false).
Proof.
  intros B. split;
    [apply dump_tree_ascending_sorted|apply dump_tree_descending_sorted];
    exact B.
Qed.

Lemma dump_tree_of_search_tree_is_sorted_witness :
  bst simple_5_3_8_1_4 /\
  (StronglySorted Z.lt (dump_tree simple_5_3_8_1_4 true) /\
   StronglySorted Z.gt (dump_tree simple_5_3_8_1_4 false)).
Proof.
  split; [exact simple_5_3_8_1_4_bst|].
  exact (dump_tree_of_search_tree_is_sorted simple_5_3_8_1_4
           simple_5_3_8_1_4_bst).
Defined.

(** X3.  [binary_tree_nodes] is the number of values [dump_tree] writes, in
    either direction. *)
Theorem node_count_is_traversal_length
  {T : Type} (t : binary_tree_s T) (ascending : bool) :
  binary_tree_nodes t = Z.of_nat (length (dump_tree t ascending)).
Proof. symmetry. apply dump_tree_length. Qed.

(** X4.  [min_value_node] returns the first value of the ascending
    traversal (the leftmost node); it fails its assertion on the empty
    tree, and only there. *)
Theorem min_value_node_is_first_of_traversal
  {T : Type} (t : binary_tree_s T) :
  min_value_node t = head (dump_tree t true) /\
  (min_value_node t = None <-> t = Leaf).
Proof.
  split; [apply min_value_node_head|].
  destruct t as [|v c l r]; [tauto|].
  destruct (min_value_node_some v c l r) as (m & -> & _).
  split; discriminate.
Qed.

(** X5.  On a search tree [find_node] returns true exactly for the values
    the traversal lists. *)
Theorem find_node_decides_membership
  {T : Type} (t : binary_tree_s T) (value : Z) :
  bst t ->
  (find_node value t = true <-> In value (dump_tree t true)).
Proof.
  intros B. rewrite occurs_dump_tree. apply find_node_occurs, B.
Qed.

Lemma find_node_decides_membership_witness :
  bst simple_5_3_8_1_4 /\
  (find_node 4 simple_5_3_8_1_4 = true <->
   In 4 (dump_tree simple_5_3_8_1_4 true)).
Proof.
  split; [exact simple_5_3_8_1_4_bst|].
  exact (find_node_decides_membership simple_5_3_8_1_4 4
           simple_5_3_8_1_4_bst).
Defined.

(** ** Plain BST (simple_bst.c) *)

(** X6.  On a search tree, [add_node] returns a search tree whose traversal
    lists the inserted value and the values listed before, and the node
    count grows by one exactly when the value was not found. *)
Theorem simple_add_node_inserts_the_key (t : SimpleBST.tree) (value : Z) :
  bst t ->
  bst (SimpleBST.add_node value t) /\
  (forall x, In x (dump_tree (SimpleBST.add_node value t) true) <->
             x = value \/ In x (dump_tree t true)) /\
  binary_tree_nodes (SimpleBST.add_node value t) =
  binary_tree_nodes t + (if find_node value t then 0 else 1).
Proof.
  intros B. destruct (simple_add_node_spec t value B) as (B' & O).
  split; [exact B'|]. split.
  - intros x. rewrite !occurs_dump_tree. apply O.
  - destruct (find_node value t) eqn:Ef.
    + rewrite (simple_add_node_found value t Ef). lia.
    + rewrite !binary_tree_nodes_size, (simple_add_node_size value t Ef).
      lia.
Qed.

Lemma simple_add_node_inserts_the_key_witness :
  bst simple_5_3_8_1_4 /\
  (bst (SimpleBST.add_node 7 simple_5_3_8_1_4) /\
   (forall x, In x (dump_tree (SimpleBST.add_node 7 simple_5_3_8_1_4) true)
              <-> x = 7 \/ In x (dump_tree simple_5_3_8_1_4 true)) /\
   binary_tree_nodes (SimpleBST.add_node 7 simple_5_3_8_1_4) =
   binary_tree_nodes simple_5_3_8_1_4 +
   (if find_node 7 simple_5_3_8_1_4 then 0 else 1)).
Proof.
  split; [exact simple_5_3_8_1_4_bst|].
  exact (simple_add_node_inserts_the_key simple_5_3_8_1_4 7
           simple_5_3_8_1_4_bst).
Defined.

(** X7.  On a search tree, [remove_node] returns (its assertion never
    fails) a search tree whose traversal lists the other values, and the
    node count drops by one exactly when the value was found. *)
Theorem simple_remove_node_deletes_the_key (t : SimpleBST.tree) (value : Z) :
  bst t ->
  exists t',
    SimpleBST.remove_node value t = Some t' /\ bst t' /\
    (forall x, In x (dump_tree t' true) <->
               In x (dump_tree t true) /\ x <> value) /\
    binary_tree_nodes t' =
    binary_tree_nodes t - (if find_node value t then 1 else 0).
Proof.
  intros B. destruct (simple_remove_node_spec t value B) as (t' & E & B' & O).
  exists t'. split; [exact E|]. split; [exact B'|]. split.
  - intros x. rewrite !occurs_dump_tree. apply O.
  - destruct (find_node value t) eqn:Ef.
    + apply (find_node_occurs value t B) in Ef.
      rewrite !binary_tree_nodes_size,
        (simple_remove_node_size t value t' B Ef E). lia.
    + rewrite (simple_remove_node_absent value t Ef) in E.
      injection E as <-. lia.
Qed.

Lemma simple_remove_node_deletes_the_key_witness :
  bst simple_5_3_8_1_4 /\
  (exists t',
      SimpleBST.remove_node 3 simple_5_3_8_1_4 = Some t' /\ bst t' /\
      (forall x, In x (dump_tree t' true) <->
                 In x (dump_tree simple_5_3_8_1_4 true) /\ x <> 3) /\
      binary_tree_nodes t' =
      binary_tree_nodes simple_5_3_8_1_4 -
      (if find_node 3 simple_5_3_8_1_4 then 1 else 0)).
Proof.
  split; [exact simple_5_3_8_1_4_bst|].
  exact (simple_remove_node_deletes_the_key simple_5_3_8_1_4 3
           simple_5_3_8_1_4_bst).
Defined.

(** X8.  The height computed by the plain BST is -1 or more, is below the
    node count, and a tree of height h has at most 2^(h+1) - 1 nodes. *)
Theorem plain_height_and_node_count (t : SimpleBST.tree) :
  -1 <= SimpleBST.binary_tree_height t /\
  SimpleBST.binary_tree_height t + 1 <= binary_tree_nodes t /\
  binary_tree_nodes t + 1 <= 2 ^ (SimpleBST.binary_tree_height t + 1).
Proof. apply simple_height_bounds. Qed.

(** X9.  One [add_node] on the plain BST never lowers the height and
    raises it by at most one. *)
Theorem plain_add_node_height (t : SimpleBST.tree) (value : Z) :
  SimpleBST.binary_tree_height t
    <= SimpleBST.binary_tree_height (SimpleBST.add_node value t)
    <= SimpleBST.binary_tree_height t + 1.
Proof. apply simple_add_node_height. Qed.

(** ** AVL tree (avl_bst.c) *)

(** X10.  The two rotations keep the traversal, in both directions, and
    the node count, on every tree. *)
Theorem avl_rotations_keep_the_traversal (t : AVL.tree) (ascending : bool) :
  dump_tree (AVL.bst_rotate_left t) ascending = dump_tree t ascending /\
  dump_tree (AVL.bst_rotate_right t) ascending = dump_tree t ascending /\
  binary_tree_nodes (AVL.bst_rotate_left t) = binary_tree_nodes t /\
  binary_tree_nodes (AVL.bst_rotate_right t) = binary_tree_nodes t.
Proof.
  split; [apply bst_rotate_left_dump|].
  split; [apply bst_rotate_right_dump|].
  rewrite <- !(dump_tree_length _ true),
    bst_rotate_left_dump, bst_rotate_right_dump. auto.
Qed.





(** X13.  On a valid AVL tree, [add_node] of a value that [find_node] finds
    and [remove_node] of a value that it does not find return the tree
    they were given, height fields included. *)
Theorem avl_logical_no_ops (t : AVL.tree) (value : Z) :
  AVL.avl t ->
  (find_node value t = true -> AVL.add_node value t = t) /\
  (find_node value t = false -> AVL.remove_node value t = Some t).
Proof.
  intros A. split;
    [apply avl_add_node_found|apply avl_remove_node_absent]; exact A.
Qed.

Lemma avl_logical_no_ops_witness :
  AVL.avl avl_10_20_30 /\
  ((find_node 30 avl_10_20_30 = true ->
    AVL.add_node 30 avl_10_20_30 = avl_10_20_30) /\
   (find_node 30 avl_10_20_30 = false ->
    AVL.remove_node 30 avl_10_20_30 = Some avl_10_20_30)).
Proof.
  split; [exact avl_10_20_30_valid|].
  exact (avl_logical_no_ops avl_10_20_30 30 avl_10_20_30_valid).
Defined.

(** X14.  The height of a valid AVL tree is logarithmic in its size: a
    tree whose root stores the height h has at least 2^((h+1)/2) - 1
    nodes. *)
Theorem avl_height_is_logarithmic (t : AVL.tree) :
  AVL.avl t ->
  2 ^ ((AVL.binary_tree_height t + 1) / 2) <= binary_tree_nodes t + 1.
Proof.
  intros A. rewrite (height_real t A). apply avl_size_lower_bound, A.
Qed.

Lemma avl_height_is_logarithmic_witness :
  AVL.avl avl_10_20_30 /\
  2 ^ ((AVL.binary_tree_height avl_10_20_30 + 1) / 2)
    <= binary_tree_nodes avl_10_20_30 + 1.
Proof.
  split; [exact avl_10_20_30_valid|].
  exact (avl_height_is_logarithmic avl_10_20_30 avl_10_20_30_valid).
Defined.

(** X15.  On a valid AVL tree one [add_node] leaves the stored height of
    the root as it was or raises it by one, and one [remove_node] leaves
    it as it was or lowers it by one. *)
Theorem avl_height_changes_by_at_most_one (t : AVL.tree) (value : Z) :
  AVL.avl t ->
  AVL.binary_tree_height t
    <= AVL.binary_tree_height (AVL.add_node value t)
    <= AVL.binary_tree_height t + 1 /\
  exists t',
    AVL.remove_node value t = Some t' /\
    AVL.binary_tree_height t - 1
      <= AVL.binary_tree_height t' <= AVL.binary_tree_height t.
Proof.
  intros A. split.
  - destruct (add_node_avl t value A) as (A' & Hh).
    rewrite (height_real _ A), (height_real _ A'). lia.
  - destruct (remove_node_avl t value A) as (t' & E & A' & Hh).
    exists t'. split; [exact E|].
    rewrite (height_real _ A), (height_real _ A'). exact Hh.
Qed.

Lemma avl_height_changes_by_at_most_one_witness :
  AVL.avl avl_10_20_30 /\
  (AVL.binary_tree_height avl_10_20_30
     <= AVL.binary_tree_height (AVL.add_node 40 avl_10_20_30)
     <= AVL.binary_tree_height avl_10_20_30 + 1 /\
   exists t',
     AVL.remove_node 40 avl_10_20_30 = Some t' /\
     AVL.binary_tree_height avl_10_20_30 - 1
       <= AVL.binary_tree_height t'
       <= AVL.binary_tree_height avl_10_20_30).
Proof.
  split; [exact avl_10_20_30_valid|].
  exact (avl_height_changes_by_at_most_one avl_10_20_30 40
           avl_10_20_30_valid).
Defined.

(** ** Red-black tree (rb_bst.c) *)

Lemma rb_2_1_3_valid : RB.rb_valid rb_2_1_3.
Proof.
  split; [|split].
  - cbn. repeat split; discriminate.
  - apply black_balanced_iff. cbn. repeat split.
  - reflexivity.
Defined.

Lemma rb_2_1_3_bst : bst rb_2_1_3.
Proof. cbn [rb_2_1_3 bst all_values]. repeat split; lia. Defined.


(** X16.  On a valid red-black search tree [add_node] of a value the
    traversal already lists returns the tree it was given: no pattern of
    [fix_red_black] matches on the way back, no rotation is called, and
    the root is already black. *)
Theorem rb_add_node_of_present_key (t : RB.tree) (value : Z) :
  RB.rb_valid t -> bst t -> In value (dump_tree t true) ->
  RB.add_node value t = Some t.
Proof.
  intros (N & _ & Hroot) B Hin.
  apply occurs_dump_tree, (find_node_occurs value t B) in Hin.
  unfold RB.add_node, RB.add_node_with.
  rewrite (rb_add_node_rec_found _ _ t value N Hin).
  destruct t as [|v [] l r]; try discriminate. reflexivity.
Qed.

Lemma rb_add_node_of_present_key_witness :
  RB.rb_valid rb_2_1_3 /\ bst rb_2_1_3 /\ In 3 (dump_tree rb_2_1_3 true) /\
  RB.add_node 3 rb_2_1_3 = Some rb_2_1_3.
Proof.
  split; [exact rb_2_1_3_valid|]. split; [exact rb_2_1_3_bst|].
  assert (Hin : In 3 (dump_tree rb_2_1_3 true))
    by (vm_compute; right; right; left; reflexivity).
  split; [exact Hin|].
  exact (rb_add_node_of_present_key rb_2_1_3 3 rb_2_1_3_valid rb_2_1_3_bst
           Hin).
Defined.

(** X17.  On a search tree [remove_node] of a value the traversal does not
    list returns the tree it was given, colours included. *)
Theorem rb_remove_node_of_absent_key (t : RB.tree) (value : Z) :
  bst t -> ~ In value (dump_tree t true) ->
  RB.remove_node value t = Some t.
Proof.
  intros B Hin. rewrite occurs_dump_tree in Hin.
  apply rb_remove_node_absent, (find_node_false_not_occurs value t B), Hin.
Qed.

Lemma rb_remove_node_of_absent_key_witness :
  bst rb_2_1_3 /\ ~ In 9 (dump_tree rb_2_1_3 true) /\
  RB.remove_node 9 rb_2_1_3 = Some rb_2_1_3.
Proof.
  split; [exact rb_2_1_3_bst|].
  assert (Hin : ~ In 9 (dump_tree rb_2_1_3 true))
    by (vm_compute; intros [H|[H|[H|[]]]]; discriminate H).
  split; [exact Hin|].
  exact (rb_remove_node_of_absent_key rb_2_1_3 9 rb_2_1_3_bst Hin).
Defined.



(** X19.  When [find_parent] returns a pointer, it points to a node of the
    tree one of whose children holds the value; started on a search tree
    at the node that holds the value, it returns NULL. *)
Theorem find_parent_returns_a_parent (t : RB.tree) (value : Z) (p : RB.path) :
  RB.find_parent value t = Some p ->
  (exists pv pc pl pr,
      RB.subtree p t = Node pv pc pl pr /\
      RB.has_value value pl || RB.has_value value pr = true) /\
  (forall c l r, bst (Node value c l r) ->
                 RB.find_parent value (Node value c l r) = None).
Proof.
  intros E. split; [apply (find_parent_sound t value p E)|].
  intros c l r. apply find_parent_from_the_node.
Qed.

Lemma find_parent_returns_a_parent_witness :
  RB.find_parent 3 rb_2_1_3 = Some [] /\
  ((exists pv pc pl pr,
       RB.subtree [] rb_2_1_3 = Node pv pc pl pr /\
       RB.has_value 3 pl || RB.has_value 3 pr = true) /\
   (forall c l r, bst (Node 3 c l r) ->
                  RB.find_parent 3 (Node 3 c l r) = None)).
Proof.
  split; [reflexivity|].
  exact (find_parent_returns_a_parent rb_2_1_3 3 [] eq_refl).
Defined.

(** ** Binary heap (heap.c) and heapsort (main_heapsort.c) *)

(** X20.  [heap_add] on a well-formed heap that is not full returns a
    well-formed heap: the array keeps its size, the count grows by one,
    the max-heap order holds, and the heap holds the new value together
    with the elements it held. *)
Theorem heap_add_keeps_the_heap_well_formed
  (h : Heap.heap_s) (bag : list Z) (value : Z) :
  Heap.heap_inv h bag -> Heap.nb_elements h < Heap.HEAP_MAX_SIZE ->
  exists h',
    Heap.heap_add value h = Heap.Ok h' /\
    Heap.heap_inv h' (value :: bag) /\
    Heap.nb_elements h' = Heap.nb_elements h + 1.
Proof.
  intros Hinv Hroom.
  destruct (heap_add_correct h bag value Hinv Hroom) as (h' & E & Hinv').
  exists h'. split; [exact E|]. split; [exact Hinv'|].
  rewrite (Heap.inv_count _ _ Hinv'), (Heap.inv_count _ _ Hinv).
  cbn [length]. lia.
Qed.

Lemma heap_with_5_inv : Heap.heap_inv heap_with_5 [5].
Proof.
  split.
  - vm_compute. reflexivity.
  - reflexivity.
  - vm_compute. discriminate.
  - intros i Hi. cbn [heap_with_5 Heap.nb_elements] in Hi. lia.
  - intros x. cbn [length Heap.occ count_occ].
    change (Heap.sel (Heap.array heap_with_5) (Z.of_nat 0)) with 5.
    destruct (Z.eq_dec 5 x), (Z.eqb_spec 5 x); try contradiction;
      reflexivity.
Defined.

Lemma heap_add_keeps_the_heap_well_formed_witness :
  Heap.heap_inv heap_with_5 [5] /\
  Heap.nb_elements heap_with_5 < Heap.HEAP_MAX_SIZE /\
  exists h',
    Heap.heap_add 8 heap_with_5 = Heap.Ok h' /\
    Heap.heap_inv h' [8; 5] /\
    Heap.nb_elements h' = Heap.nb_elements heap_with_5 + 1.
Proof.
  split; [exact heap_with_5_inv|].
  assert (Hroom : Heap.nb_elements heap_with_5 < Heap.HEAP_MAX_SIZE)
    by (vm_compute; reflexivity).
  split; [exact Hroom|].
  exact (heap_add_keeps_the_heap_well_formed heap_with_5 [5] 8
           heap_with_5_inv Hroom).
Defined.

(** X21.  On a well-formed heap that is not empty, [heap_peek] returns the
    maximum of the elements held, and [heap_remove] returns a well-formed
    heap that holds them less one occurrence of that maximum, with the
    count lowered by one. *)
Theorem heap_remove_takes_the_maximum
  (h : Heap.heap_s) (x : Z) (bag : list Z) :
  Heap.heap_inv h (x :: bag) ->
  Heap.heap_peek h = Heap.Ok (Heap.maximum x bag) /\
  exists h',
    Heap.heap_remove h = Heap.Ok h' /\
    Heap.heap_inv h' (Heap.remove_one (Heap.maximum x bag) (x :: bag)) /\
    Heap.nb_elements h' = Heap.nb_elements h - 1.
Proof.
  intros Hinv. split; [apply heap_peek_correct, Hinv|].
  pose proof (Heap.inv_count _ _ Hinv) as Hc. cbn [length] in Hc.
  destruct (heap_remove_correct h (x :: bag) Hinv ltac:(lia))
    as (h' & E & Hinv').
  rewrite (heap_inv_top h x bag Hinv) in Hinv'.
  exists h'. split; [exact E|]. split; [exact Hinv'|].
  destruct (maximum_spec bag x) as (Hin & _).
  pose proof (length_remove_one _ _ Hin) as Hl. cbn [length] in Hl.
  rewrite (Heap.inv_count _ _ Hinv'). lia.
Qed.

Lemma heap_remove_takes_the_maximum_witness :
  Heap.heap_inv heap_with_5 [5] /\
  (Heap.heap_peek heap_with_5 = Heap.Ok (Heap.maximum 5 []) /\
   exists h',
     Heap.heap_remove heap_with_5 = Heap.Ok h' /\
     Heap.heap_inv h' (Heap.remove_one (Heap.maximum 5 []) [5]) /\
     Heap.nb_elements h' = Heap.nb_elements heap_with_5 - 1).
Proof.
  split; [exact heap_with_5_inv|].
  exact (heap_remove_takes_the_maximum heap_with_5 5 [] heap_with_5_inv).
Defined.

(** X22.  [my_heapsort] sorts: called on an array of at most
    [HEAP_MAX_SIZE] elements with its length, it returns, and the array
    then holds the same elements in ascending order. *)
Theorem my_heapsort_sorts (contents : list Z) (array : list Z) :
  Z.of_nat (length contents) = Heap.HEAP_MAX_SIZE ->
  Z.of_nat (length array) <= Heap.HEAP_MAX_SIZE ->
  exists sorted,
    Heapsort.my_heapsort contents array (Z.of_nat (length array))
      = Heap.Ok sorted /\
    StronglySorted Z.le sorted /\ Permutation sorted array.
Proof. apply my_heapsort_correct. Qed.

Example my_heapsort_3_1_2 :
  Heapsort.my_heapsort (repeat 0 1000%nat) array_3_1_2 3
    = Heap.Ok [1; 2; 3].
Proof. vm_compute. reflexivity. Qed.

Lemma my_heapsort_sorts_witness :
  Z.of_nat (length (repeat 0 1000%nat)) = Heap.HEAP_MAX_SIZE /\
  Z.of_nat (length array_3_1_2) <= Heap.HEAP_MAX_SIZE /\
  exists sorted,
    Heapsort.my_heapsort (repeat 0 1000%nat) array_3_1_2
      (Z.of_nat (length array_3_1_2)) = Heap.Ok sorted /\
    StronglySorted Z.le sorted /\ Permutation sorted array_3_1_2.
Proof.
  assert (H1 : Z.of_nat (length (repeat 0 1000%nat)) = Heap.HEAP_MAX_SIZE)
    by (vm_compute; reflexivity).
  assert (H2 : Z.of_nat (length array_3_1_2) <= Heap.HEAP_MAX_SIZE)
    by (vm_compute; discriminate).
  split; [exact H1|]. split; [exact H2|].
  exact (my_heapsort_sorts (repeat 0 1000%nat) array_3_1_2 H1 H2).
Defined.

(** ** Priority queue (priority_queue.c) *)

(** Scenario 4: enqueue 4, 5; peek gives 4; dequeue; peek gives 5. *)
Example queue_scenario :
  let q := Queue.queue_enqueue SimpleBST.add_node 5
             (Queue.queue_enqueue SimpleBST.add_node 4 Queue.queue_create) in
  q = queue_4_5 /\
  Queue.queue_peek q = Some 4 /\
  bind_opt (Queue.queue_dequeue SimpleBST.remove_node q) Queue.queue_peek
    = Some 5.
Proof. repeat split; reflexivity. Qed.

Lemma queue_4_5_bst : bst (Queue.inner_bst queue_4_5).
Proof.
  cbn [queue_4_5 Queue.inner_bst bst all_values]. repeat split; lia.
Defined.

Lemma avl_queue_4_5_bst : bst (Queue.inner_bst avl_queue_4_5).
Proof.
  cbn [avl_queue_4_5 Queue.inner_bst bst all_values]. repeat split; lia.
Defined.

(** X23.  Linked with the plain BST, on a queue whose tree is a search tree
    and which is not empty: [queue_print] lists the head first, every
    other value is greater, [queue_peek] returns the head, and
    [queue_dequeue] returns a queue (again on a search tree) that prints
    the same list without its head. *)
Theorem queue_dequeue_removes_the_head (q : Queue.queue_s unit) :
  bst (Queue.inner_bst q) -> Queue.queue_empty q = false ->
  exists head rest q',
    Queue.queue_print q = head :: rest /\
    Forall (fun x => head < x) rest /\
    Queue.queue_peek q = Some head /\
    Queue.queue_dequeue SimpleBST.remove_node q = Some q' /\
    bst (Queue.inner_bst q') /\
    Queue.queue_print q' = rest.
Proof.
  intros B Hne.
  destruct (queue_dequeue_spec SimpleBST.remove_node
              simple_remove_node_spec q B Hne)
    as (head & rest & q' & Ep & Epeek & Ed & B' & Er).
  exists head, rest, q'. split; [exact Ep|]. split; [|auto].
  pose proof (dump_tree_ascending_sorted _ B) as S.
  unfold Queue.queue_print in Ep. rewrite Ep in S.
  apply StronglySorted_inv in S. apply S.
Qed.

Lemma queue_dequeue_removes_the_head_witness :
  bst (Queue.inner_bst queue_4_5) /\ Queue.queue_empty queue_4_5 = false /\
  exists head rest q',
    Queue.queue_print queue_4_5 = head :: rest /\
    Forall (fun x => head < x) rest /\
    Queue.queue_peek queue_4_5 = Some head /\
    Queue.queue_dequeue SimpleBST.remove_node queue_4_5 = Some q' /\
    bst (Queue.inner_bst q') /\
    Queue.queue_print q' = rest.
Proof.
  split; [exact queue_4_5_bst|]. split; [reflexivity|].
  exact (queue_dequeue_removes_the_head queue_4_5 queue_4_5_bst eq_refl).
Defined.

(** X24.  Linked with the plain BST, [queue_enqueue] on a queue whose tree
    is a search tree keeps it a search tree; the queue then is not empty
    and prints, in strictly increasing order, the new value and the values
    it printed before.  A value that is already queued is not queued
    twice: the queue prints the same list as before. *)
Theorem queue_enqueue_adds_the_value (q : Queue.queue_s unit) (value : Z) :
  bst (Queue.inner_bst q) ->
  let q' := Queue.queue_enqueue SimpleBST.add_node value q in
  bst (Queue.inner_bst q') /\
  Queue.queue_empty q' = false /\
  StronglySorted Z.lt (Queue.queue_print q') /\
  (forall x, In x (Queue.queue_print q') <->
             x = value \/ In x (Queue.queue_print q)) /\
  (In value (Queue.queue_print q) ->
   Queue.queue_print q' = Queue.queue_print q).
Proof.
  intros B q'.
  destruct (queue_enqueue_spec SimpleBST.add_node
              (fun t v => simple_add_node_spec t v) q value B)
    as (B' & S & Hin & Hdup).
  split; [exact B'|]. split; [|auto].
  destruct (Queue.queue_empty q') eqn:Ee; [|reflexivity].
  apply queue_empty_iff in Ee.
  assert (Hv : In value (Queue.queue_print q')) by (apply Hin; auto).
  unfold Queue.queue_print in Hv. rewrite Ee in Hv. destruct Hv.
Qed.

Lemma queue_enqueue_adds_the_value_witness :
  bst (Queue.inner_bst queue_4_5) /\
  (let q' := Queue.queue_enqueue SimpleBST.add_node 5 queue_4_5 in
   bst (Queue.inner_bst q') /\
   Queue.queue_empty q' = false /\
   StronglySorted Z.lt (Queue.queue_print q') /\
   (forall x, In x (Queue.queue_print q') <->
              x = 5 \/ In x (Queue.queue_print queue_4_5)) /\
   (In 5 (Queue.queue_print queue_4_5) ->
    Queue.queue_print q' = Queue.queue_print queue_4_5)).
Proof.
  split; [exact queue_4_5_bst|].
  exact (queue_enqueue_adds_the_value queue_4_5 5 queue_4_5_bst).
Defined.

(** X25.  Linked with the AVL tree instead, the queue behaves the same:
    [queue_enqueue] keeps the search order and adds the value to the
    printed list, and on a queue that is not empty [queue_peek] returns
    the head of the printed list and [queue_dequeue] removes it. *)
Theorem avl_queue_enqueue_and_dequeue (q : Queue.queue_s Z) (value : Z) :
  bst (Queue.inner_bst q) ->
  (let q' := Queue.queue_enqueue AVL.add_node value q in
   bst (Queue.inner_bst q') /\
   StronglySorted Z.lt (Queue.queue_print q') /\
   (forall x, In x (Queue.queue_print q') <->
              x = value \/ In x (Queue.queue_print q))) /\
  (Queue.queue_empty q = false ->
   exists head rest q',
     Queue.queue_print q = head :: rest /\
     Queue.queue_peek q = Some head /\
     Queue.queue_dequeue AVL.remove_node q = Some q' /\
     bst (Queue.inner_bst q') /\
     Queue.queue_print q' = rest).
Proof.
  intros B. split.
  - destruct (queue_enqueue_spec AVL.add_node
                (fun t v => avl_add_node_spec t v) q value B)
      as (B' & S & Hin & _). auto.
  - intros Hne.
    apply (queue_dequeue_spec AVL.remove_node
             (fun t v => avl_remove_node_spec t v) q B Hne).
Qed.

Lemma avl_queue_enqueue_and_dequeue_witness :
  bst (Queue.inner_bst avl_queue_4_5) /\
  ((let q' := Queue.queue_enqueue AVL.add_node 6 avl_queue_4_5 in
    bst (Queue.inner_bst q') /\
    StronglySorted Z.lt (Queue.queue_print q') /\
    (forall x, In x (Queue.queue_print q') <->
               x = 6 \/ In x (Queue.queue_print avl_queue_4_5))) /\
   (Queue.queue_empty avl_queue_4_5 = false ->
    exists head rest q',
      Queue.queue_print avl_queue_4_5 = head :: rest /\
      Queue.queue_peek avl_queue_4_5 = Some head /\
      Queue.queue_dequeue AVL.remove_node avl_queue_4_5 = Some q' /\
      bst (Queue.inner_bst q') /\
      Queue.queue_print q' = rest)).
Proof.
  split; [exact avl_queue_4_5_bst|].
  exact (avl_queue_enqueue_and_dequeue avl_queue_4_5 6 avl_queue_4_5_bst).
Defined.

(** ** The argument test of the drivers (main_bst.c, main_heap.c,
    main_priority_queue.c) *)

(** X26.  [is_number] of main_bst.c accepts exactly the strings made of an
    optional minus sign followed by digits only -- possibly by no digit at
    all: the empty string and the lone minus sign are accepted. *)
Theorem is_number_bst_accepts (s : list ascii) :
  (Cli.is_number_bst s = true <->
   exists ds, Cli.digits ds /\ (s = ds \/ s = "-"%char :: ds)) /\
  Cli.is_number_bst [] = true /\
  Cli.is_number_bst ["-"%char] = true.
Proof.
  split; [|split; reflexivity].
  unfold Cli.is_number_bst.
  assert (Hnil : forall s0 : list ascii,
             match s0 with [] => true | _ :: _ => false end = true <->
             s0 = []) by (intros [|? ?]; split; congruence).
  rewrite Hnil, skip_digits_nil.
  destruct s as [|c s]; cbn [Cli.skip_minus].
  - split; [intros H; exists []; auto|intros _; constructor].
  - destruct (Ascii.eqb_spec c "-") as [->|Hne].
    + split.
      * intros H. exists s. auto.
      * intros (ds & Hd & [E|E]).
        -- subst ds. apply Forall_inv in Hd. vm_compute in Hd. discriminate.
        -- injection E as <-. exact Hd.
    + split.
      * intros H. exists (c :: s). auto.
      * intros (ds & Hd & [E|E]); [subst ds; exact Hd|congruence].
Qed.

(** X27.  [is_number] of main_heap.c and main_priority_queue.c accepts
    exactly the strings made of an optional minus sign followed by a
    non-empty run of digits and then of spaces, tabs and newlines -- the
    digits themselves may be missing: a single space is accepted, the
    empty string and the lone minus sign are not. *)
Theorem is_number_heap_accepts (s : list ascii) :
  (Cli.is_number_heap s = true <->
   exists ds bs, Cli.digits ds /\ Cli.blanks bs /\ ds ++ bs <> [] /\
                 (s = ds ++ bs \/ s = "-"%char :: ds ++ bs)) /\
  Cli.is_number_heap [" "%char] = true /\
  Cli.is_number_heap [] = false /\
  Cli.is_number_heap ["-"%char] = false.
Proof.
  split; [|repeat split; reflexivity].
  assert (Hbody : forall s0 : list ascii,
             match s0 with
             | [] => false
             | _ :: _ =>
                 match Cli.skip_blanks (Cli.skip_digits s0) with
                 | [] => true
                 | _ :: _ => false
                 end
             end = true <->
             exists ds bs, Cli.digits ds /\ Cli.blanks bs /\
                           ds ++ bs <> [] /\ s0 = ds ++ bs).
  { intros s0. destruct s0 as [|c s0].
    - split; [discriminate|]. intros (ds & bs & _ & _ & Hne & E).
      symmetry in E. contradiction.
    - destruct (Cli.skip_blanks (Cli.skip_digits (c :: s0))) eqn:Es.
      + apply skip_digits_blanks_nil in Es.
        destruct Es as (ds & bs & E & Hd & Hb).
        split; [|reflexivity]. intros _. exists ds, bs.
        repeat split; try assumption. rewrite <- E. discriminate.
      + split; [discriminate|]. intros (ds & bs & Hd & Hb & _ & E).
        assert (Cli.skip_blanks (Cli.skip_digits (c :: s0)) = [])
          by (apply skip_digits_blanks_nil; eauto).
        congruence. }
  unfold Cli.is_number_heap. rewrite Hbody.
  destruct s as [|c s]; cbn [Cli.skip_minus].
  - split.
    + intros (ds & bs & Hd & Hb & Hne & E). exists ds, bs. auto.
    + intros (ds & bs & Hd & Hb & Hne & [E|E]); [|discriminate].
      exists ds, bs. auto.
  - assert (Hfirst : forall ds bs,
               Cli.digits ds -> Cli.blanks bs ->
               "-"%char :: s = ds ++ bs -> False).
    { intros ds bs Hd Hb E. destruct ds as [|d ds].
      - destruct bs as [|b bs]; [discriminate|].
        injection E as <- _. apply Forall_inv in Hb.
        vm_compute in Hb. discriminate.
      - injection E as <- _. apply Forall_inv in Hd.
        vm_compute in Hd. discriminate. }
    destruct (Ascii.eqb_spec c "-") as [->|Hc].
    + split.
      * intros (ds & bs & Hd & Hb & Hne & E). exists ds, bs.
        repeat split; try assumption. right. congruence.
      * intros (ds & bs & Hd & Hb & Hne & [E|E]).
        -- destruct (Hfirst ds bs Hd Hb E).
        -- injection E as E. exists ds, bs. auto.
    + split.
      * intros (ds & bs & Hd & Hb & Hne & E). exists ds, bs. auto.
      * intros (ds & bs & Hd & Hb & Hne & [E|E]); [|congruence].
        exists ds, bs. auto.
Qed.

(** ** Teardown (binary_tree_free of simple_bst.c, avl_bst.c, rb_bst.c) *)

(** X28.  [binary_tree_free] on a tree that owns its cells -- each node in
    a cell of its own -- returns, releases every cell of the tree once and
    leaves every other cell of the store as it was.  Called again on the
    same pointer to a node, it stops: the cell is no longer allocated. *)
Theorem binary_tree_free_releases_the_tree
  {T : Type} (s f : gmap Mem.loc (Mem.cell T)) (p : option Mem.loc)
  (t : binary_tree_s T) :
  Mem.owns s p t -> s ##ₘ f ->
  Mem.binary_tree_free (S (size t)) p (s ∪ f) = Some (tt, f) /\
  forall q fuel, p = Some q -> Mem.binary_tree_free fuel p f = None.
Proof.
  intros Ho Hd. split.
  - apply (binary_tree_free_owned s p t Ho); [lia|exact Hd].
  - intros q fuel ->. destruct fuel as [|fuel]; [reflexivity|].
    cbn [Mem.binary_tree_free]. unfold Mem.bindM at 1, Mem.load at 1.
    assert (Hq : f !! q = None).
    { inversion Ho; subst.
      eapply map_disjoint_Some_l; [exact Hd|]. apply lookup_insert_eq. }
    rewrite Hq. reflexivity.
Qed.

Lemma owned_10_20_30_owns :
  Mem.owns owned_10_20_30 (Some 1%positive) avl_10_20_30.
Proof.
  unfold owned_10_20_30, avl_10_20_30.
  apply (Mem.owns_node 1%positive cell_20
           (Node 10 0 Leaf Leaf) (Node 30 0 Leaf Leaf)).
  - apply (Mem.owns_node 2%positive cell_10 Leaf Leaf);
      [constructor|constructor|apply map_disjoint_empty_l
      |reflexivity|reflexivity].
  - apply (Mem.owns_node 3%positive cell_30 Leaf Leaf);
      [constructor|constructor|apply map_disjoint_empty_l
      |reflexivity|reflexivity].
  - apply map_disjoint_insert_l. split; [reflexivity|].
    rewrite (left_id_L ∅ (∪)). apply map_disjoint_empty_l.
  - reflexivity.
  - reflexivity.
Defined.

Lemma owned_10_20_30_disjoint : owned_10_20_30 ##ₘ other_cells.
Proof.
  unfold other_cells. apply map_disjoint_singleton_r. reflexivity.
Defined.

Lemma binary_tree_free_releases_the_tree_witness :
  Mem.owns owned_10_20_30 (Some 1%positive) avl_10_20_30 /\
  owned_10_20_30 ##ₘ other_cells /\
  (Mem.binary_tree_free (S (size avl_10_20_30)) (Some 1%positive)
     (owned_10_20_30 ∪ other_cells) = Some (tt, other_cells) /\
   forall q fuel,
     Some 1%positive = Some q ->
     Mem.binary_tree_free fuel (Some 1%positive) other_cells = None).
Proof.
  split; [exact owned_10_20_30_owns|].
  split; [exact owned_10_20_30_disjoint|].
  exact (binary_tree_free_releases_the_tree owned_10_20_30 other_cells
           (Some 1%positive) avl_10_20_30 owned_10_20_30_owns
           owned_10_20_30_disjoint).
Defined.
